(** * The ledger store, the installment schedule, the due-installment sweep
      and the offline mutation queue

    A shallow embedding of [server/store/accounting.ts] (the ledger
    operations over the in-memory fallback maps and over the relational
    backend whose schema [server/lib/mysql.ts] creates), of the sweep
    [scheduleDueInstallmentChecks] and of the client queue [processQueue].

    Conventions of the embedding:
    - a JavaScript number is a double; the model holds the integer-valued
      ones as [Z], and the sums, differences and products the store
      computes on amounts and quantities round as the doubles do
      ([JS.plus], [JS.minus], [JS.times]); numbers with a fractional part
      are outside the model;
    - a JavaScript string is a [string]; [<] and [<=] on strings compare
      code units, which is [String.ltb] and [String.leb];
    - a [Map<string, T>] and a database table keyed by [id] are a
      [gmap string T];
    - [crypto.randomUUID()] draws from a counter kept in the state, so two
      draws never coincide;
    - an operation returns the state it leaves behind together with either
      its value or the message of the [Error] it throws;
    - a backend that is there answers every statement, and a statement
      fails only on a key of the schema (a duplicate primary key, a missing
      parent row); requests are served one at a time. *)

From Stdlib Require Import ZArith List Bool Ascii String Sorted.
From stdpp Require Import base option strings pretty list gmap fin_maps.

Local Open Scope string_scope.
Local Open Scope Z_scope.

(** ** JavaScript primitives used by the store *)

Module JS.

(** [s.split("-")] *)
Fixpoint split_go (cur : string) (s : string) : list string :=
  match s with
  | EmptyString => [String.rev cur]
  | String c rest =>
      if Ascii.eqb c "-"%char
      then String.rev cur :: split_go "" rest
      else split_go (String c cur) rest
  end.

Definition split_dash (s : string) : list string := split_go "" s.

Definition digit_value (c : ascii) : option Z :=
  let n := Z.of_N (Ascii.N_of_ascii c) in
  if (48 <=? n) && (n <=? 57) then Some (n - 48) else None.

Fixpoint digits_value (acc : Z) (s : string) : option Z :=
  match s with
  | EmptyString => Some acc
  | String c rest =>
      match digit_value c with
      | Some d => digits_value (10 * acc + d) rest
      | None => None
      end
  end.

(** [Number(piece)] on a piece of a date.  The pieces of a date are runs of
    decimal digits: such a piece is its value, and the empty piece is 0.
    [None] stands for [NaN], which every other piece is taken to give. *)
Definition Number (s : string) : option Z := digits_value 0 s.

(** [String(n)] for an integer. *)
Definition String_of (n : Z) : string := pretty n.

(** *** Numbers

    An integer [x] stands for the double of that value.  [double x] is
    the double nearest to the integer [x], a tie going to the even
    significand (magnitudes stay below 2^1024): every integer up to 2^53
    in magnitude is a double, a larger one keeps its 53 leading bits. *)
Definition double (x : Z) : Z :=
  let a := Z.abs x in
  if a <=? 2 ^ 53 then x
  else
    let e := Z.log2 a - 52 in
    let q := a / 2 ^ e in
    let r := a mod 2 ^ e in
    let half := 2 ^ (e - 1) in
    let q' := if (half <? r) || ((r =? half) && Z.odd q) then q + 1 else q in
    Z.sgn x * (q' * 2 ^ e).

(** [a + b], [a - b] and [a * b] on numbers *)
Definition plus (a b : Z) : Z := double (a + b).
Definition minus (a b : Z) : Z := double (a - b).
Definition times (a b : Z) : Z := double (a * b).

(** The range in which every integer is a double. *)
Definition exact (x : Z) : Prop := Z.abs x <= 2 ^ 53.

(** [s.padStart(2, "0")] *)
Definition padStart2 (s : string) : string :=
  match String.length s with
  | O => "00"
  | S O => "0" +:+ s
  | _ => s
  end.

(** *** [Date]

    A [Date] built by [new Date(year, monthIndex, day)] and read back with
    [getFullYear], [getMonth] and [getDate] only ever sees local midnight,
    so it is represented by its day number (days since 1970-01-01).  The
    definitions follow the abstract operations of the language
    specification. *)

Definition DaysInYear (y : Z) : Z :=
  if negb (y mod 4 =? 0) then 365
  else if negb (y mod 100 =? 0) then 366
  else if negb (y mod 400 =? 0) then 365
  else 366.

Definition InLeapYear (y : Z) : Z := if DaysInYear y =? 366 then 1 else 0.

Definition DayFromYear (y : Z) : Z :=
  365 * (y - 1970) + (y - 1969) / 4 - (y - 1901) / 100 + (y - 1601) / 400.

(** The year whose days contain day number [day]: the estimate is off by at
    most one year, and is corrected against [DayFromYear]. *)
Definition YearFromDay (day : Z) : Z :=
  let y0 := 1970 + (day * 400) / 146097 in
  if day <? DayFromYear y0 then y0 - 1
  else if DayFromYear (y0 + 1) <=? day then y0 + 1
  else y0.

(** First day within the year of month index [m] (0 = January). *)
Definition MonthStart (leap : Z) (m : Z) : Z :=
  match m with
  | 0 => 0
  | 1 => 31
  | 2 => 59 + leap
  | 3 => 90 + leap
  | 4 => 120 + leap
  | 5 => 151 + leap
  | 6 => 181 + leap
  | 7 => 212 + leap
  | 8 => 243 + leap
  | 9 => 273 + leap
  | 10 => 304 + leap
  | _ => 334 + leap
  end.

Definition MonthFromDay (day : Z) : Z :=
  let y := YearFromDay day in
  let leap := InLeapYear y in
  let d := day - DayFromYear y in
  if d <? 31 then 0
  else if d <? 59 + leap then 1
  else if d <? 90 + leap then 2
  else if d <? 120 + leap then 3
  else if d <? 151 + leap then 4
  else if d <? 181 + leap then 5
  else if d <? 212 + leap then 6
  else if d <? 243 + leap then 7
  else if d <? 273 + leap then 8
  else if d <? 304 + leap then 9
  else if d <? 334 + leap then 10
  else 11.

Definition DateFromDay (day : Z) : Z :=
  let y := YearFromDay day in
  day - DayFromYear y - MonthStart (InLeapYear y) (MonthFromDay day) + 1.

(** [MakeDay(year, month, date)]: the month index carries into the year,
    and a day past the end of the month carries into the following
    months. *)
Definition MakeDay (year month date : Z) : Z :=
  let ym := year + month / 12 in
  let mn := month mod 12 in
  DayFromYear ym + MonthStart (InLeapYear ym) mn + date - 1.

(** [new Date(y, monthIndex, d)]; a year from 0 to 99 means 1900 + y. *)
Definition newDate (y monthIndex d : Z) : Z :=
  MakeDay (if (0 <=? y) && (y <=? 99) then 1900 + y else y) monthIndex d.

Definition getFullYear (date : Z) : Z := YearFromDay date.
Definition getMonth (date : Z) : Z := MonthFromDay date.
Definition getDate (date : Z) : Z := DateFromDay date.

(** [Array.prototype.sort(cmp)] is stable; [cmp a b] is the sign of the
    comparator. *)
Section Sort.
Context {A : Type} (cmp : A -> A -> comparison).

Fixpoint sort_insert (x : A) (l : list A) : list A :=
  match l with
  | [] => [x]
  | y :: l' =>
      match cmp x y with
      | Lt => x :: y :: l'
      | _ => y :: sort_insert x l'
      end
  end.

Definition sort (l : list A) : list A :=
  fold_left (fun acc x => sort_insert x acc) l [].
End Sort.

End JS.

(** ** Data model ([@shared/accounting], as the store uses it) *)

Inductive TransType := revenue | expense.

Record Transaction := mkTransaction {
  tx_id : string;
  tx_date : string;
  tx_type : TransType;
  tx_description : string;
  tx_amount : Z;
  tx_approved : bool;
  tx_createdBy : option string;
  tx_createdAt : option string
}.

Record TransactionCreateInput := mkTransactionCreateInput {
  tci_date : string;
  tci_type : TransType;
  tci_description : string;
  tci_amount : Z;
  tci_approved : bool;
  tci_createdBy : option string
}.

Record InventoryItem := mkInventoryItem {
  item_id : string;
  item_name : string;
  item_quantity : Z;
  item_unit : string;
  item_min : Z;
  item_updatedAt : string
}.

Record InventoryItemCreateInput := mkInventoryItemCreateInput {
  iic_name : string;
  iic_quantity : Z;
  iic_unit : string;
  iic_min : Z;
  iic_updatedAt : string
}.

Inductive MovementKind := kind_in | kind_out.

Record Movement := mkMovement {
  mv_id : string;
  mv_itemId : string;
  mv_kind : MovementKind;
  mv_qty : Z;
  mv_unitPrice : Z;
  mv_total : Z;
  mv_party : string;
  mv_date : string
}.

(** [InventoryReceiptInput] and [InventoryIssueInput]: [mi_party] is the
    [supplier] of a receipt and the [project] of an issue. *)
Record InventoryMovementInput := mkInventoryMovementInput {
  mi_itemId : string;
  mi_qty : Z;
  mi_unitPrice : Z;
  mi_party : string;
  mi_date : string;
  mi_approved : bool;
  mi_createdBy : option string
}.

Record InventoryMovementResult := mkInventoryMovementResult {
  imr_item : InventoryItem;
  imr_movement : Movement;
  imr_transaction : Transaction
}.

Record Project := mkProject {
  proj_id : string;
  proj_name : string;
  proj_location : string;
  proj_floors : Z;
  proj_units : Z;
  proj_createdAt : string
}.

Record ProjectCreateInput := mkProjectCreateInput {
  pci_name : string;
  pci_location : string;
  pci_floors : Z;
  pci_units : Z;
  pci_createdAt : string
}.

Inductive ProjectCostType :=
  cost_construction | cost_operation | cost_expense | cost_other.

Record ProjectCost := mkProjectCost {
  cost_id : string;
  cost_projectId : string;
  cost_type : ProjectCostType;
  cost_customTypeLabel : option string;
  cost_amount : Z;
  cost_date : string;
  cost_note : string
}.

Record ProjectCostCreateInput := mkProjectCostCreateInput {
  pcc_projectId : string;
  pcc_projectName : string;
  pcc_type : ProjectCostType;
  pcc_customTypeLabel : option string;
  pcc_amount : Z;
  pcc_date : string;
  pcc_note : string;
  pcc_approved : bool;
  pcc_createdBy : option string
}.

Record ProjectSale := mkProjectSale {
  sale_id : string;
  sale_projectId : string;
  sale_unitNo : string;
  sale_buyer : string;
  sale_price : Z;
  sale_date : string;
  sale_terms : option string;
  sale_area : option string;
  sale_paymentMethod : option string
}.

Record ProjectSaleCreateInput := mkProjectSaleCreateInput {
  psc_projectId : string;
  psc_projectName : string;
  psc_unitNo : string;
  psc_buyer : string;
  psc_price : Z;
  psc_date : string;
  psc_terms : option string;
  psc_area : option string;
  psc_paymentMethod : option string;
  psc_downPayment : option Z;
  psc_monthlyAmount : option Z;
  psc_months : option Z;
  psc_firstDueDate : option string;
  psc_approved : bool;
  psc_createdBy : option string
}.

Record Installment := mkInstallment {
  inst_id : string;
  inst_projectId : string;
  inst_saleId : string;
  inst_unitNo : string;
  inst_buyer : string;
  inst_amount : Z;
  inst_dueDate : string;
  inst_paid : bool;
  inst_paidAt : option string
}.

(** A row of [installment_reminders]. *)
Record InstallmentReminder := mkInstallmentReminder {
  rem_id : string;
  rem_installmentId : string;
  rem_sentAt : string;
  rem_note : option string
}.

Record ProjectSaleCreateResult := mkProjectSaleCreateResult {
  psr_sale : ProjectSale;
  psr_transaction : Transaction;
  psr_installments : option (list Installment)
}.

Record ProjectCostCreateResult := mkProjectCostCreateResult {
  pcr_cost : ProjectCost;
  pcr_transaction : Transaction
}.

(** ** The two stores *)

(** [fallbackStore]: the module-level maps. *)
Record FallbackStore := mkFallbackStore {
  transactions : gmap string Transaction;
  items : gmap string InventoryItem;
  movements : gmap string Movement;
  projects : gmap string Project;
  costs : gmap string ProjectCost;
  sales : gmap string ProjectSale;
  installments : gmap string Installment
}.

(** The relational backend: one map per table of [ensureSqliteSchema] /
    [ensureMysqlSchema], keyed by the primary key [id].  Rows are kept in
    the shape the [map...Row] functions give them.  Of [users] only the
    keys matter (they are the target of [transactions.created_by]). *)
Record Database := mkDatabase {
  db_users : gset string;
  db_transactions : gmap string Transaction;
  db_inventory_items : gmap string InventoryItem;
  db_inventory_movements : gmap string Movement;
  db_projects : gmap string Project;
  db_project_costs : gmap string ProjectCost;
  db_project_sales : gmap string ProjectSale;
  db_project_installments : gmap string Installment;
  db_installment_reminders : gmap string InstallmentReminder
}.

(** The process state.  [backend] is what [getMysqlPool()] and
    [getInitializedMysqlPool()] give: [None] when no pool can be had (the
    store then works on [fallbackStore] alone), [Some d] for a pool over a
    backend whose tables hold [d].  [uuids] is the number of identifiers
    drawn so far and [now] the reading of the clock. *)
Record World := mkWorld {
  backend : option Database;
  fallbackStore : FallbackStore;
  uuids : N;
  now : string
}.

Inductive result (A : Type) : Type :=
| Ok (a : A)
| Err (message : string).
Arguments Ok {A} a.
Arguments Err {A} message.

Definition with_backend (w : World) (b : option Database) : World :=
  mkWorld b (fallbackStore w) (uuids w) (now w).

Definition with_fallback (w : World) (f : FallbackStore) : World :=
  mkWorld (backend w) f (uuids w) (now w).

Definition set_transactions (f : FallbackStore) m : FallbackStore :=
  mkFallbackStore m (items f) (movements f) (projects f) (costs f) (sales f)
    (installments f).
Definition set_items (f : FallbackStore) m : FallbackStore :=
  mkFallbackStore (transactions f) m (movements f) (projects f) (costs f)
    (sales f) (installments f).
Definition set_movements (f : FallbackStore) m : FallbackStore :=
  mkFallbackStore (transactions f) (items f) m (projects f) (costs f)
    (sales f) (installments f).
Definition set_projects (f : FallbackStore) m : FallbackStore :=
  mkFallbackStore (transactions f) (items f) (movements f) m (costs f)
    (sales f) (installments f).
Definition set_costs (f : FallbackStore) m : FallbackStore :=
  mkFallbackStore (transactions f) (items f) (movements f) (projects f) m
    (sales f) (installments f).
Definition set_sales (f : FallbackStore) m : FallbackStore :=
  mkFallbackStore (transactions f) (items f) (movements f) (projects f)
    (costs f) m (installments f).
Definition set_installments (f : FallbackStore) m : FallbackStore :=
  mkFallbackStore (transactions f) (items f) (movements f) (projects f)
    (costs f) (sales f) m.

Definition set_db_transactions (d : Database) m : Database :=
  mkDatabase (db_users d) m (db_inventory_items d) (db_inventory_movements d)
    (db_projects d) (db_project_costs d) (db_project_sales d)
    (db_project_installments d) (db_installment_reminders d).
Definition set_db_inventory_items (d : Database) m : Database :=
  mkDatabase (db_users d) (db_transactions d) m (db_inventory_movements d)
    (db_projects d) (db_project_costs d) (db_project_sales d)
    (db_project_installments d) (db_installment_reminders d).
Definition set_db_inventory_movements (d : Database) m : Database :=
  mkDatabase (db_users d) (db_transactions d) (db_inventory_items d) m
    (db_projects d) (db_project_costs d) (db_project_sales d)
    (db_project_installments d) (db_installment_reminders d).
Definition set_db_projects (d : Database) m : Database :=
  mkDatabase (db_users d) (db_transactions d) (db_inventory_items d)
    (db_inventory_movements d) m (db_project_costs d) (db_project_sales d)
    (db_project_installments d) (db_installment_reminders d).
Definition set_db_project_costs (d : Database) m : Database :=
  mkDatabase (db_users d) (db_transactions d) (db_inventory_items d)
    (db_inventory_movements d) (db_projects d) m (db_project_sales d)
    (db_project_installments d) (db_installment_reminders d).
Definition set_db_project_sales (d : Database) m : Database :=
  mkDatabase (db_users d) (db_transactions d) (db_inventory_items d)
    (db_inventory_movements d) (db_projects d) (db_project_costs d) m
    (db_project_installments d) (db_installment_reminders d).
Definition set_db_project_installments (d : Database) m : Database :=
  mkDatabase (db_users d) (db_transactions d) (db_inventory_items d)
    (db_inventory_movements d) (db_projects d) (db_project_costs d)
    (db_project_sales d) m (db_installment_reminders d).
Definition set_db_installment_reminders (d : Database) m : Database :=
  mkDatabase (db_users d) (db_transactions d) (db_inventory_items d)
    (db_inventory_movements d) (db_projects d) (db_project_costs d)
    (db_project_sales d) (db_project_installments d) m.

(** [crypto.randomUUID()] *)
Definition uuid (n : N) : string := "uuid-" +:+ pretty n.

Definition randomUUID (w : World) : string * World :=
  (uuid (uuids w), mkWorld (backend w) (fallbackStore w) (N.succ (uuids w)) (now w)).

(** ** Operations as state transformers that may throw *)

Definition M (A : Type) : Type := World -> World * result A.

Definition ret {A} (a : A) : M A := fun w => (w, Ok a).
Definition throw {A} (message : string) : M A := fun w => (w, Err message).
Definition bind {A B} (m : M A) (k : A -> M B) : M B :=
  fun w =>
    match m w with
    | (w', Ok a) => k a w'
    | (w', Err e) => (w', Err e)
    end.

Global Instance M_ret : MRet M := @ret.
Global Instance M_bind : MBind M := fun A B k m => bind m k.

Definition draw : M string := fun w => let (id, w') := randomUUID w in (w', Ok id).
Definition clock : M string := fun w => (w, Ok (now w)).
Definition getFallback : M FallbackStore := fun w => (w, Ok (fallbackStore w)).
(** A write to the maps of [fallbackStore]. *)
Definition updateFallback (g : FallbackStore -> FallbackStore) : M unit :=
  fun w => (with_fallback w (g (fallbackStore w)), Ok tt).

(** [try { await conn.beginTransaction(); body; await conn.commit() }
     catch (error) { await conn.rollback(); throw error }]:
    when the body throws, the tables go back to what they held. *)
Definition inTransaction {A} (body : M A) : M A :=
  fun w =>
    match body w with
    | (w', Ok a) => (w', Ok a)
    | (w', Err e) => (with_backend w' (backend w), Err e)
    end.

(** [try { body } catch (err) { console.error(...) }] *)
Definition swallow (body : M unit) : M unit :=
  fun w =>
    match body w with
    | (w', Ok _) => (w', Ok tt)
    | (w', Err _) => (w', Ok tt)
    end.

(** ** SQL statements of the store, over the tables *)

Module Sql.

Definition statement : Type := Database -> result Database.

(** A write statement sent through the pool or a connection. *)
Definition run (s : statement) : M unit :=
  fun w =>
    match backend w with
    | None => (w, Err "MySQL not configured")
    | Some d =>
        match s d with
        | Ok d' => (with_backend w (Some d'), Ok tt)
        | Err e => (w, Err e)
        end
    end.

(** A [SELECT] sent through the pool or a connection. *)
Definition select {A} (q : Database -> A) : M A :=
  fun w =>
    match backend w with
    | None => (w, Err "MySQL not configured")
    | Some d => (w, Ok (q d))
    end.

Definition duplicate_key : string := "Duplicate entry for key PRIMARY".
Definition foreign_key : string := "FOREIGN KEY constraint failed".

Definition fresh_key {V} (id : string) (table : gmap string V) : bool :=
  bool_decide (table !! id = None).

Definition has_key {V} (id : string) (table : gmap string V) : bool :=
  bool_decide (is_Some (table !! id)).

(** [INSERT INTO transactions ...]; [created_by] references [users(id)]. *)
Definition insert_transaction (t : Transaction) : statement := fun d =>
  if negb (fresh_key (tx_id t) (db_transactions d)) then Err duplicate_key
  else if match tx_createdBy t with
          | Some u => bool_decide (u ∈ db_users d)
          | None => true
          end
  then Ok (set_db_transactions d (<[tx_id t := t]> (db_transactions d)))
  else Err foreign_key.

Definition insert_inventory_item (i : InventoryItem) : statement := fun d =>
  if negb (fresh_key (item_id i) (db_inventory_items d)) then Err duplicate_key
  else Ok (set_db_inventory_items d (<[item_id i := i]> (db_inventory_items d))).

(** [item_id] references [inventory_items(id)]. *)
Definition insert_inventory_movement (m : Movement) : statement := fun d =>
  if negb (fresh_key (mv_id m) (db_inventory_movements d)) then Err duplicate_key
  else if has_key (mv_itemId m) (db_inventory_items d)
  then Ok (set_db_inventory_movements d (<[mv_id m := m]> (db_inventory_movements d)))
  else Err foreign_key.

Definition insert_project (p : Project) : statement := fun d =>
  if negb (fresh_key (proj_id p) (db_projects d)) then Err duplicate_key
  else Ok (set_db_projects d (<[proj_id p := p]> (db_projects d))).

(** [project_id] references [projects(id)]. *)
Definition insert_project_cost (c : ProjectCost) : statement := fun d =>
  if negb (fresh_key (cost_id c) (db_project_costs d)) then Err duplicate_key
  else if has_key (cost_projectId c) (db_projects d)
  then Ok (set_db_project_costs d (<[cost_id c := c]> (db_project_costs d)))
  else Err foreign_key.

Definition insert_project_sale (s : ProjectSale) : statement := fun d =>
  if negb (fresh_key (sale_id s) (db_project_sales d)) then Err duplicate_key
  else if has_key (sale_projectId s) (db_projects d)
  then Ok (set_db_project_sales d (<[sale_id s := s]> (db_project_sales d)))
  else Err foreign_key.

(** [project_id] references [projects(id)] and [sale_id] references
    [project_sales(id)]. *)
Definition insert_project_installment (i : Installment) : statement := fun d =>
  if negb (fresh_key (inst_id i) (db_project_installments d)) then Err duplicate_key
  else if has_key (inst_projectId i) (db_projects d)
          && has_key (inst_saleId i) (db_project_sales d)
  then Ok (set_db_project_installments d
             (<[inst_id i := i]> (db_project_installments d)))
  else Err foreign_key.

(** [installment_id] references [project_installments(id)]. *)
Definition insert_installment_reminder (r : InstallmentReminder) : statement :=
  fun d =>
  if negb (fresh_key (rem_id r) (db_installment_reminders d)) then Err duplicate_key
  else if has_key (rem_installmentId r) (db_project_installments d)
  then Ok (set_db_installment_reminders d
             (<[rem_id r := r]> (db_installment_reminders d)))
  else Err foreign_key.

(** [UPDATE transactions SET approved = 1 WHERE id = ?] *)
Definition approve_transaction (id : string) : statement := fun d =>
  Ok (set_db_transactions d
        (alter (fun t => mkTransaction (tx_id t) (tx_date t) (tx_type t)
                           (tx_description t) (tx_amount t) true
                           (tx_createdBy t) (tx_createdAt t))
           id (db_transactions d))).

(** [DELETE FROM transactions WHERE id = ?] *)
Definition delete_transaction (id : string) : statement := fun d =>
  Ok (set_db_transactions d (delete id (db_transactions d))).

(** [UPDATE inventory_items SET quantity = quantity + ?, updated_at = ?
     WHERE id = ?]; [quantity] is a [REAL] column. *)
Definition add_item_quantity (id : string) (qty : Z) (date : string) : statement :=
  fun d =>
  Ok (set_db_inventory_items d
        (alter (fun i => mkInventoryItem (item_id i) (item_name i)
                           (JS.plus (item_quantity i) qty) (item_unit i) (item_min i)
                           date)
           id (db_inventory_items d))).

(** [UPDATE inventory_items SET quantity = ?, updated_at = ? WHERE id = ?] *)
Definition set_item_quantity (id : string) (qty : Z) (date : string) : statement :=
  fun d =>
  Ok (set_db_inventory_items d
        (alter (fun i => mkInventoryItem (item_id i) (item_name i)
                           qty (item_unit i) (item_min i) date)
           id (db_inventory_items d))).

(** Rows that go when installments go ([ON DELETE CASCADE] of
    [installment_reminders.installment_id]). *)
Definition cascade_installments (gone : gset string) (d : Database) : Database :=
  set_db_installment_reminders d
    (filter (fun kv : string * InstallmentReminder => rem_installmentId kv.2 ∉ gone)
       (db_installment_reminders d)).

(** Deleting the installments that satisfy [P], with their reminders. *)
Definition delete_installments_where (P : Installment -> Prop)
    `{!forall i, Decision (P i)} (d : Database) : Database :=
  let gone := dom (filter (fun kv : string * Installment => P kv.2)
                     (db_project_installments d)) in
  cascade_installments gone
    (set_db_project_installments d
       (filter (fun kv : string * Installment => ~ P kv.2)
          (db_project_installments d))).

(** Deleting the sales that satisfy [P]; [project_installments.sale_id]
    cascades. *)
Definition delete_sales_where (P : ProjectSale -> Prop)
    `{!forall s, Decision (P s)} (d : Database) : Database :=
  let gone := dom (filter (fun kv : string * ProjectSale => P kv.2)
                     (db_project_sales d)) in
  delete_installments_where (fun i => inst_saleId i ∈ gone)
    (set_db_project_sales d
       (filter (fun kv : string * ProjectSale => ~ P kv.2) (db_project_sales d))).

(** [DELETE FROM project_sales WHERE project_id = ?] *)
Definition delete_project_sales (projectId : string) : statement := fun d =>
  Ok (delete_sales_where (fun s => sale_projectId s = projectId) d).

(** [DELETE FROM project_costs WHERE project_id = ?] *)
Definition delete_project_costs (projectId : string) : statement := fun d =>
  Ok (set_db_project_costs d
        (filter (fun kv : string * ProjectCost => cost_projectId kv.2 <> projectId)
           (db_project_costs d))).

(** [DELETE FROM projects WHERE id = ?]; the [project_id] columns of
    [project_costs], [project_sales] and [project_installments] cascade. *)
Definition delete_project (id : string) : statement := fun d =>
  match db_projects d !! id with
  | None => Ok d
  | Some _ =>
      let d1 := set_db_projects d (delete id (db_projects d)) in
      let d2 := set_db_project_costs d1
                  (filter (fun kv : string * ProjectCost => cost_projectId kv.2 <> id)
                     (db_project_costs d1)) in
      let d3 := delete_sales_where (fun s => sale_projectId s = id) d2 in
      Ok (delete_installments_where (fun i => inst_projectId i = id) d3)
  end.

(** [DELETE FROM inventory_items WHERE id = ?];
    [inventory_movements.item_id] cascades. *)
Definition delete_inventory_item (id : string) : statement := fun d =>
  match db_inventory_items d !! id with
  | None => Ok d
  | Some _ =>
      Ok (set_db_inventory_movements
            (set_db_inventory_items d (delete id (db_inventory_items d)))
            (filter (fun kv : string * Movement => mv_itemId kv.2 <> id)
               (db_inventory_movements d)))
  end.

End Sql.

(** ** [server/store/accounting.ts] *)

(** [getMysqlPool()] / [await getInitializedMysqlPool()], as a truth value. *)
Definition getMysqlPool : M bool :=
  fun w => (w, Ok (bool_decide (is_Some (backend w)))).

(** [for (const x of l) { ... }], collecting what each round gives. *)
Fixpoint forM {A B} (f : A -> M B) (l : list A) : M (list B) :=
  match l with
  | [] => ret []
  | x :: l' => y ← f x; ys ← forM f l'; ret (y :: ys)
  end.

Definition values {V} (m : gmap string V) : list V := (map_to_list m).*2.

(** [for (const v of [...m.values()]) if (P v) m.delete(key v)] *)
Definition delete_where {V} (P : V -> bool) (key : V -> string)
    (m : gmap string V) : gmap string V :=
  foldr (fun v acc => if P v then delete (key v) acc else acc) m (values m).

Definition formatDate (value : string) : string :=
  if (10 <=? String.length value)%nat then String.substring 0 10 value else value.

Definition mapTransactionRow (row : Transaction) : Transaction :=
  mkTransaction (tx_id row) (formatDate (tx_date row)) (tx_type row)
    (tx_description row) (tx_amount row) (tx_approved row) (tx_createdBy row)
    (tx_createdAt row).

Definition mapInventoryItemRow (row : InventoryItem) : InventoryItem := row.

Definition mapMovementRow (row : Movement) : Movement :=
  mkMovement (mv_id row) (mv_itemId row) (mv_kind row) (mv_qty row)
    (mv_unitPrice row) (mv_total row) (mv_party row) (formatDate (mv_date row)).

Definition mapProjectRow (row : Project) : Project := row.

Definition mapProjectCostRow (row : ProjectCost) : ProjectCost :=
  mkProjectCost (cost_id row) (cost_projectId row) (cost_type row)
    (cost_customTypeLabel row) (cost_amount row) (formatDate (cost_date row))
    (cost_note row).

Definition mapProjectSaleRow (row : ProjectSale) : ProjectSale :=
  mkProjectSale (sale_id row) (sale_projectId row) (sale_unitNo row)
    (sale_buyer row) (sale_price row) (formatDate (sale_date row))
    (sale_terms row) (sale_area row) (sale_paymentMethod row).

(** The object the installment queries build from a row. *)
Definition mapInstallmentRow (r : Installment) : Installment :=
  mkInstallment (inst_id r) (inst_projectId r) (inst_saleId r) (inst_unitNo r)
    (inst_buyer r) (inst_amount r) (formatDate (inst_dueDate r)) (inst_paid r)
    (inst_paidAt r).

(** [rows[0]] handed to a [map...Row]: reading a field of [undefined]
    throws. *)
Definition first_row {A} (row : option A) : M A :=
  match row with
  | Some r => ret r
  | None => throw "TypeError: Cannot read properties of undefined"
  end.

(** [a === b ? 0 : a < b ? -1 : 1] *)
Definition compareAsc (a b : string) : comparison :=
  if String.eqb a b then Eq else if String.ltb a b then Lt else Gt.

(** [a === b ? 0 : a > b ? -1 : 1] *)
Definition compareDesc (a b : string) : comparison :=
  if String.eqb a b then Eq else if String.ltb b a then Lt else Gt.

Definition byDueDate (a b : Installment) : comparison :=
  compareAsc (inst_dueDate a) (inst_dueDate b).

Definition addMonthsISO (start : string) (months : Z) : string :=
  let parts := map JS.Number (JS.split_dash start) in
  let y := mjoin (parts !! 0%nat) in
  let m := mjoin (parts !! 1%nat) in
  let d := match mjoin (parts !! 2%nat) with
           | Some d => if d =? 0 then 1 else d
           | None => 1
           end in
  match y, m with
  | Some y, Some m =>
      let date := JS.newDate y (m - 1 + months) d in
      let yyyy := JS.getFullYear date in
      let mm := JS.padStart2 (JS.String_of (JS.getMonth date + 1)) in
      let dd := JS.padStart2 (JS.String_of
                  (Z.min d (JS.getDate (JS.newDate yyyy (JS.getMonth date + 1) 0)))) in
      JS.String_of yyyy +:+ "-" +:+ mm +:+ "-" +:+ dd
  | _, _ => "NaN-NaN-NaN"
  end.

Record InstallmentParams := mkInstallmentParams {
  ip_projectId : string;
  ip_saleId : string;
  ip_unitNo : string;
  ip_buyer : string;
  ip_monthlyAmount : Z;
  ip_months : Z;
  ip_firstDueDate : string
}.

(** One round of the loop of [createInstallmentsForSale].  The insert is
    sent through the pool and not awaited; it fails, and is only logged,
    when the row violates a key of [project_installments]. *)
Definition createInstallment (params : InstallmentParams) (pool : bool) (i : Z)
    : M Installment :=
  id ← draw;
  let dueDate := addMonthsISO (ip_firstDueDate params) i in
  let inst := mkInstallment id (ip_projectId params) (ip_saleId params)
                (ip_unitNo params) (ip_buyer params) (ip_monthlyAmount params)
                dueDate false None in
  updateFallback (fun f => set_installments f (<[id := inst]> (installments f)));;
  (if pool
   then swallow (Sql.run (Sql.insert_project_installment inst))
   else ret tt);;
  ret inst.

Definition createInstallmentsForSale (params : InstallmentParams)
    : M (list Installment) :=
  pool ← getMysqlPool;
  list ← forM (createInstallment params pool) (seqZ 0 (ip_months params));
  ret (JS.sort byDueDate list).

Definition getProjectInstallments (projectId : string) : M (list Installment) :=
  f ← getFallback;
  ret (JS.sort byDueDate
         (filter (fun i => inst_projectId i = projectId) (values (installments f)))).

(** [!i.paid && i.dueDate <= date], and [paid = 0 AND due_date <= ?] *)
Definition isDue (date : string) (i : Installment) : Prop :=
  inst_paid i = false /\ String.leb (inst_dueDate i) date = true.

Global Instance isDue_dec date i : Decision (isDue date i).
Proof. unfold isDue. apply _. Defined.

Definition dueFallback (date : string) : M (list Installment) :=
  f ← getFallback;
  ret (JS.sort byDueDate (filter (isDue date) (values (installments f)))).

(** [asOfDate ?? new Date().toISOString().slice(0, 10)] *)
Definition asOf (asOfDate : option string) : M string :=
  match asOfDate with
  | Some date => ret date
  | None => t ← clock; ret (String.substring 0 10 t)
  end.

(** The query over the tables is taken to answer, so the [catch] that
    falls back on the in-memory map is never entered. *)
Definition getDueInstallments (asOfDate : option string) : M (list Installment) :=
  date ← asOf asOfDate;
  pool ← getMysqlPool;
  if negb pool then dueFallback date
  else
    rows ← Sql.select (fun d =>
      JS.sort byDueDate (filter (isDue date) (values (db_project_installments d))));
    ret (map mapInstallmentRow rows).

(** Without a pool the reminder is only written to the console. *)
Definition createInstallmentReminder (installmentId : string) (note : option string)
    : M unit :=
  pool ← getMysqlPool;
  if negb pool then ret tt
  else
    swallow (id ← draw;
             sentAt ← clock;
             Sql.run (Sql.insert_installment_reminder
                        (mkInstallmentReminder id installmentId sentAt note))).

Definition insertTransactionDb (input : TransactionCreateInput) : M Transaction :=
  id ← draw;
  createdAt ← clock;
  Sql.run (Sql.insert_transaction
             (mkTransaction id (tci_date input) (tci_type input)
                (tci_description input) (tci_amount input) (tci_approved input)
                (tci_createdBy input) (Some createdAt)));;
  row ← Sql.select (fun d => db_transactions d !! id);
  r ← first_row row;
  ret (mapTransactionRow r).

Definition createTransactionFallback (input : TransactionCreateInput) : M Transaction :=
  id ← draw;
  createdAt ← clock;
  let transaction := mkTransaction id (tci_date input) (tci_type input)
                       (tci_description input) (tci_amount input)
                       (tci_approved input) (tci_createdBy input) (Some createdAt) in
  updateFallback (fun f =>
    set_transactions f (<[tx_id transaction := transaction]> (transactions f)));;
  ret transaction.

Definition createTransaction (input : TransactionCreateInput) : M Transaction :=
  pool ← getMysqlPool;
  if negb pool then createTransactionFallback input
  else insertTransactionDb input.

Definition approveTransaction (id : string) : M Transaction :=
  pool ← getMysqlPool;
  if negb pool then
    f ← getFallback;
    match transactions f !! id with
    | None => throw "Transaction not found"
    | Some existing =>
        let updated := mkTransaction (tx_id existing) (tx_date existing)
                         (tx_type existing) (tx_description existing)
                         (tx_amount existing) true (tx_createdBy existing)
                         (tx_createdAt existing) in
        updateFallback (fun f =>
          set_transactions f (<[id := updated]> (transactions f)));;
        ret updated
    end
  else
    Sql.run (Sql.approve_transaction id);;
    row ← Sql.select (fun d => db_transactions d !! id);
    match row with
    | None => throw "Transaction not found"
    | Some r => ret (mapTransactionRow r)
    end.

Definition deleteTransaction (id : string) : M unit :=
  pool ← getMysqlPool;
  if negb pool then
    f ← getFallback;
    match transactions f !! id with
    | None => throw "Transaction not found"
    | Some _ =>
        updateFallback (fun f => set_transactions f (delete id (transactions f)))
    end
  else Sql.run (Sql.delete_transaction id).

Definition createInventoryItem (input : InventoryItemCreateInput) : M InventoryItem :=
  pool ← getMysqlPool;
  if negb pool then
    id ← draw;
    let item := mkInventoryItem id (iic_name input) (iic_quantity input)
                  (iic_unit input) (iic_min input) (iic_updatedAt input) in
    updateFallback (fun f => set_items f (<[item_id item := item]> (items f)));;
    ret item
  else
    id ← draw;
    Sql.run (Sql.insert_inventory_item
               (mkInventoryItem id (iic_name input) (iic_quantity input)
                  (iic_unit input) (iic_min input) (iic_updatedAt input)));;
    row ← Sql.select (fun d => db_inventory_items d !! id);
    r ← first_row row;
    ret (mapInventoryItemRow r).

Definition deleteInventoryItem (id : string) : M unit :=
  pool ← getMysqlPool;
  if negb pool then
    updateFallback (fun f => set_items f (delete id (items f)));;
    updateFallback (fun f =>
      set_movements f
        (delete_where (fun m => bool_decide (mv_itemId m = id)) mv_id (movements f)))
  else Sql.run (Sql.delete_inventory_item id).

Definition getItemRowForUpdate (id : string) : M InventoryItem :=
  row ← Sql.select (fun d => db_inventory_items d !! id);
  match row with
  | None => throw "Inventory item not found"
  | Some r => ret r
  end.

Definition recordInventoryReceipt (input : InventoryMovementInput)
    : M InventoryMovementResult :=
  pool ← getMysqlPool;
  if negb pool then
    f ← getFallback;
    match items f !! mi_itemId input with
    | None => throw "Inventory item not found"
    | Some item =>
        let updated := mkInventoryItem (item_id item) (item_name item)
                         (JS.plus (item_quantity item) (mi_qty input)) (item_unit item)
                         (item_min item) (mi_date input) in
        updateFallback (fun f =>
          set_items f (<[item_id updated := updated]> (items f)));;
        id ← draw;
        let movement := mkMovement id (mi_itemId input) kind_in (mi_qty input)
                          (mi_unitPrice input)
                          (JS.times (mi_qty input) (mi_unitPrice input))
                          (mi_party input) (mi_date input) in
        updateFallback (fun f =>
          set_movements f (<[mv_id movement := movement]> (movements f)));;
        transaction ← createTransactionFallback
          (mkTransactionCreateInput (mi_date input) expense
             ("شراء " +:+ item_name item +:+ " من " +:+ mi_party input +:+ " ("
              +:+ JS.String_of (mi_qty input) +:+ " " +:+ item_unit item +:+ " × "
              +:+ JS.String_of (mi_unitPrice input) +:+ ")")
             (mv_total movement) (mi_approved input) (mi_createdBy input));
        ret (mkInventoryMovementResult updated movement transaction)
    end
  else
    inTransaction (
      base ← getItemRowForUpdate (mi_itemId input);
      let total := JS.times (mi_qty input) (mi_unitPrice input) in
      Sql.run (Sql.add_item_quantity (mi_itemId input) (mi_qty input) (mi_date input));;
      updated ← getItemRowForUpdate (mi_itemId input);
      movementId ← draw;
      Sql.run (Sql.insert_inventory_movement
                 (mkMovement movementId (mi_itemId input) kind_in (mi_qty input)
                    (mi_unitPrice input) total (mi_party input) (mi_date input)));;
      movementRow ← Sql.select (fun d => db_inventory_movements d !! movementId);
      transaction ← insertTransactionDb
        (mkTransactionCreateInput (mi_date input) expense
           ("شراء " +:+ item_name base +:+ " من " +:+ mi_party input +:+ " ("
            +:+ JS.String_of (mi_qty input) +:+ " " +:+ item_unit base +:+ " × "
            +:+ JS.String_of (mi_unitPrice input) +:+ ")")
           total (mi_approved input) (mi_createdBy input));
      movement ← first_row movementRow;
      ret (mkInventoryMovementResult (mapInventoryItemRow updated)
             (mapMovementRow movement) transaction)).

Definition recordInventoryIssue (input : InventoryMovementInput)
    : M InventoryMovementResult :=
  pool ← getMysqlPool;
  if negb pool then
    f ← getFallback;
    match items f !! mi_itemId input with
    | None => throw "Inventory item not found"
    | Some item =>
        let nextQuantity := Z.max 0 (JS.minus (item_quantity item) (mi_qty input)) in
        let updated := mkInventoryItem (item_id item) (item_name item)
                         nextQuantity (item_unit item) (item_min item)
                         (mi_date input) in
        updateFallback (fun f =>
          set_items f (<[item_id updated := updated]> (items f)));;
        id ← draw;
        let movement := mkMovement id (mi_itemId input) kind_out (mi_qty input)
                          (mi_unitPrice input)
                          (JS.times (mi_qty input) (mi_unitPrice input))
                          (mi_party input) (mi_date input) in
        updateFallback (fun f =>
          set_movements f (<[mv_id movement := movement]> (movements f)));;
        transaction ← createTransactionFallback
          (mkTransactionCreateInput (mi_date input) expense
             ("صرف " +:+ item_name item +:+ " لمشروع " +:+ mi_party input +:+ " ("
              +:+ JS.String_of (mi_qty input) +:+ " " +:+ item_unit item +:+ " × "
              +:+ JS.String_of (mi_unitPrice input) +:+ ")")
             (mv_total movement) (mi_approved input) (mi_createdBy input));
        ret (mkInventoryMovementResult updated movement transaction)
    end
  else
    inTransaction (
      base ← getItemRowForUpdate (mi_itemId input);
      let total := JS.times (mi_qty input) (mi_unitPrice input) in
      let currentQty := item_quantity base in
      let nextQuantity := Z.max 0 (JS.minus currentQty (mi_qty input)) in
      Sql.run (Sql.set_item_quantity (mi_itemId input) nextQuantity (mi_date input));;
      updated ← getItemRowForUpdate (mi_itemId input);
      movementId ← draw;
      Sql.run (Sql.insert_inventory_movement
                 (mkMovement movementId (mi_itemId input) kind_out (mi_qty input)
                    (mi_unitPrice input) total (mi_party input) (mi_date input)));;
      movementRow ← Sql.select (fun d => db_inventory_movements d !! movementId);
      transaction ← insertTransactionDb
        (mkTransactionCreateInput (mi_date input) expense
           ("صرف " +:+ item_name base +:+ " لمشروع " +:+ mi_party input +:+ " ("
            +:+ JS.String_of (mi_qty input) +:+ " " +:+ item_unit base +:+ " × "
            +:+ JS.String_of (mi_unitPrice input) +:+ ")")
           total (mi_approved input) (mi_createdBy input));
      movement ← first_row movementRow;
      ret (mkInventoryMovementResult (mapInventoryItemRow updated)
             (mapMovementRow movement) transaction)).

Definition createProject (input : ProjectCreateInput) : M Project :=
  pool ← getMysqlPool;
  if negb pool then
    id ← draw;
    let project := mkProject id (pci_name input) (pci_location input)
                     (pci_floors input) (pci_units input) (pci_createdAt input) in
    updateFallback (fun f =>
      set_projects f (<[proj_id project := project]> (projects f)));;
    ret project
  else
    id ← draw;
    Sql.run (Sql.insert_project
               (mkProject id (pci_name input) (pci_location input)
                  (pci_floors input) (pci_units input) (pci_createdAt input)));;
    row ← Sql.select (fun d => db_projects d !! id);
    r ← first_row row;
    ret (mapProjectRow r).

Definition deleteProject (id : string) : M unit :=
  pool ← getMysqlPool;
  if negb pool then
    f ← getFallback;
    match projects f !! id with
    | None => throw "Project not found"
    | Some _ =>
        updateFallback (fun f => set_projects f (delete id (projects f)));;
        updateFallback (fun f =>
          set_costs f
            (delete_where (fun c => bool_decide (cost_projectId c = id)) cost_id
               (costs f)));;
        updateFallback (fun f =>
          set_sales f
            (delete_where (fun s => bool_decide (sale_projectId s = id)) sale_id
               (sales f)))
    end
  else
    inTransaction (
      project ← Sql.select (fun d => db_projects d !! id);
      match project with
      | None => throw "Project not found"
      | Some _ =>
          Sql.run (Sql.delete_project_sales id);;
          Sql.run (Sql.delete_project_costs id);;
          Sql.run (Sql.delete_project id)
      end).

(** [value.trim()] for the blanks a label is typed with. *)
Fixpoint trimStart (s : string) : string :=
  match s with
  | String c rest => if Ascii.eqb c " "%char then trimStart rest else s
  | EmptyString => s
  end.

Definition trim (s : string) : string :=
  String.rev (trimStart (String.rev (trimStart s))).

Definition normalizeCustomTypeLabel (value : option string) : option string :=
  match value with
  | None => None
  | Some v => let trimmed := trim v in
              if String.eqb trimmed "" then None else Some trimmed
  end.

Definition projectCostTypeLabel (type : ProjectCostType)
    (customTypeLabel : option string) : string :=
  match type with
  | cost_construction => "إنشاء"
  | cost_operation => "تشغيل"
  | cost_expense => "مصروفات"
  | cost_other => default "أخرى" (normalizeCustomTypeLabel customTypeLabel)
  end.

(** The [note] column carries the note together with the custom label; the
    row is kept as the [ProjectCost] that [mapProjectCostRow] reads back. *)
Definition createProjectCost (input : ProjectCostCreateInput)
    : M ProjectCostCreateResult :=
  pool ← getMysqlPool;
  let customTypeLabel := normalizeCustomTypeLabel (pcc_customTypeLabel input) in
  let description := "تكلفة " +:+ projectCostTypeLabel (pcc_type input) customTypeLabel
                     +:+ " لمشروع " +:+ pcc_projectName input in
  if negb pool then
    id ← draw;
    let cost := mkProjectCost id (pcc_projectId input) (pcc_type input)
                  customTypeLabel (pcc_amount input) (pcc_date input)
                  (pcc_note input) in
    updateFallback (fun f => set_costs f (<[cost_id cost := cost]> (costs f)));;
    transaction ← createTransactionFallback
      (mkTransactionCreateInput (pcc_date input) expense description
         (pcc_amount input) (pcc_approved input) (pcc_createdBy input));
    ret (mkProjectCostCreateResult cost transaction)
  else
    inTransaction (
      id ← draw;
      Sql.run (Sql.insert_project_cost
                 (mkProjectCost id (pcc_projectId input) (pcc_type input)
                    customTypeLabel (pcc_amount input) (pcc_date input)
                    (pcc_note input)));;
      row ← Sql.select (fun d => db_project_costs d !! id);
      transaction ← insertTransactionDb
        (mkTransactionCreateInput (pcc_date input) expense description
           (pcc_amount input) (pcc_approved input) (pcc_createdBy input));
      r ← first_row row;
      ret (mkProjectCostCreateResult (mapProjectCostRow r) transaction)).

(** [Boolean(x)] for a number that may be [null]. *)
Definition truthyNumber (x : option Z) : bool :=
  match x with Some n => negb (n =? 0) | None => false end.

(** [Boolean(x)] for a string that may be [null]. *)
Definition truthyString (x : option string) : bool :=
  match x with Some s => negb (String.eqb s "") | None => false end.

Definition hasPlan (input : ProjectSaleCreateInput) : bool :=
  truthyNumber (psc_monthlyAmount input) && truthyNumber (psc_months input)
  && truthyString (psc_firstDueDate input).

(** [hasPlan ? Math.max(0, Number(input.downPayment ?? 0)) : input.price] *)
Definition immediateAmount (input : ProjectSaleCreateInput) : Z :=
  if hasPlan input then Z.max 0 (default 0 (psc_downPayment input))
  else psc_price input.

Definition saleDescription (input : ProjectSaleCreateInput) : string :=
  if hasPlan input
  then "بيع بالتقسيط لوحدة " +:+ psc_unitNo input +:+ " من مشروع "
       +:+ psc_projectName input +:+ " (مقدم)"
  else "بيع وحدة " +:+ psc_unitNo input +:+ " من مشروع "
       +:+ psc_projectName input +:+ " إلى " +:+ psc_buyer input.

Definition planOf (input : ProjectSaleCreateInput) (saleId : string)
    : InstallmentParams :=
  mkInstallmentParams (psc_projectId input) saleId (psc_unitNo input)
    (psc_buyer input) (default 0 (psc_monthlyAmount input))
    (default 0 (psc_months input)) (default "" (psc_firstDueDate input)).

(** [x || null] for a string that may be [null]. *)
Definition orNull (x : option string) : option string :=
  match x with
  | Some s => if String.eqb s "" then None else Some s
  | None => None
  end.

Definition installmentsOfPlan (input : ProjectSaleCreateInput) (saleId : string)
    : M (option (list Installment)) :=
  if hasPlan input
  then l ← createInstallmentsForSale (planOf input saleId); ret (Some l)
  else ret None.

Definition createProjectSale (input : ProjectSaleCreateInput)
    : M ProjectSaleCreateResult :=
  pool ← getMysqlPool;
  if negb pool then
    id ← draw;
    let sale := mkProjectSale id (psc_projectId input) (psc_unitNo input)
                  (psc_buyer input) (psc_price input) (psc_date input)
                  (psc_terms input) (psc_area input) (psc_paymentMethod input) in
    updateFallback (fun f => set_sales f (<[sale_id sale := sale]> (sales f)));;
    transaction ← createTransactionFallback
      (mkTransactionCreateInput (psc_date input) revenue (saleDescription input)
         (immediateAmount input) (psc_approved input) (psc_createdBy input));
    installments ← installmentsOfPlan input (sale_id sale);
    ret (mkProjectSaleCreateResult sale transaction installments)
  else
    inTransaction (
      id ← draw;
      Sql.run (Sql.insert_project_sale
                 (mkProjectSale id (psc_projectId input) (psc_unitNo input)
                    (psc_buyer input) (psc_price input) (psc_date input)
                    (orNull (psc_terms input)) (orNull (psc_area input))
                    (orNull (psc_paymentMethod input))));;
      row ← Sql.select (fun d => db_project_sales d !! id);
      transaction ← insertTransactionDb
        (mkTransactionCreateInput (psc_date input) revenue (saleDescription input)
           (immediateAmount input) (psc_approved input) (psc_createdBy input));
      installments ← installmentsOfPlan input id;
      r ← first_row row;
      ret (mkProjectSaleCreateResult (mapProjectSaleRow r) transaction installments)).

Record PayInstallmentParams := mkPayInstallmentParams {
  pay_id : string;
  pay_date : string;
  pay_approved : bool;
  pay_createdBy : option string
}.

Definition payInstallment (params : PayInstallmentParams)
    : M (Installment * Transaction) :=
  f ← getFallback;
  match installments f !! pay_id params with
  | None => throw "Installment not found"
  | Some inst =>
      let settlement :=
        mkTransactionCreateInput (pay_date params) revenue
          ("سداد قسط وحدة " +:+ inst_unitNo inst +:+ " من " +:+ inst_buyer inst)
          (inst_amount inst) (pay_approved params) (pay_createdBy params) in
      if inst_paid inst then
        transaction ← createTransaction settlement;
        ret (inst, transaction)
      else
        let updated := mkInstallment (inst_id inst) (inst_projectId inst)
                         (inst_saleId inst) (inst_unitNo inst) (inst_buyer inst)
                         (inst_amount inst) (inst_dueDate inst) true
                         (Some (pay_date params)) in
        updateFallback (fun f =>
          set_installments f (<[inst_id updated := updated]> (installments f)));;
        transaction ← createTransaction settlement;
        ret (updated, transaction)
  end.

(** ** The sweep ([scheduleDueInstallmentChecks]) *)

(** [runOnce]: what the timer runs at start-up and then once a day. *)
Definition runOnce : M unit :=
  swallow (
    list ← getDueInstallments None;
    forM (fun inst =>
            createInstallmentReminder (inst_id inst)
              (Some ("auto reminder for due " +:+ inst_dueDate inst))) list;;
    ret tt).

(** ** The offline mutation queue (client) *)

Module OfflineQueue.

Inductive Method := POST | PUT | DELETE.

Record QueuedRequest := mkQueuedRequest {
  id : string;
  url : string;
  method : Method;
  headers : list (string * string);
  body : option string;
  createdAt : Z;
  retryCount : Z
}.

(** What [await fetch(...)] gives: a response with its status, or a
    rejection (network failure). *)
Inductive FetchOutcome :=
| Response (status : Z)
| NetworkFailure.

(** The surroundings of the client: whether [navigator.onLine] holds at the
    n-th call of [processQueue], and the outcome of the n-th [fetch]. *)
Record Network := mkNetwork {
  onLine : nat -> bool;
  respond : nat -> QueuedRequest -> FetchOutcome
}.

(** The client: the two records kept in [localforage], the token of
    [localStorage], and what it has done so far ([sent]: the requests
    replayed, oldest first, each with its outcome; [waits]: the delays
    waited, oldest first; [calls]: the calls of [processQueue]). *)
Record Client := mkClient {
  queue : list QueuedRequest;
  cache : gmap string string;
  auth_token : option string;
  sent : list (QueuedRequest * FetchOutcome);
  waits : list Z;
  calls : nat
}.

Definition CACHE_PREFIX : string := "offline_cache_v1:".

Definition cacheKeyFor (token : option string) (url : string) : string :=
  CACHE_PREFIX +:+ "GET:" +:+ url +:+ ":t=" +:+
  match token with
  | Some t => if String.eqb t "" then "anon" else String.substring 0 16 t
  | None => "anon"
  end.

(** [res.ok] *)
Definition ok (status : Z) : bool := (200 <=? status) && (status <=? 299).

Definition retried (item : QueuedRequest) : QueuedRequest :=
  mkQueuedRequest (id item) (url item) (method item) (headers item) (body item)
    (createdAt item) (retryCount item + 1).

(** [item.retryCount += 1; if (item.retryCount <= 5) remaining.push(item)] *)
Definition keepForRetry (item : QueuedRequest) (remaining : list QueuedRequest)
    : list QueuedRequest :=
  let item' := retried item in
  if retryCount item' <=? 5 then remaining ++ [item'] else remaining.

(** One round of the loop of [processQueue]. *)
Definition replay (net : Network) (item : QueuedRequest)
    (st : Client * list QueuedRequest) : Client * list QueuedRequest :=
  let (c, remaining) := st in
  let outcome := respond net (length (sent c)) item in
  let c1 := mkClient (queue c) (cache c) (auth_token c)
              (sent c ++ [(item, outcome)]) (waits c) (calls c) in
  match outcome with
  | Response status =>
      if negb (ok status) then
        if (400 <=? status) && (status <? 500) then (c1, remaining)
        else (c1, keepForRetry item remaining)
      else
        let listKey := cacheKeyFor (auth_token c) "/api/admin/users" in
        (mkClient (queue c1) (delete listKey (cache c1)) (auth_token c1)
           (sent c1) (waits c1) (calls c1), remaining)
  | NetworkFailure => (c1, keepForRetry item remaining)
  end.

Definition replayAll (net : Network) (q : list QueuedRequest) (c : Client)
    : Client * list QueuedRequest :=
  fold_left (fun st item => replay net item st) q (c, []).

(** [Math.min(30000, 1000 * Math.pow(2, remaining[0].retryCount))] *)
Definition backoff (remaining : list QueuedRequest) : Z :=
  match remaining with
  | first :: _ => Z.min 30000 (1000 * 2 ^ retryCount first)
  | [] => 0
  end.

(** [processQueue]; [fuel] bounds the chain of calls the function makes to
    itself after each wait. *)
Fixpoint processQueue (fuel : nat) (net : Network) (c : Client) : Client :=
  match fuel with
  | O => c
  | S fuel' =>
      let c0 := mkClient (queue c) (cache c) (auth_token c) (sent c) (waits c)
                  (S (calls c)) in
      if negb (onLine net (calls c)) then c0
      else
        match queue c0 with
        | [] => c0
        | q =>
            let (c1, remaining) := replayAll net q c0 in
            let c2 := mkClient remaining (cache c1) (auth_token c1) (sent c1)
                        (waits c1) (calls c1) in
            match remaining with
            | [] => c2
            | _ =>
                processQueue fuel' net
                  (mkClient (queue c2) (cache c2) (auth_token c2) (sent c2)
                     (waits c2 ++ [backoff remaining]) (calls c2))
            end
        end
  end.

End OfflineQueue.

(** ** Views of the state *)

(** The ledger: where [createTransaction] writes and the snapshot reads. *)
Definition ledger (w : World) : gmap string Transaction :=
  match backend w with
  | None => transactions (fallbackStore w)
  | Some d => db_transactions d
  end.

Definition stock (w : World) : gmap string InventoryItem :=
  match backend w with
  | None => items (fallbackStore w)
  | Some d => db_inventory_items d
  end.

Definition stockMovements (w : World) : gmap string Movement :=
  match backend w with
  | None => movements (fallbackStore w)
  | Some d => db_inventory_movements d
  end.

(** The object a caller gets for a stored transaction. *)
Definition returnedTransaction (w : World) (row : Transaction) : Transaction :=
  match backend w with
  | None => row
  | Some _ => mapTransactionRow row
  end.


(** [k] is the key of no record, in memory or in the tables. *)
Definition unused_in_memory (f : FallbackStore) (k : string) : Prop :=
  transactions f !! k = None /\ items f !! k = None /\ movements f !! k = None /\
  projects f !! k = None /\ costs f !! k = None /\ sales f !! k = None /\
  installments f !! k = None.

Definition unused_in_tables (d : Database) (k : string) : Prop :=
  db_transactions d !! k = None /\ db_inventory_items d !! k = None /\
  db_inventory_movements d !! k = None /\ db_projects d !! k = None /\
  db_project_costs d !! k = None /\ db_project_sales d !! k = None /\
  db_project_installments d !! k = None /\ db_installment_reminders d !! k = None.

Definition unused (w : World) (k : string) : Prop :=
  unused_in_memory (fallbackStore w) k /\
  match backend w with
  | None => True
  | Some d => unused_in_tables d k
  end.

(** The identifiers still to be drawn are the key of no record. *)
Definition fresh_ids (w : World) : Prop :=
  forall n : N, (uuids w <= n)%N -> unused w (uuid n).

(** The actor of an operation is [null] or a row of [users]. *)
Definition actor_known (w : World) (createdBy : option string) : Prop :=
  match backend w, createdBy with
  | Some d, Some u => u ∈ db_users d
  | _, _ => True
  end.

(** Every installment of the in-memory map sits under its own [id]. *)
Definition installments_keyed (w : World) : Prop :=
  forall k i, installments (fallbackStore w) !! k = Some i -> inst_id i = k.

(** The installment under [k] in the in-memory map is settled. *)
Definition settled (w : World) (k : string) : Prop :=
  exists i, installments (fallbackStore w) !! k = Some i /\ inst_paid i = true.

(** The write operations the store exports, and the sweep. *)
Inductive Operation :=
| CreateTransaction (input : TransactionCreateInput)
| ApproveTransaction (id : string)
| DeleteTransaction (id : string)
| CreateInventoryItem (input : InventoryItemCreateInput)
| DeleteInventoryItem (id : string)
| RecordInventoryReceipt (input : InventoryMovementInput)
| RecordInventoryIssue (input : InventoryMovementInput)
| CreateProject (input : ProjectCreateInput)
| DeleteProject (id : string)
| CreateProjectCost (input : ProjectCostCreateInput)
| CreateProjectSale (input : ProjectSaleCreateInput)
| PayInstallment (params : PayInstallmentParams)
| CreateInstallmentReminder (installmentId : string) (note : option string)
| RunOnce
| ClockTick (t : string).

Definition after {A} (m : M A) (w : World) : World := (m w).1.

(** The state an operation leaves, whether it returns or throws. *)
Definition perform (op : Operation) (w : World) : World :=
  match op with
  | CreateTransaction input => after (createTransaction input) w
  | ApproveTransaction id => after (approveTransaction id) w
  | DeleteTransaction id => after (deleteTransaction id) w
  | CreateInventoryItem input => after (createInventoryItem input) w
  | DeleteInventoryItem id => after (deleteInventoryItem id) w
  | RecordInventoryReceipt input => after (recordInventoryReceipt input) w
  | RecordInventoryIssue input => after (recordInventoryIssue input) w
  | CreateProject input => after (createProject input) w
  | DeleteProject id => after (deleteProject id) w
  | CreateProjectCost input => after (createProjectCost input) w
  | CreateProjectSale input => after (createProjectSale input) w
  | PayInstallment params => after (payInstallment params) w
  | CreateInstallmentReminder id note => after (createInstallmentReminder id note) w
  | RunOnce => after runOnce w
  | ClockTick t => mkWorld (backend w) (fallbackStore w) (uuids w) t
  end.

Definition performAll (ops : list Operation) (w : World) : World :=
  fold_left (fun w op => perform op w) ops w.

(** The reminders recorded for installment [k]. *)
Definition remindersOf (w : World) (k : string) : list InstallmentReminder :=
  match backend w with
  | None => []
  | Some d => filter (fun r => rem_installmentId r = k)
                (values (db_installment_reminders d))
  end.

Definition sumAmounts (l : list Installment) : Z :=
  foldr (fun i acc => inst_amount i + acc) 0 l.

(** ** Sample states *)

Definition emptyFallback : FallbackStore := mkFallbackStore ∅ ∅ ∅ ∅ ∅ ∅ ∅.

Definition emptyDatabase : Database := mkDatabase ∅ ∅ ∅ ∅ ∅ ∅ ∅ ∅ ∅.

Definition morning : string := "2024-01-02T08:00:00.000Z".

(** A process that never reached a backend, with nothing stored. *)
Definition blankMemory : World := mkWorld None emptyFallback 0 morning.

(** The plan of the sale of section 8: six months of 1000 from 2024-01-31. *)
Definition sixMonths : InstallmentParams :=
  mkInstallmentParams "P1" "S1" "A-1" "Buyer" 1000 6 "2024-01-31".

(** The row [insertTransactionDb] and [createTransactionFallback] store. *)
Definition transactionRow (input : TransactionCreateInput) (id createdAt : string)
    : Transaction :=
  mkTransaction id (tci_date input) (tci_type input) (tci_description input)
    (tci_amount input) (tci_approved input) (tci_createdBy input) (Some createdAt).


(** The project of a sale is a row of [projects]. *)
Definition project_known (w : World) (projectId : string) : Prop :=
  match backend w with
  | None => True
  | Some d => is_Some (db_projects d !! projectId)
  end.

(** A sale of 10000 with 1000 down and six months of 1000. *)
Definition saleOnCredit : ProjectSaleCreateInput :=
  mkProjectSaleCreateInput "P1" "Tower" "A-1" "Buyer" 10000 "2024-01-15"
    None None (Some "تقسيط") (Some 1000) (Some 1000) (Some 6)
    (Some "2024-02-01") true None.


(** Ascending order of due date, as strings. *)
Definition dueOrder (a b : Installment) : Prop :=
  String.leb (inst_dueDate a) (inst_dueDate b) = true.

(** Project P1 with costs C1 and C2, sale S1 and its installments I1 and
    I2, next to project P2 with cost C9, sale S9 and installment I9. *)
Definition projectP1 : Project := mkProject "P1" "Tower" "Cairo" 10 40 "2023-12-01".
Definition projectP2 : Project := mkProject "P2" "Villas" "Giza" 2 8 "2023-12-02".
Definition costC1 : ProjectCost :=
  mkProjectCost "C1" "P1" cost_construction None 5000 "2023-12-10" "".
Definition costC2 : ProjectCost :=
  mkProjectCost "C2" "P1" cost_operation None 700 "2023-12-11" "".
Definition costC9 : ProjectCost :=
  mkProjectCost "C9" "P2" cost_expense None 90 "2023-12-12" "".
Definition saleS1 : ProjectSale :=
  mkProjectSale "S1" "P1" "A-1" "Buyer" 10000 "2023-12-15" None None None.
Definition saleS9 : ProjectSale :=
  mkProjectSale "S9" "P2" "V-1" "Other" 20000 "2023-12-16" None None None.
Definition installmentI1 : Installment :=
  mkInstallment "I1" "P1" "S1" "A-1" "Buyer" 500 "2024-01-01" false None.
Definition installmentI2 : Installment :=
  mkInstallment "I2" "P1" "S1" "A-1" "Buyer" 500 "2024-02-01" false None.
Definition installmentI9 : Installment :=
  mkInstallment "I9" "P2" "S9" "V-1" "Other" 900 "2024-03-01" false None.

Definition estateProjects : gmap string Project :=
  <["P1" := projectP1]> (<["P2" := projectP2]> ∅).
Definition estateCosts : gmap string ProjectCost :=
  <["C1" := costC1]> (<["C2" := costC2]> (<["C9" := costC9]> ∅)).
Definition estateSales : gmap string ProjectSale :=
  <["S1" := saleS1]> (<["S9" := saleS9]> ∅).
Definition estateInstallments : gmap string Installment :=
  <["I1" := installmentI1]> (<["I2" := installmentI2]> (<["I9" := installmentI9]> ∅)).

(** The estate held in memory by a process without a backend. *)
Definition estateMemory : World :=
  mkWorld None
    (mkFallbackStore ∅ ∅ ∅ estateProjects estateCosts estateSales estateInstallments)
    0 morning.

(** The estate held in the tables, seen by a process that has just started
    (its in-memory maps are empty). *)
Definition estateTables : Database :=
  mkDatabase {["U1"]} ∅ ∅ ∅ estateProjects estateCosts estateSales
    estateInstallments ∅.

Definition estateDatabase : World := mkWorld (Some estateTables) emptyFallback 0 morning.

(** Five bags of cement in stock, in memory and in the tables. *)
Definition cement : InventoryItem :=
  mkInventoryItem "ITEM-1" "Cement" 5 "bag" 2 "2024-01-01".

Definition warehouseMemory : World :=
  mkWorld None (mkFallbackStore ∅ {["ITEM-1" := cement]} ∅ ∅ ∅ ∅ ∅) 0 morning.

Definition warehouseDatabase : World :=
  mkWorld (Some (mkDatabase {["U1"]} ∅ {["ITEM-1" := cement]} ∅ ∅ ∅ ∅ ∅ ∅))
    emptyFallback 0 morning.

(** Eight bags at 30 each, by user U1. *)
Definition eightBags : InventoryMovementInput :=
  mkInventoryMovementInput "ITEM-1" 8 30 "Depot" "2024-01-02" true (Some "U1").

(** Settling installment I1 on 2 January, by user U1. *)
Definition settleI1 : PayInstallmentParams :=
  mkPayInstallmentParams "I1" "2024-01-02" true (Some "U1").

(** ** What every operation keeps *)

(** The in-memory installments sit under their own ids, and no identifier
    still to be drawn is the key of one. *)
Definition installments_wf (w : World) : Prop :=
  installments_keyed w /\
  forall n : N, (uuids w <= n)%N -> installments (fallbackStore w) !! uuid n = None.

(** From [w] to [w']: identifiers were only drawn, and what was settled
    stays settled. *)
Definition keeps_settled (w w' : World) : Prop :=
  (uuids w <= uuids w')%N /\ forall k, settled w k -> settled w' k.

Definition steady {A} (m : M A) : Prop :=
  forall w, installments_wf w ->
            installments_wf (m w).1 /\ keeps_settled w (m w).1.

(** ** Proof automation *)

Ltac mstep :=
  unfold mbind, M_bind, bind, mret, M_ret, ret, throw, draw, clock, getFallback,
    updateFallback, getMysqlPool, randomUUID, with_fallback, with_backend;
  cbn beta iota zeta delta [fst snd backend fallbackStore uuids now].

(** The sample states use keys that are not drawn identifiers. *)
Ltac fresh_sample :=
  intros ? _; unfold unused, unused_in_memory, unused_in_tables, uuid;
  repeat split; simpl;
  unfold estateProjects, estateCosts, estateSales, estateInstallments;
  repeat (rewrite lookup_insert_ne by discriminate);
  first [apply lookup_empty | apply lookup_singleton_ne; discriminate].

(** ** The sweep over the tables *)

(** Every row of [project_installments] sits under its own [id]. *)
Definition tables_keyed (d : Database) : Prop :=
  forall k i, db_project_installments d !! k = Some i -> inst_id i = k.

(** The date a sweep run at clock reading [t] compares due dates with. *)
Definition sweepDate (t : string) : string := String.substring 0 10 t.




(** The sweep run once at each clock reading of [ts], in turn. *)
Fixpoint sweeps (ts : list string) (w : World) : World :=
  match ts with
  | [] => w
  | t :: ts' => sweeps ts' (after runOnce (perform (ClockTick t) w))
  end.





(** Installment I1 (500, due 2024-01-01, unpaid) in the memory of a
    process without a pool, and in the tables, on 2 January. *)
Definition dueMemory : World :=
  mkWorld None
    (mkFallbackStore ∅ ∅ ∅ {["P1" := projectP1]} ∅ {["S1" := saleS1]}
       {["I1" := installmentI1]})
    0 morning.

Definition dueTables : Database :=
  mkDatabase {["U1"]} ∅ ∅ ∅ {["P1" := projectP1]} ∅ {["S1" := saleS1]}
    {["I1" := installmentI1]} ∅.

Definition dueDatabase : World := mkWorld (Some dueTables) emptyFallback 0 morning.


Definition evening : string := "2024-01-02T20:00:00.000Z".

(** ** The drain of the queue *)

Module DrainSpec.
Import OfflineQueue.

(** A response the drain treats as final. *)
Definition discarded (o : FetchOutcome) : Prop :=
  match o with
  | Response status => 400 <= status < 500
  | NetworkFailure => False
  end.

(** What one replayed request leaves in [remaining]. *)
Definition kept (e : QueuedRequest * FetchOutcome) : list QueuedRequest :=
  match e.2 with
  | Response status =>
      if negb (ok status) then
        if (400 <=? status) && (status <? 500) then []
        else keepForRetry e.1 []
      else []
  | NetworkFailure => keepForRetry e.1 []
  end.

Definition ids (q : list QueuedRequest) : list string := map id q.

Definition sentIds (log : list (QueuedRequest * FetchOutcome)) : list string :=
  map (fun e => id e.1) log.

(** What a pass over the queue [q] sends when [n] requests were sent
    before it: every request of [q], in order, each with what the network
    answers at that moment. *)
Fixpoint answers (net : Network) (n : nat) (q : list QueuedRequest)
    : list (QueuedRequest * FetchOutcome) :=
  match q with
  | [] => []
  | x :: q' => (x, respond net n x) :: answers net (S n) q'
  end.

(** In [log], no request is replayed again after a final response, and
    none of them is left in [final]. *)
Fixpoint neverRetried (log : list (QueuedRequest * FetchOutcome))
    (final : list QueuedRequest) : Prop :=
  match log with
  | [] => True
  | e :: rest =>
      (discarded e.2 -> (id e.1 ∉ sentIds rest) /\ (id e.1 ∉ ids final)) /\
      neverRetried rest final
  end.

(** Three queued writes: the first is refused with 400, the second meets a
    server error twice and then succeeds, the third succeeds at once. *)
Definition sampleQueue : list QueuedRequest :=
  [ mkQueuedRequest "q1" "/api/admin/users" POST [] (Some "{}") 1 0;
    mkQueuedRequest "q2" "/api/admin/users/7" PUT [] (Some "{}") 2 0;
    mkQueuedRequest "q3" "/api/admin/users/9" DELETE [] None 3 0 ].

Definition sampleNetwork : Network :=
  mkNetwork (fun _ => true)
    (fun n item =>
       if String.eqb (id item) "q1" then Response 400
       else if String.eqb (id item) "q2"
            then (if Nat.ltb n 4 then Response 503 else Response 200)
            else Response 204).

Definition sampleClient : Client := mkClient sampleQueue ∅ None [] [] 0.

End DrainSpec.

(** ** Month addition as the specification words it *)

Module Calendar.

(** The number of days of month [m] (1 = January) of year [y]. *)
Definition daysInMonth (y m : Z) : Z :=
  match m with
  | 2 => 28 + JS.InLeapYear y
  | 4 | 6 | 9 | 11 => 30
  | _ => 31
  end.

(** Adding [k] calendar months to the date [y]-[m]-[d]: the day of the
    month is kept, clamped to the last valid day of the resulting month. *)
Definition addMonthsClamped (y m d k : Z) : Z * Z * Z :=
  let t := m - 1 + k in
  let y' := y + t / 12 in
  let m' := t mod 12 + 1 in
  (y', m', Z.min d (daysInMonth y' m')).

(** The day lands in the resulting month without clamping. *)
Definition fits (y m d k : Z) : bool :=
  let t := m - 1 + k in
  d <=? daysInMonth (y + t / 12) (t mod 12 + 1).

Definition iso (date : Z * Z * Z) : string :=
  let '(y, m, d) := date in
  JS.String_of y +:+ "-" +:+ JS.padStart2 (JS.String_of m) +:+ "-"
  +:+ JS.padStart2 (JS.String_of d).

(** Every date of the years [from] to [to], with every count of months from
    0 to [upto]. *)
Definition cases (from to upto : Z) : list (Z * Z * Z * Z) :=
  y ← seqZ from (to - from + 1);
  m ← seqZ 1 12;
  d ← seqZ 1 (daysInMonth y m);
  k ← seqZ 0 (upto + 1);
  [(y, m, d, k)].

(** On one case: the code gives the clamped sum exactly when the day needs
    no clamping. *)
Definition agrees_iff_fits (c : Z * Z * Z * Z) : bool :=
  let '(y, m, d, k) := c in
  Bool.eqb (String.eqb (addMonthsISO (iso (y, m, d)) k) (iso (addMonthsClamped y m d k)))
    (fits y m d k).

(** Reading back the date a day number was made from. *)
Definition reads_back (c : Z * Z * Z) : bool :=
  let '(y, m, d) := c in
  let day := JS.newDate y (m - 1) d in
  (JS.getFullYear day =? y) && (JS.getMonth day =? m - 1) && (JS.getDate day =? d).

Definition dates (from to : Z) : list (Z * Z * Z) :=
  y ← seqZ from (to - from + 1);
  m ← seqZ 1 12;
  d ← seqZ 1 (daysInMonth y m);
  [(y, m, d)].

End Calendar.

(** ** Reading the store *)

(** [getProjectInstallmentsDb]; the query is taken to answer, so the
    [catch] that falls back on the in-memory map is never entered. *)
Definition getProjectInstallmentsDb (projectId : string) : M (list Installment) :=
  pool ← getMysqlPool;
  if negb pool then getProjectInstallments projectId
  else
    rows ← Sql.select (fun d =>
      JS.sort byDueDate
        (filter (fun i => inst_projectId i = projectId)
           (values (db_project_installments d))));
    ret (map mapInstallmentRow rows).

Definition getProjectById (id : string) : M (option Project) :=
  pool ← getMysqlPool;
  if negb pool then f ← getFallback; ret (projects f !! id)
  else
    row ← Sql.select (fun d => db_projects d !! id);
    ret (mapProjectRow <$> row).

Record ProjectSnapshot := mkProjectSnapshot {
  ps_project : Project;
  ps_costs : list ProjectCost;
  ps_sales : list ProjectSale;
  ps_installments : list Installment
}.

(** [(a, b) => a.date === b.date ? 0 : a.date > b.date ? -1 : 1] *)
Definition byDateDesc {T} (date : T -> string) (a b : T) : comparison :=
  compareDesc (date a) (date b).

(** The rows of the model carry no [created_at] for costs, sales and
    movements: over the tables, rows of one date come in the order of the
    table. *)
Definition getProjectSnapshot (id : string) : M (option ProjectSnapshot) :=
  project ← getProjectById id;
  match project with
  | None => ret None
  | Some project =>
      pool ← getMysqlPool;
      if negb pool then
        f ← getFallback;
        let costs := JS.sort (byDateDesc cost_date)
                       (filter (fun c => cost_projectId c = id) (values (costs f))) in
        let sales := JS.sort (byDateDesc sale_date)
                       (filter (fun s => sale_projectId s = id) (values (sales f))) in
        installments ← getProjectInstallments id;
        ret (Some (mkProjectSnapshot project costs sales installments))
      else
        costRows ← Sql.select (fun d =>
          JS.sort (byDateDesc cost_date)
            (filter (fun c => cost_projectId c = id) (values (db_project_costs d))));
        saleRows ← Sql.select (fun d =>
          JS.sort (byDateDesc sale_date)
            (filter (fun s => sale_projectId s = id) (values (db_project_sales d))));
        rows ← Sql.select (fun d =>
          JS.sort byDueDate
            (filter (fun i => inst_projectId i = id)
               (values (db_project_installments d))));
        ret (Some (mkProjectSnapshot project (map mapProjectCostRow costRows)
                     (map mapProjectSaleRow saleRows) (map mapInstallmentRow rows)))
  end.

Definition sortByDateDesc {T} (date : T -> string) (items : list T) : list T :=
  JS.sort (byDateDesc date) items.

(** The comparator of [sortTransactions]: later date first and, within a
    date, later [createdAt] first ([null] counts as the empty string). *)
Definition compareTransactions (a b : Transaction) : comparison :=
  if String.eqb (tx_date a) (tx_date b)
  then compareDesc (default "" (tx_createdAt a)) (default "" (tx_createdAt b))
  else if String.ltb (tx_date b) (tx_date a) then Lt else Gt.

Definition sortTransactions (items : list Transaction) : list Transaction :=
  JS.sort compareTransactions items.

Definition sortTransactionsFallback {T} (date : T -> string) (items : list T) : list T :=
  sortByDateDesc date items.

Definition sortTransactionsFallbackMovements (items : list Movement) : list Movement :=
  JS.sort (byDateDesc mv_date) items.

Record AccountingSnapshot := mkAccountingSnapshot {
  as_transactions : list Transaction;
  as_items : list InventoryItem;
  as_movements : list Movement;
  as_projects : list Project;
  as_costs : list ProjectCost;
  as_sales : list ProjectSale
}.

Definition getFallbackSnapshot : M AccountingSnapshot :=
  f ← getFallback;
  ret (mkAccountingSnapshot
         (sortTransactions (values (transactions f)))
         (JS.sort (byDateDesc item_updatedAt) (values (items f)))
         (sortTransactionsFallbackMovements (values (movements f)))
         (JS.sort (byDateDesc proj_createdAt) (values (projects f)))
         (sortTransactionsFallback cost_date (values (costs f)))
         (sortTransactionsFallback sale_date (values (sales f)))).

(** [ORDER BY first DESC, second ASC] *)
Definition descThenAsc {T} (first second : T -> string) (a b : T) : comparison :=
  if String.eqb (first a) (first b) then compareAsc (second a) (second b)
  else if String.ltb (first b) (first a) then Lt else Gt.

Definition getAccountingSnapshot : M AccountingSnapshot :=
  pool ← getMysqlPool;
  if negb pool then getFallbackSnapshot
  else
    transactionRows ← Sql.select (fun d =>
      JS.sort compareTransactions (values (db_transactions d)));
    itemRows ← Sql.select (fun d =>
      JS.sort (descThenAsc item_updatedAt item_name) (values (db_inventory_items d)));
    movementRows ← Sql.select (fun d =>
      JS.sort (byDateDesc mv_date) (values (db_inventory_movements d)));
    projectRows ← Sql.select (fun d =>
      JS.sort (descThenAsc proj_createdAt proj_name) (values (db_projects d)));
    costRows ← Sql.select (fun d =>
      JS.sort (byDateDesc cost_date) (values (db_project_costs d)));
    saleRows ← Sql.select (fun d =>
      JS.sort (byDateDesc sale_date) (values (db_project_sales d)));
    ret (mkAccountingSnapshot
           (map mapTransactionRow transactionRows)
           (map mapInventoryItemRow itemRows)
           (map mapMovementRow movementRows)
           (map mapProjectRow projectRows)
           (map mapProjectCostRow costRows)
           (map mapProjectSaleRow saleRows)).

(** ** More views of the state *)

Definition projectsOf (w : World) : gmap string Project :=
  match backend w with
  | None => projects (fallbackStore w)
  | Some d => db_projects d
  end.

Definition costsOf (w : World) : gmap string ProjectCost :=
  match backend w with
  | None => costs (fallbackStore w)
  | Some d => db_project_costs d
  end.

Definition salesOf (w : World) : gmap string ProjectSale :=
  match backend w with
  | None => sales (fallbackStore w)
  | Some d => db_project_sales d
  end.

(** The state with [m] for its ledger and everything else as in [w]. *)
Definition with_ledger (w : World) (m : gmap string Transaction) : World :=
  match backend w with
  | None => with_fallback w (set_transactions (fallbackStore w) m)
  | Some d => with_backend w (Some (set_db_transactions d m))
  end.

(** The same state after [k] more identifiers were drawn. *)
Definition drawn (k : N) (w : World) : World :=
  mkWorld (backend w) (fallbackStore w) (uuids w + k) (now w).

(** [{ ...existing, approved: true }] *)
Definition approvedRow (t : Transaction) : Transaction :=
  mkTransaction (tx_id t) (tx_date t) (tx_type t) (tx_description t)
    (tx_amount t) true (tx_createdBy t) (tx_createdAt t).

(** Every record of a map sits under its own [id]. *)
Definition keyed {V} (key : V -> string) (m : gmap string V) : Prop :=
  forall k v, m !! k = Some v -> key v = k.

(** Every movement of the tables belongs to a stored item (the foreign
    key of [inventory_movements.item_id]). *)
Definition movements_refer (w : World) : Prop :=
  match backend w with
  | None => True
  | Some d => forall k m, db_inventory_movements d !! k = Some m ->
                          is_Some (db_inventory_items d !! mv_itemId m)
  end.

(** Later date first. *)
Definition newerFirst {T} (date : T -> string) (a b : T) : Prop :=
  String.leb (date b) (date a) = true.

(** Later date first and, within a date, later [createdAt] first. *)
Definition ledgerOrder (a b : Transaction) : Prop :=
  String.ltb (tx_date b) (tx_date a) = true \/
  (tx_date a = tx_date b /\
   String.leb (default "" (tx_createdAt b)) (default "" (tx_createdAt a)) = true).

(** ** Due installments *)

(** The date [getDueInstallments] compares due dates with. *)
Definition dueDate (asOfDate : option string) (w : World) : string :=
  default (sweepDate (now w)) asOfDate.

(** The installments [getDueInstallments] reads: the rows of the table
    when there is a pool, the in-memory map otherwise. *)
Definition installmentsRead (w : World) : gmap string Installment :=
  match backend w with
  | None => installments (fallbackStore w)
  | Some d => db_project_installments d
  end.

(** The estate in the tables, with the same installments held in memory. *)
Definition estateBoth : World :=
  mkWorld (Some estateTables)
    (mkFallbackStore ∅ ∅ ∅ ∅ ∅ ∅ estateInstallments) 0 morning.


(** What a caller gets for the rows [l]: with a pool each row goes through
    its [map...Row]. *)
Definition returnedRows {A} (w : World) (mapRow : A -> A) (l : list A) : list A :=
  match backend w with
  | None => l
  | Some _ => map mapRow l
  end.


(** ** Invariants of the store *)

(** An invariant given by what it asks of the in-memory maps and of the
    tables, each with the number of identifiers drawn so far. *)
Definition holds (Imem : N -> FallbackStore -> Prop) (Idb : N -> Database -> Prop)
    (w : World) : Prop :=
  Imem (uuids w) (fallbackStore w) /\
  match backend w with
  | Some d => Idb (uuids w) d
  | None => True
  end.

(** From a state with at least [j] identifiers drawn, [m] keeps the
    invariant and only draws identifiers, whether it returns or throws. *)
Definition keeps (Imem : N -> FallbackStore -> Prop) (Idb : N -> Database -> Prop)
    (j : N) {A} (m : M A) : Prop :=
  forall w, (j <= uuids w)%N -> holds Imem Idb w ->
            holds Imem Idb (m w).1 /\ (uuids w <= uuids (m w).1)%N.

(** No stored quantity is negative. *)
Definition stock_mem (n : N) (f : FallbackStore) : Prop :=
  forall k i, items f !! k = Some i -> 0 <= item_quantity i.

Definition stock_db (n : N) (d : Database) : Prop :=
  forall k i, db_inventory_items d !! k = Some i -> 0 <= item_quantity i.

Definition stock_nonneg (w : World) : Prop := holds stock_mem stock_db w.

(** What the routes let through: a receipt of a quantity that is not
    negative, a new item with a quantity that is not negative. *)
Definition admissible (op : Operation) : Prop :=
  match op with
  | RecordInventoryReceipt input => 0 <= mi_qty input
  | CreateInventoryItem input => 0 <= iic_quantity input
  | _ => True
  end.

(** The records of a map sit under their own ids, and no identifier still
    to be drawn is a key of it. *)
Definition wf_map {V} (key : V -> string) (n : N) (m : gmap string V) : Prop :=
  keyed key m /\ forall j, (n <= j)%N -> m !! uuid j = None.

Definition wf_mem (n : N) (f : FallbackStore) : Prop :=
  wf_map tx_id n (transactions f) /\ wf_map item_id n (items f) /\
  wf_map mv_id n (movements f) /\ wf_map proj_id n (projects f) /\
  wf_map cost_id n (costs f) /\ wf_map sale_id n (sales f) /\
  wf_map inst_id n (installments f).

Definition wf_db (n : N) (d : Database) : Prop :=
  wf_map tx_id n (db_transactions d) /\ wf_map item_id n (db_inventory_items d) /\
  wf_map mv_id n (db_inventory_movements d) /\ wf_map proj_id n (db_projects d) /\
  wf_map cost_id n (db_project_costs d) /\ wf_map sale_id n (db_project_sales d) /\
  wf_map inst_id n (db_project_installments d) /\
  wf_map rem_id n (db_installment_reminders d).

(** Every record of the state sits under its own id, and the identifiers
    still to be drawn are the key of no record. *)
Definition well_formed (w : World) : Prop := holds wf_mem wf_db w.

(** A key that is none of the identifiers from the [n]-th on. *)
Definition old (n : N) (k : string) : Prop := forall j, (n <= j)%N -> k <> uuid j.

(** ** A depot with movements *)

Definition sand : InventoryItem :=
  mkInventoryItem "ITEM-2" "Sand" 40 "ton" 5 "2024-01-01".

(** Cement came in and went out; sand came in. *)
Definition cementIn : Movement :=
  mkMovement "M1" "ITEM-1" kind_in 8 30 240 "Depot" "2024-01-02".
Definition cementOut : Movement :=
  mkMovement "M2" "ITEM-1" kind_out 3 30 90 "Tower" "2024-01-03".
Definition sandIn : Movement :=
  mkMovement "M3" "ITEM-2" kind_in 40 12 480 "Quarry" "2024-01-02".

Definition depotItems : gmap string InventoryItem :=
  <["ITEM-1" := cement]> (<["ITEM-2" := sand]> ∅).
Definition depotMovements : gmap string Movement :=
  <["M1" := cementIn]> (<["M2" := cementOut]> (<["M3" := sandIn]> ∅)).

Definition depotMemory : World :=
  mkWorld None (mkFallbackStore ∅ depotItems depotMovements ∅ ∅ ∅ ∅) 0 morning.

Definition depotDatabase : World :=
  mkWorld (Some (mkDatabase {["U1"]} ∅ depotItems depotMovements ∅ ∅ ∅ ∅ ∅))
    emptyFallback 0 morning.

(** ** Counting the sends of a drain *)

(** The number of times the request of id [i] was sent in [log]. *)
Definition timesSent (i : string)
    (log : list (OfflineQueue.QueuedRequest * OfflineQueue.FetchOutcome)) : nat :=
  length (filter (fun j => j = i) (DrainSpec.sentIds log)).

(** The last word on a request: it was delivered, it was refused with a
    status from 400 to 499, or it failed with its retry count at 5 and
    was given up. *)
Definition finished (e : OfflineQueue.QueuedRequest * OfflineQueue.FetchOutcome) : Prop :=
  match e.2 with
  | OfflineQueue.Response status =>
      OfflineQueue.ok status = true \/ 400 <= status < 500 \/
      5 <= OfflineQueue.retryCount e.1
  | OfflineQueue.NetworkFailure => 5 <= OfflineQueue.retryCount e.1
  end.

(** ** Users and sessions ([server/store/auth.ts], [server/routes/auth.ts]) *)

Module Auth.

Inductive Role := manager | accountant | employee.

Record User := mkUser {
  u_id : string;
  u_username : string;
  u_name : string;
  u_email : string;
  u_role : Role;
  u_active : bool
}.

(** [UserWithPassword]: [safe] is the record without its password
    ([const { password: _pw, ...safe } = user]). *)
Record UserWithPassword := mkUserWithPassword {
  safe : User;
  password : string
}.

(** [bcrypt], taken as ideal: a hash is made from a password and a salt,
    and [compare] accepts the password the hash was made from and no
    other. *)
Record Hash := mkHash {
  hash_of : string;
  hash_salt : N
}.

Definition bcrypt_compare (password : string) (h : Hash) : bool :=
  String.eqb password (hash_of h).

(** A row of [users]. *)
Record UserRow := mkUserRow {
  row_user : User;
  password_hash : Hash;
  created_at : string
}.

(** The tables [users] (by [id]) and [sessions] (by [token], giving
    [user_id]).  Strings are compared code unit by code unit, as the
    SQLite backend compares them. *)
Record Tables := mkTables {
  users : gmap string UserRow;
  sessions : gmap string string
}.

(** The state of the module: what [getInitializedMysqlPool()] gives,
    whether [isMysqlConfigured()] holds, the two module-level maps
    ([fallbackUsers] in the order of insertion), the identifiers and the
    salts drawn so far, and the clock. *)
Record State := mkState {
  pool : option Tables;
  configured : bool;
  fallbackUsers : list (string * UserWithPassword);
  fallbackSessions : gmap string string;
  drawn_ids : N;
  drawn_salts : N;
  clock_now : string
}.

(** *** [Map] in the order of insertion *)

Definition Map_get {V} (k : string) (m : list (string * V)) : option V :=
  snd <$> List.find (fun kv => String.eqb kv.1 k) m.

Fixpoint Map_set {V} (k : string) (v : V) (m : list (string * V)) : list (string * V) :=
  match m with
  | [] => [(k, v)]
  | (k', v') :: m' =>
      if String.eqb k' k then (k, v) :: m' else (k', v') :: Map_set k v m'
  end.

Definition Map_has {V} (k : string) (m : list (string * V)) : bool :=
  existsb (fun kv => String.eqb kv.1 k) m.

Definition Map_delete {V} (k : string) (m : list (string * V)) : list (string * V) :=
  List.filter (fun kv => negb (String.eqb kv.1 k)) m.

Definition Map_values {V} (m : list (string * V)) : list V := map snd m.

(** *** Setters *)

Definition with_pool (s : State) (p : option Tables) : State :=
  mkState p (configured s) (fallbackUsers s) (fallbackSessions s) (drawn_ids s)
    (drawn_salts s) (clock_now s).

Definition with_fallbackUsers (s : State) (m : list (string * UserWithPassword)) : State :=
  mkState (pool s) (configured s) m (fallbackSessions s) (drawn_ids s)
    (drawn_salts s) (clock_now s).

Definition with_fallbackSessions (s : State) (m : gmap string string) : State :=
  mkState (pool s) (configured s) (fallbackUsers s) m (drawn_ids s)
    (drawn_salts s) (clock_now s).

(** [crypto.randomUUID()] *)
Definition randomUUID (s : State) : string * State :=
  (uuid (drawn_ids s),
   mkState (pool s) (configured s) (fallbackUsers s) (fallbackSessions s)
     (N.succ (drawn_ids s)) (drawn_salts s) (clock_now s)).

(** [bcrypt.hash(password, 10)] *)
Definition bcrypt_hash (password : string) (s : State) : Hash * State :=
  (mkHash password (drawn_salts s),
   mkState (pool s) (configured s) (fallbackUsers s) (fallbackSessions s)
     (drawn_ids s) (N.succ (drawn_salts s)) (clock_now s)).

(** *** Statements over the tables *)

(** [SELECT ... FROM users WHERE username = ? LIMIT 1] *)
Definition select_by_username (username : string) (t : Tables) : option UserRow :=
  List.find (fun r => String.eqb (u_username (row_user r)) username) (values (users t)).

(** [INSERT INTO sessions (token, user_id)]: [token] is the primary key
    and [user_id] references [users(id)]. *)
Definition insert_session (token userId : string) (t : Tables) : result Tables :=
  if negb (Sql.fresh_key token (sessions t)) then Err Sql.duplicate_key
  else if Sql.has_key userId (users t)
  then Ok (mkTables (users t) (<[token := userId]> (sessions t)))
  else Err Sql.foreign_key.

(** [INSERT INTO users ...]: [id] is the primary key and [username] is
    unique. *)
Definition insert_user (row : UserRow) (t : Tables) : result Tables :=
  if negb (Sql.fresh_key (u_id (row_user row)) (users t)) then Err Sql.duplicate_key
  else if bool_decide (is_Some (select_by_username (u_username (row_user row)) t))
  then Err Sql.duplicate_key
  else Ok (mkTables (<[u_id (row_user row) := row]> (users t)) (sessions t)).

(** [DELETE FROM users WHERE id = ?]; [sessions.user_id] cascades. *)
Definition delete_user (id : string) (t : Tables) : Tables :=
  mkTables (delete id (users t))
    (filter (fun kv : string * string => kv.2 <> id) (sessions t)).

(** *** The store *)

(** [seedFallback]: an empty map of users gets the manager. *)
Definition seedFallback (s : State) : State :=
  match fallbackUsers s with
  | [] =>
      let (id, s1) := randomUUID s in
      with_fallbackUsers s1
        (Map_set id
           (mkUserWithPassword
              (mkUser id "root" "Manager" "admin@example.com" manager true)
              "password123")
           (fallbackUsers s1))
  | _ => s
  end.

Definition mapUser (row : UserRow) : User := row_user row.

(** The loop of [authenticate] over [fallbackUsers.values()]. *)
Definition authenticateFallback (username password : string) (s : State)
    : State * option (string * User) :=
  match List.find (fun u => String.eqb (u_username (safe u)) username
                            && String.eqb (Auth.password u) password
                            && u_active (safe u))
          (Map_values (fallbackUsers s)) with
  | Some user =>
      let (token, s1) := randomUUID s in
      (with_fallbackSessions s1 (<[token := u_id (safe user)]> (fallbackSessions s1)),
       Some (token, safe user))
  | None => (s, None)
  end.

(** [authenticate]: with a pool, a row of that username decides; without
    such a row, or when the insert of the session throws (it is caught and
    logged), the in-memory users are tried. *)
Definition authenticate (username password : string) (s : State)
    : State * option (string * User) :=
  match pool s with
  | Some t =>
      match select_by_username username t with
      | Some row =>
          if negb (u_active (row_user row)) then (s, None)
          else if negb (bcrypt_compare password (password_hash row)) then (s, None)
          else
            let (token, s1) := randomUUID s in
            match insert_session token (u_id (row_user row)) t with
            | Ok t' => (with_pool s1 (Some t'), Some (token, mapUser row))
            | Err _ => authenticateFallback username password s1
            end
      | None => authenticateFallback username password s
      end
  | None => authenticateFallback username password s
  end.

(** [!token] *)
Definition noToken (token : option string) : bool :=
  match token with
  | Some t => String.eqb t ""
  | None => true
  end.

Definition tokenFallback (token : string) (s : State) : option User :=
  userId ← fallbackSessions s !! token;
  if String.eqb userId "" then None
  else
    user ← Map_get userId (fallbackUsers s);
    Some (safe user).

Definition getUserByTokenAsync (token : option string) (s : State) : option User :=
  if noToken token then None
  else
    let token := default "" token in
    match pool s with
    | Some t =>
        userId ← sessions t !! token;
        row ← users t !! userId;
        Some (mapUser row)
    | None => tokenFallback token s
    end.

Definition invalidateTokenAsync (token : string) (s : State) : State :=
  if String.eqb token "" then s
  else
    match pool s with
    | Some t => with_pool s (Some (mkTables (users t) (delete token (sessions t))))
    | None => with_fallbackSessions s (delete token (fallbackSessions s))
    end.

(** The call of [invalidateTokenAsync] is not awaited; it is taken to
    have run. *)
Definition invalidateToken (token : string) (s : State) : State :=
  let s1 := with_fallbackSessions s (delete token (fallbackSessions s)) in
  if String.eqb token "" then s1
  else if configured s1 then invalidateTokenAsync token s1
  else s1.

Definition requireManager (token : option string) (s : State) : option User :=
  match getUserByTokenAsync token s with
  | None => None
  | Some user =>
      if negb (match u_role user with manager => true | _ => false end)
         || negb (u_active user)
      then None
      else Some user
  end.

(** [ORDER BY created_at DESC] *)
Definition listUsers (s : State) : list User :=
  match pool s with
  | Some t => map mapUser (JS.sort (byDateDesc created_at) (values (users t)))
  | None => map safe (Map_values (fallbackUsers s))
  end.

Record UserCreateInput := mkUserCreateInput {
  in_username : string;
  in_name : string;
  in_email : string;
  in_role : Role;
  in_password : string;
  in_active : option bool
}.

Definition createUser (input : UserCreateInput) (s : State) : State * result User :=
  match pool s with
  | Some t =>
      let (id, s1) := randomUUID s in
      let (passwordHash, s2) := bcrypt_hash (in_password input) s1 in
      let active := default true (in_active input) in
      let user := mkUser id (in_username input) (in_name input) (in_email input)
                    (in_role input) active in
      match insert_user (mkUserRow user passwordHash (clock_now s2)) t with
      | Ok t' => (with_pool s2 (Some t'), Ok user)
      | Err e => (s2, Err e)
      end
  | None =>
      let (id, s1) := randomUUID s in
      let user := mkUserWithPassword
                    (mkUser id (in_username input) (in_name input) (in_email input)
                       (in_role input) (default true (in_active input)))
                    (in_password input) in
      (with_fallbackUsers s1 (Map_set id user (fallbackUsers s1)), Ok (safe user))
  end.

(** [UserUpdateRequest], with the password a patch may carry. *)
Record UserPatch := mkUserPatch {
  patch_name : option string;
  patch_email : option string;
  patch_role : option Role;
  patch_active : option bool;
  patch_password : option string
}.

(** [{ ...existing, ...patch }], for a patch of the declared type: it has
    no [id] and no [username], and a field that is absent is [None]. *)
Definition patched (existing : UserWithPassword) (patch : UserPatch) : UserWithPassword :=
  mkUserWithPassword
    (mkUser (u_id (safe existing)) (u_username (safe existing))
       (default (u_name (safe existing)) (patch_name patch))
       (default (u_email (safe existing)) (patch_email patch))
       (default (u_role (safe existing)) (patch_role patch))
       (default (u_active (safe existing)) (patch_active patch)))
    (default (password existing) (patch_password patch)).

(** [if (patch.password)]: a password that is there and not empty. *)
Definition newPassword (patch : UserPatch) : option string :=
  match patch_password patch with
  | Some p => if String.eqb p "" then None else Some p
  | None => None
  end.

(** Whether the [UPDATE] has a column to set. *)
Definition hasUpdates (patch : UserPatch) : bool :=
  bool_decide (is_Some (patch_name patch)) || bool_decide (is_Some (patch_email patch))
  || bool_decide (is_Some (patch_role patch)) || bool_decide (is_Some (patch_active patch))
  || bool_decide (is_Some (newPassword patch)).

(** The row after [UPDATE users SET ... WHERE id = ?]. *)
Definition updatedRow (row : UserRow) (patch : UserPatch) (newHash : option Hash) : UserRow :=
  mkUserRow
    (mkUser (u_id (row_user row)) (u_username (row_user row))
       (default (u_name (row_user row)) (patch_name patch))
       (default (u_email (row_user row)) (patch_email patch))
       (default (u_role (row_user row)) (patch_role patch))
       (default (u_active (row_user row)) (patch_active patch)))
    (default (password_hash row) newHash)
    (created_at row).

Definition updateUser (id : string) (patch : UserPatch) (s : State)
    : State * result (option User) :=
  match pool s with
  | Some t =>
      let (newHash, s1) :=
        match newPassword patch with
        | Some p => let (h, s1) := bcrypt_hash p s in (Some h, s1)
        | None => (None, s)
        end in
      if hasUpdates patch then
        match users t !! id with
        | None => (s1, Ok None)
        | Some row =>
            let row' := updatedRow row patch newHash in
            (with_pool s1 (Some (mkTables (<[id := row']> (users t)) (sessions t))),
             Ok (Some (mapUser row')))
        end
      else (s1, Ok (mapUser <$> users t !! id))
  | None =>
      match Map_get id (fallbackUsers s) with
      | None => (s, Ok None)
      | Some existing =>
          let updated := patched existing patch in
          (with_fallbackUsers s (Map_set id updated (fallbackUsers s)),
           Ok (Some (safe updated)))
      end
  end.

Definition deleteUser (id : string) (s : State) : State * bool :=
  match pool s with
  | Some t =>
      (with_pool s (Some (delete_user id t)), bool_decide (is_Some (users t !! id)))
  | None =>
      (with_fallbackUsers s (Map_delete id (fallbackUsers s)),
       Map_has id (fallbackUsers s))
  end.

(** *** Reading the token of a request ([server/routes/auth.ts]) *)

(** [auth.split(" ")] *)
Fixpoint split_words (cur : string) (s : string) : list string :=
  match s with
  | EmptyString => [String.rev cur]
  | String c rest =>
      if Ascii.eqb c " "%char
      then String.rev cur :: split_words "" rest
      else split_words (String c cur) rest
  end.

Definition split_space (s : string) : list string := split_words "" s.

Definition getTokenFromHeader (auth : option string) : option string :=
  match auth with
  | None => None
  | Some a =>
      if String.eqb a "" then None
      else
        let parts := split_space a in
        match parts !! 0%nat with
        | Some type => if String.eqb type "Bearer" then parts !! 1%nat else None
        | None => None
        end
  end.

Definition extractToken (auth queryToken : option string) : option string :=
  match queryToken with
  | Some q => if String.eqb q "" then getTokenFromHeader auth else Some q
  | None => getTokenFromHeader auth
  end.

(** [requireAuth] of [server/routes/accounting.ts]: the user of the token
    of the request, when there is one and it is active (the handler
    answers 401 otherwise). *)
Definition requireAuth (auth queryToken : option string) (s : State) : option User :=
  let token := extractToken auth queryToken in
  if noToken token then None
  else
    match getUserByTokenAsync token s with
    | None => None
    | Some user => if negb (u_active user) then None else Some user
    end.

(** A word without blanks. *)
Fixpoint no_space (s : string) : bool :=
  match s with
  | EmptyString => true
  | String c rest => negb (Ascii.eqb c " "%char) && no_space rest
  end.

(** *** Views and sample states *)

(** The keys of [fallbackUsers] are distinct and each user sits under its
    own [id]. *)
Definition users_keyed (m : list (string * UserWithPassword)) : Prop :=
  NoDup (map fst m) /\ Forall (fun kv => u_id (safe kv.2) = kv.1) m.

(** The rows of [users] sit under their own ids. *)
Definition rows_keyed (t : Tables) : Prop :=
  forall k row, users t !! k = Some row -> u_id (row_user row) = k.

(** The module as it is loaded in a process without a pool. *)
Definition loaded : State :=
  seedFallback (mkState None false [] ∅ 0 0 morning).

(** A pool over an empty [users] table, with the seeded manager in
    memory. *)
Definition loadedWithPool : State :=
  with_pool loaded (Some (mkTables ∅ ∅)).

End Auth.

(** * Properties *)

(** ** The schedule generator *)

Example addMonthsISO_mid_month :
  map (addMonthsISO "2024-01-15") [0; 1; 2; 11; 12] =
  ["2024-01-15"; "2024-02-15"; "2024-03-15"; "2024-12-15"; "2025-01-15"].
Proof. vm_compute. reflexivity. Qed.

(** The calendar of [Date]: every date from 1990 to 2040 is read back from
    its day number. *)
Example newDate_reads_back :
  forallb Calendar.reads_back (Calendar.dates 1990 2040) = true.
Proof. vm_compute. reflexivity. Qed.

(** Over every start date of 2024 and every count of months from 0 to 12,
    [addMonthsISO] gives the sum with the day clamped exactly when
    the day needs no clamping: a day past the end of the resulting month is
    never clamped but carried into the month after. *)
Example addMonthsISO_right_unless_clamped :
  forallb Calendar.agrees_iff_fits (Calendar.cases 2024 2024 12) = true.
Proof. vm_compute. reflexivity. Qed.

(** C1 (the code departs from the claim).  For months = 6, monthlyAmount =
    1000 and firstDueDate = 2024-01-31 the generator gives six rows of
    amount 1000, none paid, sorted by due date, but the due dates are
    2024-01-31, 2024-03-31, 2024-03-31, 2024-05-31, 2024-05-31, 2024-07-31:
    [new Date(2024, 1, 31)] has already moved on to 2 March before the day
    is clamped to the length of the month, so February, April and June are
    skipped and March and May come twice, where the claim has 2024-02-29,
    2024-04-30 and 2024-06-30. *)
Theorem createInstallmentsForSale_end_of_month_skips :
  addMonthsISO "2024-01-31" 1 = "2024-03-31" /\
  match (createInstallmentsForSale sixMonths blankMemory).2 with
  | Ok l =>
      map inst_dueDate l =
        ["2024-01-31"; "2024-03-31"; "2024-03-31"; "2024-05-31"; "2024-05-31";
         "2024-07-31"] /\
      map inst_dueDate l <>
        ["2024-01-31"; "2024-02-29"; "2024-03-31"; "2024-04-30"; "2024-05-31";
         "2024-06-30"] /\
      map inst_amount l = [1000; 1000; 1000; 1000; 1000; 1000] /\
      map inst_paid l = [false; false; false; false; false; false]
  | Err _ => False
  end.
Proof. vm_compute. repeat split; discriminate. Qed.

(** ** Sorting *)

Section SortFacts.
Context {A : Type} (cmp : A -> A -> comparison).

Lemma sort_insert_perm x l : JS.sort_insert cmp x l ≡ₚ x :: l.
Proof.
  induction l as [|y l IH]; simpl; [done|].
  destruct (cmp x y); try done.
  all: rewrite IH; apply Permutation_swap.
Qed.

Lemma sort_from_perm l acc :
  fold_left (fun acc x => JS.sort_insert cmp x acc) l acc ≡ₚ l ++ acc.
Proof.
  revert acc; induction l as [|x l IH]; intros acc; simpl; [done|].
  rewrite IH, sort_insert_perm. by rewrite Permutation_middle.
Qed.

Lemma sort_perm l : JS.sort cmp l ≡ₚ l.
Proof. unfold JS.sort. rewrite sort_from_perm. by rewrite app_nil_r. Qed.

Lemma sort_length l : length (JS.sort cmp l) = length l.
Proof. by rewrite sort_perm. Qed.
End SortFacts.

Lemma sumAmounts_constant m l :
  Forall (fun i => inst_amount i = m) l -> sumAmounts l = Z.of_nat (length l) * m.
Proof.
  induction 1 as [|i l Hi _ IH]; simpl; [lia|]. rewrite IH, Hi. lia.
Qed.

(** ** Running the operations *)

Lemma bind_ok {A B} (m : M A) (k : A -> M B) w w' a :
  m w = (w', Ok a) -> (m ≫= k) w = k a w'.
Proof. intros H. unfold mbind, M_bind, bind. by rewrite H. Qed.

Lemma createInstallment_runs params pool i w :
  exists w' inst,
    createInstallment params pool i w = (w', Ok inst) /\
    inst = mkInstallment (uuid (uuids w)) (ip_projectId params) (ip_saleId params)
             (ip_unitNo params) (ip_buyer params) (ip_monthlyAmount params)
             (addMonthsISO (ip_firstDueDate params) i) false None /\
    uuids w' = N.succ (uuids w) /\
    fallbackStore w' =
      set_installments (fallbackStore w)
        (<[uuid (uuids w) := inst]> (installments (fallbackStore w))).
Proof.
  destruct w as [b f n t]. unfold createInstallment. mstep.
  destruct pool; unfold swallow, Sql.run; mstep.
  - destruct b as [d|]; [destruct (Sql.insert_project_installment _ d)|]; mstep; eauto 10.
  - eauto 10.
Qed.

Lemma forM_createInstallment_runs params pool l w :
  exists w' out,
    forM (createInstallment params pool) l w = (w', Ok out) /\
    length out = length l /\
    Forall (fun i => inst_amount i = ip_monthlyAmount params /\ inst_paid i = false) out.
Proof.
  revert w; induction l as [|i l IH]; intros w; simpl.
  - exists w, []. by repeat split.
  - destruct (createInstallment_runs params pool i w) as (w1 & inst & H1 & Hinst & _).
    destruct (IH w1) as (w2 & out & H2 & Hlen & Hall).
    exists w2, (inst :: out).
    rewrite (bind_ok _ _ _ _ _ H1), (bind_ok _ _ _ _ _ H2).
    repeat split; [simpl; congruence|].
    constructor; [by subst inst|done].
Qed.

Lemma createInstallmentsForSale_runs params w :
  exists w' l,
    createInstallmentsForSale params w = (w', Ok l) /\
    length l = Z.to_nat (ip_months params) /\
    Forall (fun i => inst_amount i = ip_monthlyAmount params /\ inst_paid i = false) l.
Proof.
  unfold createInstallmentsForSale.
  set (pool := bool_decide (is_Some (backend w))).
  assert (Hp : getMysqlPool w = (w, Ok pool)) by done.
  destruct (forM_createInstallment_runs params pool (seqZ 0 (ip_months params)) w)
    as (w' & out & H & Hlen & Hall).
  exists w', (JS.sort byDueDate out).
  rewrite (bind_ok _ _ _ _ _ Hp), (bind_ok _ _ _ _ _ H).
  repeat split.
  - rewrite sort_length, Hlen. apply length_seqZ.
  - by rewrite sort_perm.
Qed.

(** The list [createInstallmentsForSale] returns is in ascending order of
    due date (the order of the strings). *)

Lemma compareAsc_Lt a b : compareAsc a b = Lt -> String.leb a b = true.
Proof.
  unfold compareAsc, String.ltb, String.leb.
  destruct (String.eqb a b); [done|]. by destruct (String.compare a b).
Qed.

Lemma compareAsc_not_Lt a b : compareAsc a b <> Lt -> String.leb b a = true.
Proof.
  unfold compareAsc, String.ltb, String.leb. rewrite (String.compare_antisym b a).
  destruct (String.eqb_spec a b) as [->|_].
  - intros _. pose proof (String.compare_antisym b b) as H.
    by destruct (String.compare b b).
  - by destruct (String.compare a b).
Qed.

Lemma sort_insert_HdRel y x l :
  dueOrder y x -> HdRel dueOrder y l -> HdRel dueOrder y (JS.sort_insert byDueDate x l).
Proof.
  intros Hyx Hl. destruct l as [|z l]; simpl; [by constructor|].
  destruct (byDueDate x z); constructor; try done; by inversion Hl.
Qed.

Lemma sort_insert_Sorted x l :
  Sorted dueOrder l -> Sorted dueOrder (JS.sort_insert byDueDate x l).
Proof.
  induction 1 as [|y l Hl IH Hy]; simpl; [by repeat constructor|].
  destruct (byDueDate x y) eqn:Hxy.
  - constructor; [done|]. apply sort_insert_HdRel; [|done].
    apply compareAsc_not_Lt. unfold byDueDate in Hxy. congruence.
  - repeat constructor; try done. by apply compareAsc_Lt.
  - constructor; [done|]. apply sort_insert_HdRel; [|done].
    apply compareAsc_not_Lt. unfold byDueDate in Hxy. congruence.
Qed.

Lemma sort_Sorted l : Sorted dueOrder (JS.sort byDueDate l).
Proof.
  unfold JS.sort. generalize (Sorted_nil dueOrder).
  generalize (@nil Installment) as acc.
  induction l as [|x l IH]; intros acc Hacc; simpl; [done|].
  apply IH. by apply sort_insert_Sorted.
Qed.

Lemma createInstallmentsForSale_sorted params w w' l :
  createInstallmentsForSale params w = (w', Ok l) -> Sorted dueOrder l.
Proof.
  intros H. unfold createInstallmentsForSale in H.
  rewrite (bind_ok _ _ w w (bool_decide (is_Some (backend w)))) in H by done.
  destruct (forM_createInstallment_runs params (bool_decide (is_Some (backend w)))
              (seqZ 0 (ip_months params)) w) as (w1 & out & Hout & _).
  rewrite (bind_ok _ _ _ _ _ Hout) in H. injection H as _ <-. apply sort_Sorted.
Qed.

Lemma run_ok s d d' f n t :
  s d = Ok d' ->
  Sql.run s (mkWorld (Some d) f n t) = (mkWorld (Some d') f n t, Ok tt).
Proof. intros H. unfold Sql.run. simpl. by rewrite H. Qed.

Lemma select_ok {A} (q : Database -> A) d f n t :
  Sql.select q (mkWorld (Some d) f n t) = (mkWorld (Some d) f n t, Ok (q d)).
Proof. done. Qed.

Lemma draw_ok b f n t :
  draw (mkWorld b f n t) = (mkWorld b f (N.succ n) t, Ok (uuid n)).
Proof. done. Qed.



Lemma inTransaction_ok {A} (body : M A) w w' a :
  body w = (w', Ok a) -> inTransaction body w = (w', Ok a).
Proof. intros H. unfold inTransaction. by rewrite H. Qed.

Lemma fresh_key_true {V} id (table : gmap string V) :
  table !! id = None -> Sql.fresh_key id table = true.
Proof. intros H. unfold Sql.fresh_key. by rewrite bool_decide_eq_true. Qed.

Lemma has_key_true {V} id (table : gmap string V) :
  is_Some (table !! id) -> Sql.has_key id table = true.
Proof. intros H. unfold Sql.has_key. by rewrite bool_decide_eq_true. Qed.

Lemma insert_transaction_ok row d :
  db_transactions d !! tx_id row = None ->
  match tx_createdBy row with Some u => u ∈ db_users d | None => True end ->
  Sql.insert_transaction row d =
    Ok (set_db_transactions d (<[tx_id row := row]> (db_transactions d))).
Proof.
  intros Hfresh Hactor. unfold Sql.insert_transaction.
  rewrite (fresh_key_true _ _ Hfresh). simpl.
  destruct (tx_createdBy row); [|done].
  by rewrite bool_decide_eq_true_2.
Qed.


Lemma insertTransactionDb_runs input d f n t :
  db_transactions d !! uuid n = None ->
  actor_known (mkWorld (Some d) f n t) (tci_createdBy input) ->
  insertTransactionDb input (mkWorld (Some d) f n t) =
    (mkWorld (Some (set_db_transactions d
                      (<[uuid n := transactionRow input (uuid n) t]> (db_transactions d))))
       f (N.succ n) t,
     Ok (mapTransactionRow (transactionRow input (uuid n) t))).
Proof.
  intros Hfresh Hactor. unfold insertTransactionDb.
  rewrite (bind_ok _ _ _ _ _ (draw_ok _ _ _ _)).
  unfold clock at 1. unfold mbind at 1, M_bind at 1, bind at 1.
  cbn [now].
  erewrite bind_ok; cycle 1.
  { apply run_ok. apply (insert_transaction_ok (transactionRow input (uuid n) t));
      [done|]. simpl. unfold actor_known in Hactor. simpl in Hactor.
    by destruct (tci_createdBy input). }
  rewrite (bind_ok _ _ _ _ _ (select_ok _ _ _ _ _)).
  simpl. rewrite lookup_insert_eq. done.
Qed.

Lemma createTransactionFallback_runs input b f n t :
  createTransactionFallback input (mkWorld b f n t) =
    (mkWorld b (set_transactions f
                  (<[uuid n := transactionRow input (uuid n) t]> (transactions f)))
       (N.succ n) t,
     Ok (transactionRow input (uuid n) t)).
Proof. done. Qed.

Lemma installmentsOfPlan_runs input saleId w :
  hasPlan input = true ->
  exists w' l,
    installmentsOfPlan input saleId w = (w', Ok (Some l)) /\
    length l = Z.to_nat (default 0 (psc_months input)) /\
    Forall (fun i => inst_amount i = default 0 (psc_monthlyAmount input)
                     /\ inst_paid i = false) l.
Proof.
  intros Hplan. unfold installmentsOfPlan. rewrite Hplan.
  destruct (createInstallmentsForSale_runs (planOf input saleId) w)
    as (w' & l & H & Hlen & Hall).
  exists w', l. rewrite (bind_ok _ _ _ _ _ H). done.
Qed.

Lemma insert_project_sale_ok s d :
  db_project_sales d !! sale_id s = None ->
  is_Some (db_projects d !! sale_projectId s) ->
  Sql.insert_project_sale s d =
    Ok (set_db_project_sales d (<[sale_id s := s]> (db_project_sales d))).
Proof.
  intros Hfresh Hproject. unfold Sql.insert_project_sale.
  by rewrite (fresh_key_true _ _ Hfresh), (has_key_true _ _ Hproject).
Qed.

Lemma createProjectSale_runs input w :
  hasPlan input = true ->
  fresh_ids w -> project_known w (psc_projectId input) ->
  actor_known w (psc_createdBy input) ->
  exists w' r l,
    createProjectSale input w = (w', Ok r) /\
    psr_installments r = Some l /\
    length l = Z.to_nat (default 0 (psc_months input)) /\
    Forall (fun i => inst_amount i = default 0 (psc_monthlyAmount input)
                     /\ inst_paid i = false) l.
Proof.
  intros Hplan Hfresh Hproject Hactor.
  destruct w as [[d|] f n t]; unfold createProjectSale;
    unfold getMysqlPool at 1; unfold mbind at 1, M_bind at 1, bind at 1;
    cbn [backend bool_decide decide_rel negb]; simpl negb.
  - assert (Hn : unused_in_tables d (uuid n)) by (apply (Hfresh n); simpl; lia).
    assert (Hn1 : unused_in_tables d (uuid (N.succ n))) by (apply (Hfresh (N.succ n)); simpl; lia).
    destruct Hn as (_ & _ & _ & _ & _ & Hsale & _).
    destruct Hn1 as (Htx & _).
    set (sale := mkProjectSale (uuid n) (psc_projectId input) (psc_unitNo input)
                   (psc_buyer input) (psc_price input) (psc_date input)
                   (orNull (psc_terms input)) (orNull (psc_area input))
                   (orNull (psc_paymentMethod input))).
    set (d1 := set_db_project_sales d (<[uuid n := sale]> (db_project_sales d))).
    set (tin := mkTransactionCreateInput (psc_date input) revenue (saleDescription input)
                  (immediateAmount input) (psc_approved input) (psc_createdBy input)).
    destruct (installmentsOfPlan_runs input (uuid n)
                (mkWorld (Some (set_db_transactions d1
                   (<[uuid (N.succ n) := transactionRow tin (uuid (N.succ n)) t]>
                      (db_transactions d1)))) f (N.succ (N.succ n)) t) Hplan)
      as (w' & l & Hl & Hlen & Hall).
    exists w', (mkProjectSaleCreateResult (mapProjectSaleRow sale)
                  (mapTransactionRow (transactionRow tin (uuid (N.succ n)) t)) (Some l)), l.
    split; [|done].
    apply inTransaction_ok.
    rewrite (bind_ok _ _ _ _ _ (draw_ok _ _ _ _)).
    erewrite bind_ok; cycle 1.
    { apply run_ok. apply (insert_project_sale_ok sale); [done|exact Hproject]. }
    rewrite (bind_ok _ _ _ _ _ (select_ok _ _ _ _ _)).
    erewrite bind_ok; cycle 1.
    { apply insertTransactionDb_runs; [exact Htx|exact Hactor]. }
    fold sale d1 tin. rewrite (bind_ok _ _ _ _ _ Hl).
    simpl db_project_sales. rewrite lookup_insert_eq. done.
  - simpl.
    set (sale := mkProjectSale (uuid n) (psc_projectId input) (psc_unitNo input)
                   (psc_buyer input) (psc_price input) (psc_date input)
                   (psc_terms input) (psc_area input) (psc_paymentMethod input)).
    set (tin := mkTransactionCreateInput (psc_date input) revenue (saleDescription input)
                  (immediateAmount input) (psc_approved input) (psc_createdBy input)).
    destruct (installmentsOfPlan_runs input (uuid n)
                (mkWorld None
                   (set_transactions (set_sales f (<[uuid n := sale]> (sales f)))
                      (<[uuid (N.succ n) := transactionRow tin (uuid (N.succ n)) t]>
                         (transactions (set_sales f (<[uuid n := sale]> (sales f))))))
                   (N.succ (N.succ n)) t) Hplan)
      as (w' & l & Hl & Hlen & Hall).
    exists w', (mkProjectSaleCreateResult sale
                  (transactionRow tin (uuid (N.succ n)) t) (Some l)), l.
    split; [|done].
    rewrite (bind_ok _ _ _ _ _ (draw_ok _ _ _ _)).
    unfold updateFallback at 1. unfold mbind at 1, M_bind at 1, bind at 1.
    unfold with_fallback; cbn [backend fallbackStore uuids now sale_id].
    rewrite (bind_ok _ _ _ _ _ (createTransactionFallback_runs _ _ _ _ _)).
    fold sale tin. simpl sale_id. rewrite (bind_ok _ _ _ _ _ Hl). done.
Qed.

(** C5 (amended).  A sale with a plan of [n > 0] months of [m > 0] gives a
    batch of [n] installments of [m] each, whose amounts add up to
    [n * m], whatever the price and the down payment are. *)
Theorem createProjectSale_batch_total input w m n first :
  psc_monthlyAmount input = Some m -> psc_months input = Some n ->
  psc_firstDueDate input = Some first -> 0 < m -> 0 < n -> first <> "" ->
  fresh_ids w -> project_known w (psc_projectId input) ->
  actor_known w (psc_createdBy input) ->
  exists w' r l,
    createProjectSale input w = (w', Ok r) /\
    psr_installments r = Some l /\
    length l = Z.to_nat n /\
    Forall (fun i => inst_amount i = m) l /\
    sumAmounts l = n * m.
Proof.
  intros Hm Hn Hfirst Hmpos Hnpos Hne Hfresh Hproject Hactor.
  assert (Hplan : hasPlan input = true).
  { unfold hasPlan. rewrite Hm, Hn, Hfirst. simpl.
    destruct (Z.eqb_spec m 0); [lia|]. destruct (Z.eqb_spec n 0); [lia|].
    simpl. destruct (String.eqb_spec first ""); done. }
  destruct (createProjectSale_runs input w Hplan Hfresh Hproject Hactor)
    as (w' & r & l & Hrun & Hr & Hlen & Hall).
  rewrite Hn in Hlen. rewrite Hm in Hall. simpl in Hlen, Hall.
  exists w', r, l. repeat split; try done.
  - eapply Forall_impl; [exact Hall|]. by intros i [? _].
  - rewrite (sumAmounts_constant m).
    + rewrite Hlen. rewrite Z2Nat.id; lia.
    + eapply Forall_impl; [exact Hall|]. by intros i [? _].
Qed.

Lemma createProjectSale_batch_total_witness :
  exists w' r l,
    createProjectSale saleOnCredit estateDatabase = (w', Ok r) /\
    psr_installments r = Some l /\
    length l = Z.to_nat 6 /\
    Forall (fun i => inst_amount i = 1000) l /\
    sumAmounts l = 6 * 1000.
Proof.
  apply (createProjectSale_batch_total saleOnCredit estateDatabase 1000 6 "2024-02-01").
  - reflexivity.
  - reflexivity.
  - reflexivity.
  - lia.
  - lia.
  - discriminate.
  - fresh_sample.
  - unfold project_known. simpl. exists projectP1. reflexivity.
  - exact I.
Defined.

(** C5 fails as stated: for a price of 10000 with 1000 down and six months
    of 1000, the batch adds up to 6000 and not to 10000 - 1000. *)
Lemma createProjectSale_batch_not_balance :
  match (createProjectSale saleOnCredit blankMemory).2 with
  | Ok r =>
      exists l, psr_installments r = Some l /\ sumAmounts l = 6000 /\
                sumAmounts l <> psc_price saleOnCredit - 1000
  | Err _ => False
  end.
Proof. vm_compute. eexists. repeat split. discriminate. Qed.

(** ** Deleting a project *)

(** C3 (the code departs from the claim).  Without a backend,
    [deleteProject] removes the project, its costs and its sales from the
    in-memory maps and leaves every installment where it was: after
    deleting P1, which owns C1, C2, S1, I1 and I2, the records P1, C1, C2
    and S1 are gone, P2, C9 and S9 are untouched, and I1 and I2 are still
    stored.  Over the tables the same call removes the rows I1 and I2 as
    well (the in-memory map is left alone on that side too). *)
Theorem deleteProject_memory_keeps_installments :
  (forall id w,
     installments (fallbackStore (after (deleteProject id) w))
     = installments (fallbackStore w)) /\
  (deleteProject "P1" estateMemory).2 = Ok tt /\
  (let f := fallbackStore (after (deleteProject "P1") estateMemory) in
   projects f = {["P2" := projectP2]} /\
   costs f = {["C9" := costC9]} /\
   sales f = {["S9" := saleS9]} /\
   installments f !! "I1" = Some installmentI1 /\
   installments f !! "I2" = Some installmentI2) /\
  (deleteProject "P1" estateDatabase).2 = Ok tt /\
  backend (after (deleteProject "P1") estateDatabase) =
    Some (mkDatabase {["U1"]} ∅ ∅ ∅ {["P2" := projectP2]} {["C9" := costC9]}
            {["S9" := saleS9]} {["I9" := installmentI9]} ∅).
Proof.
  split.
  { intros id [[d|] f n t]; unfold after, deleteProject, inTransaction, Sql.select,
      Sql.run, Sql.delete_project_sales, Sql.delete_project_costs; mstep; simpl.
    - destruct (db_projects d !! id); simpl; [|reflexivity].
      unfold Sql.delete_project. simpl.
      by destruct (db_projects d !! id).
    - destruct (projects f !! id); reflexivity. }
  vm_compute. repeat split; reflexivity.
Qed.

(** ** Inventory receipts and issues *)







(** Beyond it, it is not: 2^53 + 5 is no double, and the sum that should
    give it gives 2^53 + 4. *)
Example plus_rounds : JS.plus 5 9007199254740992 = 9007199254740996.
Proof. vm_compute. reflexivity. Qed.

(** So a receipt of 2^53 bags on the five in stock stores 2^53 + 4. *)
Example recordInventoryReceipt_rounds :
  (item_quantity <$>
   stock (after (recordInventoryReceipt
                   (mkInventoryMovementInput "ITEM-1" 9007199254740992 1 "Depot"
                      "2024-01-02" true None)) warehouseMemory) !! "ITEM-1")
  = Some 9007199254740996.
Proof. vm_compute. reflexivity. Qed.


(** Beyond the range the difference rounds as well: a stock of 2^53 + 2
    less 1 is a stock of 2^53. *)
Example minus_rounds : JS.minus 9007199254740994 1 = 9007199254740992.
Proof. vm_compute. reflexivity. Qed.

Example recordInventoryIssue_rounds :
  (item_quantity <$>
   stock (after (recordInventoryIssue
                   (mkInventoryMovementInput "ITEM-1" 1 1 "Tower" "2024-01-02" true None))
            (mkWorld None
               (mkFallbackStore ∅
                  {["ITEM-1" := mkInventoryItem "ITEM-1" "Cement" 9007199254740994 "bag" 2
                                  "2024-01-01"]} ∅ ∅ ∅ ∅ ∅) 0 morning)) !! "ITEM-1")
  = Some 9007199254740992.
Proof. vm_compute. reflexivity. Qed.




(** ** Deleting what is not there *)

(** C9 (the code departs from the claim).  [deleteInventoryItem] never
    throws: for an id that matches no item it returns normally, over the
    in-memory maps and over the tables alike, where the claim has a
    not-found error.  [deleteTransaction] returns normally as well for a
    missing id when a backend is there; it throws "Transaction not found"
    only over the in-memory map, as [deleteProject] does on both sides. *)
Theorem deleteInventoryItem_never_throws :
  (forall id w, (deleteInventoryItem id w).2 = Ok tt) /\
  (forall id d f n t, (deleteTransaction id (mkWorld (Some d) f n t)).2 = Ok tt) /\
  deleteInventoryItem "missing" warehouseMemory = (warehouseMemory, Ok tt) /\
  deleteInventoryItem "missing" warehouseDatabase = (warehouseDatabase, Ok tt) /\
  deleteTransaction "missing" warehouseDatabase = (warehouseDatabase, Ok tt) /\
  deleteTransaction "missing" warehouseMemory =
    (warehouseMemory, Err "Transaction not found") /\
  deleteProject "missing" warehouseMemory = (warehouseMemory, Err "Project not found") /\
  deleteProject "missing" warehouseDatabase =
    (warehouseDatabase, Err "Project not found").
Proof.
  split; [|split].
  - intros id [[d|] f n t]; unfold deleteInventoryItem; mstep; simpl; [|done].
    unfold Sql.run, Sql.delete_inventory_item. simpl.
    by destruct (db_inventory_items d !! id).
  - intros id d f n t. unfold deleteTransaction. mstep. simpl. done.
  - vm_compute. repeat split; reflexivity.
Qed.

(** ** Settling an installment *)

(** C10.  [payInstallment] looks the id up in the in-memory map only: for
    an id absent from that map it throws "Installment not found" and
    changes nothing, whatever the backend is and whatever the tables
    hold.  An installment that only the tables hold cannot be settled. *)
Theorem payInstallment_reads_memory_only params w :
  installments (fallbackStore w) !! pay_id params = None ->
  payInstallment params w = (w, Err "Installment not found").
Proof.
  intros H. destruct w as [b f n t]. unfold payInstallment. mstep. simpl in *.
  by rewrite H.
Qed.

Lemma payInstallment_reads_memory_only_witness :
  db_project_installments estateTables !! "I1" = Some installmentI1 /\
  payInstallment settleI1 estateDatabase =
    (estateDatabase, Err "Installment not found").
Proof.
  split.
  - reflexivity.
  - apply (payInstallment_reads_memory_only settleI1 estateDatabase). reflexivity.
Defined.

(** ** No operation unsettles an installment *)

Lemma keeps_settled_refl w : keeps_settled w w.
Proof. split; [lia|done]. Qed.

Lemma keeps_settled_trans w1 w2 w3 :
  keeps_settled w1 w2 -> keeps_settled w2 w3 -> keeps_settled w1 w3.
Proof. intros [? H1] [? H2]. split; [lia|]. intros k Hk. by apply H2, H1. Qed.

(** A step that touches neither the in-memory installments nor the
    counter. *)
Lemma steady_same {A} (m : M A) :
  (forall w, fallbackStore (m w).1 = fallbackStore w /\ uuids (m w).1 = uuids w) ->
  steady m.
Proof.
  intros H w [Hkeyed Hfresh]. destruct (H w) as [Hf Hn].
  split; [split|split].
  - unfold installments_keyed. by rewrite Hf.
  - rewrite Hf, Hn. exact Hfresh.
  - lia.
  - unfold settled. by rewrite Hf.
Qed.

Lemma steady_ret {A} (a : A) : steady (ret a).
Proof. by apply steady_same. Qed.

Lemma steady_throw {A} e : steady (@throw A e).
Proof. by apply steady_same. Qed.

Lemma steady_clock : steady clock.
Proof. by apply steady_same. Qed.

Lemma steady_getFallback : steady getFallback.
Proof. by apply steady_same. Qed.

Lemma steady_getMysqlPool : steady getMysqlPool.
Proof. by apply steady_same. Qed.

Lemma steady_first_row {A} (row : option A) : steady (first_row row).
Proof. destruct row; [apply steady_ret|apply steady_throw]. Qed.

Lemma steady_select {A} (q : Database -> A) : steady (Sql.select q).
Proof.
  apply steady_same. intros [[d|] f n t]; by unfold Sql.select.
Qed.

Lemma steady_run s : steady (Sql.run s).
Proof.
  apply steady_same. intros [[d|] f n t]; unfold Sql.run; simpl; [|done].
  by destruct (s d).
Qed.

Lemma steady_draw : steady draw.
Proof.
  intros [b f n t] [Hkeyed Hfresh]. simpl in *.
  split; [split|split]; simpl.
  - done.
  - intros m Hm. apply Hfresh. lia.
  - lia.
  - done.
Qed.

Lemma steady_bind {A B} (m : M A) (k : A -> M B) :
  steady m -> (forall a, steady (k a)) -> steady (m ≫= k).
Proof.
  intros Hm Hk w Hw. destruct (Hm w Hw) as [Hw1 H1].
  unfold mbind, M_bind, bind. destruct (m w) as [w1 [a|e]]; simpl in *; [|done].
  destruct (Hk a w1 Hw1) as [Hw2 H2].
  split; [done|]. by eapply keeps_settled_trans.
Qed.

Lemma steady_inTransaction {A} (body : M A) : steady body -> steady (inTransaction body).
Proof.
  intros Hbody w Hw. destruct (Hbody w Hw) as [Hw1 H1].
  unfold inTransaction. destruct (body w) as [w1 [a|e]]; simpl in *; done.
Qed.

Lemma steady_swallow (body : M unit) : steady body -> steady (swallow body).
Proof.
  intros Hbody w Hw. destruct (Hbody w Hw) as [Hw1 H1].
  unfold swallow. destruct (body w) as [w1 [a|e]]; simpl in *; done.
Qed.

Lemma steady_updateFallback g :
  (forall f, installments (g f) = installments f) -> steady (updateFallback g).
Proof.
  intros Hg [b f n t] [Hkeyed Hfresh].
  unfold installments_wf, installments_keyed, keeps_settled, settled in *.
  simpl in *. rewrite Hg. repeat split; first [done | lia].
Qed.

Lemma steady_forM {A B} (f : A -> M B) l :
  (forall x, steady (f x)) -> steady (forM f l).
Proof.
  intros Hf. induction l as [|x l IH]; simpl.
  - apply steady_ret.
  - apply steady_bind; [apply Hf|]. intros y.
    apply steady_bind; [apply IH|]. intros ys. apply steady_ret.
Qed.

Lemma uuid_inj n m : uuid n = uuid m -> n = m.
Proof. unfold uuid. intros H. simplify_eq. by apply (inj pretty). Qed.

Lemma steady_createInstallment params pool i : steady (createInstallment params pool i).
Proof.
  intros [b f n t] [Hkeyed Hfresh].
  destruct (createInstallment_runs params pool i (mkWorld b f n t))
    as (w' & inst & Hrun & Hinst & Hn & Hf).
  rewrite Hrun. simpl in *.
  assert (Hnew : installments f !! uuid n = None) by (apply Hfresh; lia).
  unfold installments_wf, installments_keyed, keeps_settled, settled.
  rewrite Hf, Hn. simpl. repeat split.
  - intros k i0. rewrite lookup_insert. case_decide as Hk.
    + intros [= <-]. by subst inst.
    + apply Hkeyed.
  - intros m Hm. rewrite lookup_insert_ne.
    + apply Hfresh. lia.
    + intros Heq. apply uuid_inj in Heq. lia.
  - lia.
  - intros k (i0 & Hi0 & Hpaid). exists i0. split; [|done].
    rewrite lookup_insert_ne; [done|]. intros <-. congruence.
Qed.

Ltac steady_step :=
  lazymatch goal with
  | |- steady (_ ≫= _) => apply steady_bind; [|intros ?]
  | |- steady (ret _) => apply steady_ret
  | |- steady (mret _) => apply steady_ret
  | |- steady (throw _) => apply steady_throw
  | |- steady draw => apply steady_draw
  | |- steady clock => apply steady_clock
  | |- steady getFallback => apply steady_getFallback
  | |- steady getMysqlPool => apply steady_getMysqlPool
  | |- steady (first_row _) => apply steady_first_row
  | |- steady (Sql.select _) => apply steady_select
  | |- steady (Sql.run _) => apply steady_run
  | |- steady (inTransaction _) => apply steady_inTransaction
  | |- steady (swallow _) => apply steady_swallow
  | |- steady (updateFallback _) => apply steady_updateFallback; intros ?; reflexivity
  | |- steady (forM _ _) => apply steady_forM; intros ?
  | |- steady (if ?b then _ else _) => destruct b
  | |- steady (match ?x with _ => _ end) => destruct x
  | |- steady (let _ := _ in _) => cbv zeta
  end.

Ltac steady_all := repeat steady_step.

Lemma steady_createTransactionFallback input : steady (createTransactionFallback input).
Proof. unfold createTransactionFallback. steady_all. Qed.

Lemma steady_insertTransactionDb input : steady (insertTransactionDb input).
Proof. unfold insertTransactionDb. steady_all. Qed.

Lemma steady_createTransaction input : steady (createTransaction input).
Proof.
  unfold createTransaction. steady_all;
    [apply steady_createTransactionFallback|apply steady_insertTransactionDb].
Qed.

Lemma steady_approveTransaction id : steady (approveTransaction id).
Proof. unfold approveTransaction. steady_all. Qed.

Lemma steady_deleteTransaction id : steady (deleteTransaction id).
Proof. unfold deleteTransaction. steady_all. Qed.

Lemma steady_createInventoryItem input : steady (createInventoryItem input).
Proof. unfold createInventoryItem. steady_all. Qed.

Lemma steady_deleteInventoryItem id : steady (deleteInventoryItem id).
Proof. unfold deleteInventoryItem. steady_all. Qed.

Lemma steady_getItemRowForUpdate id : steady (getItemRowForUpdate id).
Proof. unfold getItemRowForUpdate. steady_all. Qed.

Lemma steady_recordInventoryReceipt input : steady (recordInventoryReceipt input).
Proof.
  unfold recordInventoryReceipt.
  steady_all;
    first [apply steady_createTransactionFallback | apply steady_insertTransactionDb
          | apply steady_getItemRowForUpdate].
Qed.

Lemma steady_recordInventoryIssue input : steady (recordInventoryIssue input).
Proof.
  unfold recordInventoryIssue.
  steady_all;
    first [apply steady_createTransactionFallback | apply steady_insertTransactionDb
          | apply steady_getItemRowForUpdate].
Qed.

Lemma steady_createProject input : steady (createProject input).
Proof. unfold createProject. steady_all. Qed.

Lemma steady_deleteProject id : steady (deleteProject id).
Proof. unfold deleteProject. steady_all. Qed.

Lemma steady_createProjectCost input : steady (createProjectCost input).
Proof.
  unfold createProjectCost.
  steady_all;
    first [apply steady_createTransactionFallback | apply steady_insertTransactionDb].
Qed.

Lemma steady_createInstallmentsForSale params : steady (createInstallmentsForSale params).
Proof.
  unfold createInstallmentsForSale. steady_all. apply steady_createInstallment.
Qed.

Lemma steady_installmentsOfPlan input saleId : steady (installmentsOfPlan input saleId).
Proof.
  unfold installmentsOfPlan. steady_all. apply steady_createInstallmentsForSale.
Qed.

Lemma steady_createProjectSale input : steady (createProjectSale input).
Proof.
  unfold createProjectSale.
  steady_all;
    first [apply steady_createTransactionFallback | apply steady_insertTransactionDb
          | apply steady_installmentsOfPlan].
Qed.

Lemma steady_createInstallmentReminder id note : steady (createInstallmentReminder id note).
Proof. unfold createInstallmentReminder. steady_all. Qed.

Lemma steady_getDueInstallments asOfDate : steady (getDueInstallments asOfDate).
Proof. unfold getDueInstallments, asOf, dueFallback. steady_all. Qed.

Lemma steady_runOnce : steady runOnce.
Proof.
  unfold runOnce. steady_all;
    [apply steady_getDueInstallments | apply steady_createInstallmentReminder].
Qed.

Lemma steady_payInstallment params : steady (payInstallment params).
Proof.
  intros w Hw. unfold payInstallment.
  rewrite (bind_ok _ _ w w (fallbackStore w)) by reflexivity. cbv beta.
  destruct (installments (fallbackStore w) !! pay_id params) as [inst|] eqn:Hinst;
    [|exact (steady_throw _ w Hw)].
  cbv zeta. destruct (inst_paid inst) eqn:Hpaid.
  - lazymatch goal with
    | |- installments_wf (?m w).1 /\ _ =>
        assert (Hs : steady m) by (steady_all; apply steady_createTransaction)
    end.
    exact (Hs w Hw).
  - set (updated := mkInstallment _ _ _ _ _ _ _ true _).
    set (w1 := with_fallback w
                 (set_installments (fallbackStore w)
                    (<[inst_id updated := updated]> (installments (fallbackStore w))))).
    rewrite (bind_ok _ _ w w1 tt) by reflexivity.
    assert (Hw1 : installments_wf w1 /\ keeps_settled w w1).
    { destruct w as [b f n t]. destruct Hw as [Hkeyed Hfresh].
      assert (Hkey : inst_id inst = pay_id params) by (by apply Hkeyed).
      subst w1. unfold installments_wf, installments_keyed, keeps_settled, settled.
      simpl in *. rewrite Hkey. repeat split.
      - intros k i. rewrite lookup_insert. case_decide as Hk.
        + intros [= <-]. by subst k.
        + apply Hkeyed.
      - intros m Hm. rewrite lookup_insert_ne; [by apply Hfresh|].
        intros Heq. rewrite Heq, (Hfresh m Hm) in Hinst. done.
      - lia.
      - intros k (i & Hi & Hp). rewrite lookup_insert. case_decide.
        + by exists updated.
        + by exists i. }
    destruct Hw1 as [Hw1 Hstep].
    assert (Hrest : steady (transaction ← createTransaction
                      (mkTransactionCreateInput (pay_date params) revenue
                         ("سداد قسط وحدة " +:+ inst_unitNo inst +:+ " من " +:+ inst_buyer inst)
                         (inst_amount inst) (pay_approved params) (pay_createdBy params));
                    ret (updated, transaction))).
    { steady_all. apply steady_createTransaction. }
    destruct (Hrest w1 Hw1) as [Hw2 H2].
    split; [done|]. by eapply keeps_settled_trans.
Qed.

Lemma perform_steady op w :
  installments_wf w -> installments_wf (perform op w) /\ keeps_settled w (perform op w).
Proof.
  intros Hw. destruct op; simpl; unfold after.
  - by apply steady_createTransaction.
  - by apply steady_approveTransaction.
  - by apply steady_deleteTransaction.
  - by apply steady_createInventoryItem.
  - by apply steady_deleteInventoryItem.
  - by apply steady_recordInventoryReceipt.
  - by apply steady_recordInventoryIssue.
  - by apply steady_createProject.
  - by apply steady_deleteProject.
  - by apply steady_createProjectCost.
  - by apply steady_createProjectSale.
  - by apply steady_payInstallment.
  - by apply steady_createInstallmentReminder.
  - by apply steady_runOnce.
  - destruct w as [b f n now0]. split; [done|]. split; [simpl; lia|done].
Qed.

Lemma performAll_steady ops w :
  installments_wf w ->
  installments_wf (performAll ops w) /\ keeps_settled w (performAll ops w).
Proof.
  revert w. induction ops as [|op ops IH]; intros w Hw; simpl.
  - split; [done|apply keeps_settled_refl].
  - destruct (perform_steady op w Hw) as [Hw1 H1].
    destruct (IH _ Hw1) as [Hw2 H2].
    split; [done|]. by eapply keeps_settled_trans.
Qed.

Lemma createTransaction_runs input b f n t :
  ledger (mkWorld b f n t) !! uuid n = None ->
  actor_known (mkWorld b f n t) (tci_createdBy input) ->
  exists w',
    createTransaction input (mkWorld b f n t) =
      (w', Ok (returnedTransaction (mkWorld b f n t) (transactionRow input (uuid n) t))) /\
    ledger w' = <[uuid n := transactionRow input (uuid n) t]> (ledger (mkWorld b f n t)) /\
    installments (fallbackStore w') = installments f /\
    (db_project_installments <$> backend w') = (db_project_installments <$> b).
Proof.
  intros Hfresh Hactor. unfold createTransaction.
  rewrite (bind_ok _ _ _ _ _ (eq_refl : getMysqlPool (mkWorld b f n t) = (_, Ok _))).
  destruct b as [d|]; simpl.
  - eexists. split; [by apply insertTransactionDb_runs|]. done.
  - eexists. split; [apply createTransactionFallback_runs|]. done.
Qed.

Lemma fresh_ids_wf w : installments_keyed w -> fresh_ids w -> installments_wf w.
Proof.
  intros Hkeyed Hfresh. split; [done|]. intros n Hn.
  destruct (Hfresh n Hn) as [(_ & _ & _ & _ & _ & _ & H) _]. exact H.
Qed.

Lemma fresh_ledger w n : fresh_ids w -> (uuids w <= n)%N -> ledger w !! uuid n = None.
Proof.
  intros Hfresh Hn. destruct (Hfresh n Hn) as [(H & _) Hd].
  unfold ledger. destruct (backend w); [by destruct Hd|done].
Qed.

(** What [payInstallment] does to the map it looks at.  For an
    installment held in the in-memory map under its own id:
    - if it is unpaid, [payInstallment] returns, the record in the map
      becomes the same record with [paid = true] and [paidAt = date], and
      the ledger gains exactly one entry, a revenue of the installment's
      amount;
    - if it is already paid, [payInstallment] returns the installment as it
      is, leaves the map of installments as it was, and the ledger again
      gains one such entry;
    - whatever was settled in the map before the call, and the installment
      just paid, stay settled there through every sequence of later
      operations.
    The rows of [project_installments], when there is a backend, are left
    as they were. *)
Lemma payInstallment_in_memory params w inst :
  installments (fallbackStore w) !! pay_id params = Some inst ->
  installments_keyed w -> fresh_ids w -> actor_known w (pay_createdBy params) ->
  exists w' updated transaction trow,
    payInstallment params w = (w', Ok (updated, transaction)) /\
    installments (fallbackStore w') =
      <[pay_id params := updated]> (installments (fallbackStore w)) /\
    inst_paid updated = true /\
    (inst_paid inst = false ->
       updated = mkInstallment (inst_id inst) (inst_projectId inst) (inst_saleId inst)
                   (inst_unitNo inst) (inst_buyer inst) (inst_amount inst)
                   (inst_dueDate inst) true (Some (pay_date params))) /\
    (inst_paid inst = true ->
       updated = inst /\
       installments (fallbackStore w') = installments (fallbackStore w)) /\
    ledger w !! tx_id trow = None /\
    ledger w' = <[tx_id trow := trow]> (ledger w) /\
    tx_type trow = revenue /\ tx_amount trow = inst_amount inst /\
    tx_date trow = pay_date params /\
    transaction = returnedTransaction w trow /\
    (db_project_installments <$> backend w') = (db_project_installments <$> backend w) /\
    forall ops k, k = pay_id params \/ settled w k -> settled (performAll ops w') k.
Proof.
  intros Hinst Hkeyed Hfresh Hactor.
  assert (Hwf : installments_wf w) by (by apply fresh_ids_wf).
  assert (Hkey : inst_id inst = pay_id params) by (by apply Hkeyed).
  assert (Hledger : ledger w !! uuid (uuids w) = None) by (apply fresh_ledger; [done|lia]).
  destruct (steady_payInstallment params w Hwf) as [Hwf' Hkeep].
  set (settlement := mkTransactionCreateInput (pay_date params) revenue
         ("سداد قسط وحدة " +:+ inst_unitNo inst +:+ " من " +:+ inst_buyer inst)
         (inst_amount inst) (pay_approved params) (pay_createdBy params)).
  assert (Hlater : forall w' updated,
            (payInstallment params w).1 = w' ->
            installments (fallbackStore w') !! pay_id params = Some updated ->
            inst_paid updated = true ->
            forall ops k, k = pay_id params \/ settled w k -> settled (performAll ops w') k).
  { intros w' updated Hw' Hup Hpaid ops k Hk. rewrite Hw' in Hwf', Hkeep.
    destruct (performAll_steady ops w' Hwf') as [_ [_ Hall]]. apply Hall.
    destruct Hk as [->|Hk]; [by exists updated|]. by apply Hkeep. }
  destruct w as [b f n t]. simpl in Hinst, Hledger.
  unfold payInstallment in *.
  rewrite (bind_ok _ _ _ _ _ (eq_refl : getFallback (mkWorld b f n t) = (_, Ok _))) in *.
  cbn [fallbackStore] in *. rewrite Hinst in *. cbv zeta in *. fold settlement in Hlater |- *.
  destruct (inst_paid inst) eqn:Hpaid.
  - destruct (createTransaction_runs settlement b f n t Hledger Hactor)
      as (w' & Hrun & Hled & Hsame & Hrows).
    rewrite (bind_ok _ _ _ _ _ Hrun) in *.
    eexists w', inst, _, (transactionRow settlement (uuid n) t).
    assert (Hmap : installments (fallbackStore w') = <[pay_id params := inst]> (installments f)).
    { rewrite Hsame. symmetry. by apply insert_id. }
    repeat split; try done.
    apply (Hlater w' inst); [done| |done]. by rewrite Hsame.
  - set (updated := mkInstallment _ _ _ _ _ _ _ true _) in *.
    set (f1 := set_installments f (<[inst_id updated := updated]> (installments f))) in *.
    rewrite (bind_ok _ _ _ (mkWorld b f1 n t) tt) in * by reflexivity.
    assert (Hledger1 : ledger (mkWorld b f1 n t) !! uuid n = None).
    { unfold ledger in *. by destruct b. }
    destruct (createTransaction_runs settlement b f1 n t Hledger1 Hactor)
      as (w' & Hrun & Hled & Hsame & Hrows).
    rewrite (bind_ok _ _ _ _ _ Hrun) in *.
    eexists w', updated, _, (transactionRow settlement (uuid n) t).
    assert (Hmap : installments (fallbackStore w') = <[pay_id params := updated]> (installments f)).
    { rewrite Hsame. subst f1. simpl. by rewrite Hkey. }
    repeat split; try done.
    apply (Hlater w' updated); [done| |done]. rewrite Hmap. apply lookup_insert_eq.
Qed.

(** C2.  With a pool the code breaks the claim.  Installment I1 is in the
    store as the sale that created it left it: a row of
    [project_installments] and a record in the memory of the process.
    [payInstallment] returns it with [paid = true] and [paidAt] stamped,
    and flips the record in memory; the row is never written.  The store
    goes on to report I1 as unpaid: [getDueInstallments] lists it as due
    and [getProjectSnapshot] shows it with [paid = false].  Once the
    process has restarted (its memory is empty) the same call throws
    "Installment not found".  And when the entry of the ledger cannot be
    inserted (an actor that is no row of [users]), the call throws after
    the flag was flipped: I1 is held as settled and no revenue entry was
    created. *)
Theorem payInstallment_leaves_the_row_unpaid :
  (exists w' paid transaction s,
     payInstallment settleI1 estateBoth = (w', Ok (paid, transaction)) /\
     inst_paid paid = true /\ inst_paidAt paid = Some "2024-01-02" /\
     settled w' "I1" /\
     (db_project_installments <$> backend w') = Some estateInstallments /\
     estateInstallments !! "I1" = Some installmentI1 /\
     inst_paid installmentI1 = false /\
     getDueInstallments (Some "2024-01-02") w' = (w', Ok [installmentI1]) /\
     getProjectSnapshot "P1" w' = (w', Ok (Some s)) /\
     ps_installments s = [installmentI1; installmentI2]) /\
  payInstallment settleI1 estateDatabase = (estateDatabase, Err "Installment not found") /\
  (exists w' e,
     payInstallment (mkPayInstallmentParams "I1" "2024-01-02" true (Some "U7")) estateBoth
       = (w', Err e) /\
     settled w' "I1" /\
     ledger w' = ledger estateBoth).
Proof.
  split; [|split].
  - eexists _, _, _, _. split; [vm_compute; reflexivity|].
    repeat split; try (vm_compute; reflexivity).
    eexists. split; vm_compute; reflexivity.
  - vm_compute. reflexivity.
  - eexists _, _. split; [vm_compute; reflexivity|]. split; [|vm_compute; reflexivity].
    eexists. split; vm_compute; reflexivity.
Qed.

(** ** The due-installment sweep *)


Example runOnce_with_pool_twice :
  length (remindersOf (sweeps [morning] dueDatabase) "I1") = 1%nat /\
  length (remindersOf (sweeps [morning; evening] dueDatabase) "I1") = 2%nat.
Proof. vm_compute. split; reflexivity. Qed.

Lemma values_insert {V} (m : gmap string V) j x :
  m !! j = None -> values (<[j := x]> m) ≡ₚ x :: values m.
Proof. intros H. unfold values. by rewrite map_to_list_insert. Qed.


Lemma values_lookup {V} (m : gmap string V) v :
  v ∈ values m -> exists k, m !! k = Some v.
Proof.
  unfold values. intros H. apply list_elem_of_fmap in H as ([k v'] & -> & H).
  exists k. by apply elem_of_map_to_list.
Qed.





















(** ** The offline queue *)

Module Drain.
Import OfflineQueue DrainSpec.
Local Open Scope list_scope.

Example processQueue_sample :
  let c := processQueue 10 sampleNetwork sampleClient in
  queue c = [] /\
  map (fun e => (id e.1, e.2)) (sent c) =
    [("q1", Response 400); ("q2", Response 503); ("q3", Response 204);
     ("q2", Response 503); ("q2", Response 200)] /\
  waits c = [2000; 4000] /\ calls c = 3%nat.
Proof. vm_compute. repeat split; reflexivity. Qed.

Lemma kept_discarded e : discarded e.2 -> kept e = [].
Proof.
  destruct e as [x [status|]]; simpl; [|done]. intros [H1 H2]. unfold kept. simpl.
  destruct (ok status); simpl; [done|].
  destruct (Z.leb_spec 400 status); [|lia].
  destruct (Z.ltb_spec status 500); [done|lia].
Qed.

Lemma keepForRetry_app item remaining :
  keepForRetry item remaining = remaining ++ keepForRetry item [].
Proof. unfold keepForRetry. by destruct (_ <=? _); rewrite ?app_nil_r. Qed.

(** One round of the loop, by its outcome. *)
Lemma replay_event net item c remaining :
  sent (replay net item (c, remaining)).1
    = sent c ++ [(item, respond net (length (sent c)) item)] /\
  (replay net item (c, remaining)).2
    = remaining ++ kept (item, respond net (length (sent c)) item) /\
  auth_token (replay net item (c, remaining)).1 = auth_token c /\
  waits (replay net item (c, remaining)).1 = waits c /\
  calls (replay net item (c, remaining)).1 = calls c /\
  queue (replay net item (c, remaining)).1 = queue c.
Proof.
  unfold replay, kept. simpl.
  destruct (respond net (length (sent c)) item) as [status|]; simpl.
  - destruct (ok status); simpl; [by rewrite app_nil_r|].
    destruct ((400 <=? status) && (status <? 500)); simpl.
    + by rewrite app_nil_r.
    + by rewrite keepForRetry_app.
  - by rewrite keepForRetry_app.
Qed.

Lemma replay_from net q c remaining :
  exists events,
    sent (fold_left (fun st item => replay net item st) q (c, remaining)).1
      = sent c ++ events /\
    map fst events = q /\
    (fold_left (fun st item => replay net item st) q (c, remaining)).2
      = remaining ++ (events ≫= kept) /\
    auth_token (fold_left (fun st item => replay net item st) q (c, remaining)).1
      = auth_token c /\
    waits (fold_left (fun st item => replay net item st) q (c, remaining)).1 = waits c /\
    calls (fold_left (fun st item => replay net item st) q (c, remaining)).1 = calls c.
Proof.
  revert c remaining. induction q as [|item q IH]; intros c remaining; cbn [fold_left].
  - exists []. simpl. by rewrite !app_nil_r.
  - destruct (replay_event net item c remaining) as (Hs & Hr & Ha & Hw & Hc & _).
    destruct (replay net item (c, remaining)) as [c1 r1]. cbn [fst snd] in *.
    destruct (IH c1 r1) as (events & Hs' & Hq & Hr' & Ha' & Hw' & Hc').
    exists ((item, respond net (length (sent c)) item) :: events).
    rewrite Hs', Hr', Ha', Hw', Hc', Hs, Hr. simpl. rewrite Hq.
    by rewrite <-!app_assoc.
Qed.

Lemma neverRetried_app log1 log2 final :
  neverRetried log1 final ->
  neverRetried log2 final ->
  (forall e, e ∈ log1 -> discarded e.2 -> id e.1 ∉ sentIds log2) ->
  neverRetried (log1 ++ log2) final.
Proof.
  induction log1 as [|e log1 IH]; intros H1 H2 Hcross; simpl in *; [done|].
  destruct H1 as [He H1]. split.
  - intros Hd. destruct (He Hd) as [Hrest Hfinal]. split; [|done].
    unfold sentIds. rewrite map_app, elem_of_app. intros [?|Hin]; [done|].
    by apply (Hcross e); [left|..].
  - apply IH; [done..|]. intros e' He'. apply Hcross. by right.
Qed.

Lemma neverRetried_split log final pre x o post :
  neverRetried log final -> log = pre ++ (x, o) :: post -> discarded o ->
  (id x ∉ sentIds post) /\ (id x ∉ ids final).
Proof.
  revert log. induction pre as [|e pre IH]; intros log H ->; simpl in *.
  - intros Hd. by apply H.
  - apply (IH (pre ++ (x, o) :: post)); [|done]. by destruct H.
Qed.

Lemma kept_cases e : kept e = [] \/ exists y, kept e = [y] /\ id y = id e.1.
Proof.
  unfold kept, keepForRetry. destruct e as [x [status|]]; simpl;
    repeat case_match; eauto.
Qed.

Lemma kept_all_ids events i :
  i ∈ ids (events ≫= kept) -> i ∈ sentIds events.
Proof.
  induction events as [|e events IH]; [done|].
  rewrite bind_cons. cbn [sentIds map]. fold (sentIds events).
  unfold ids in *. rewrite map_app, elem_of_app. intros [Hi|Hi].
  - destruct (kept_cases e) as [Hk|(y & Hk & Hy)]; rewrite Hk in Hi; simpl in Hi.
    + by apply elem_of_nil in Hi.
    + apply list_elem_of_singleton in Hi as ->. rewrite Hy. by left.
  - right. by apply IH.
Qed.

Lemma kept_NoDup events : NoDup (sentIds events) -> NoDup (ids (events ≫= kept)).
Proof.
  induction events as [|e events IH]; [constructor|].
  rewrite bind_cons. cbn [sentIds map]. fold (sentIds events).
  intros Hnd. apply NoDup_cons in Hnd as [Hnotin Hnd].
  unfold ids in *. rewrite map_app.
  destruct (kept_cases e) as [->|(y & -> & Hy)]; simpl; [by apply IH|].
  apply NoDup_cons. split; [|by apply IH].
  rewrite Hy. intros Hin. by apply Hnotin, kept_all_ids.
Qed.

Lemma kept_drops_discarded events e :
  NoDup (sentIds events) -> e ∈ events -> discarded e.2 ->
  id e.1 ∉ ids (events ≫= kept).
Proof.
  induction events as [|e' events IH]; intros Hnd He Hd; [by apply elem_of_nil in He|].
  rewrite bind_cons. cbn [sentIds map] in Hnd. fold (sentIds events) in Hnd.
  apply NoDup_cons in Hnd as [Hnotin Hnd].
  unfold ids in *. rewrite map_app, elem_of_app.
  apply elem_of_cons in He as [->|He].
  - rewrite (kept_discarded _ Hd). simpl. intros [Hin|Hin].
    + by apply elem_of_nil in Hin.
    + by apply Hnotin, kept_all_ids.
  - intros [Hin|Hin].
    + destruct (kept_cases e') as [Hk|(y & Hk & Hy)]; rewrite Hk in Hin; simpl in Hin.
      * by apply elem_of_nil in Hin.
      * apply list_elem_of_singleton in Hin. apply Hnotin.
        rewrite <-Hy, <-Hin. unfold sentIds. apply list_elem_of_fmap. by exists e.
    + by apply (IH Hnd He Hd).
Qed.

Lemma neverRetried_pass events final :
  NoDup (sentIds events) ->
  (forall e, e ∈ events -> discarded e.2 -> id e.1 ∉ ids final) ->
  neverRetried events final.
Proof.
  induction events as [|e events IH]; intros Hnd Hfinal; [done|].
  cbn [sentIds map] in Hnd. fold (sentIds events) in Hnd.
  apply NoDup_cons in Hnd as [Hnotin Hnd]. cbn [neverRetried]. split.
  - intros Hd. split; [done|]. apply Hfinal; [by left|done].
  - apply IH; [done|]. intros e' He'. apply Hfinal. by right.
Qed.

Lemma processQueue_S fuel net c :
  processQueue (S fuel) net c =
  let c0 := mkClient (queue c) (cache c) (auth_token c) (sent c) (waits c)
              (S (calls c)) in
  if negb (onLine net (calls c)) then c0
  else match queue c with
       | [] => c0
       | _ :: _ =>
           match (replayAll net (queue c) c0).2 with
           | [] => mkClient [] (cache (replayAll net (queue c) c0).1)
                     (auth_token (replayAll net (queue c) c0).1)
                     (sent (replayAll net (queue c) c0).1)
                     (waits (replayAll net (queue c) c0).1)
                     (calls (replayAll net (queue c) c0).1)
           | _ :: _ =>
               processQueue fuel net
                 (mkClient (replayAll net (queue c) c0).2
                    (cache (replayAll net (queue c) c0).1)
                    (auth_token (replayAll net (queue c) c0).1)
                    (sent (replayAll net (queue c) c0).1)
                    (waits (replayAll net (queue c) c0).1
                     ++ [backoff (replayAll net (queue c) c0).2])
                    (calls (replayAll net (queue c) c0).1))
           end
       end.
Proof.
  destruct c as [[|x q] ca tok se wa n]; cbn [processQueue queue calls cache auth_token
    sent waits]; [by destruct (onLine net n)|].
  destruct (onLine net n); [|done]. cbn [negb].
  destruct (replayAll net (x :: q) _) as [c1 [|y r]]; reflexivity.
Qed.

Lemma processQueue_log fuel net c :
  NoDup (ids (queue c)) ->
  exists tail,
    sent (processQueue fuel net c) = sent c ++ tail /\
    neverRetried tail (queue (processQueue fuel net c)) /\
    (forall i, i ∈ sentIds tail -> i ∈ ids (queue c)) /\
    (forall i, i ∈ ids (queue (processQueue fuel net c)) -> i ∈ ids (queue c)).
Proof.
  revert c. induction fuel as [|fuel IH]; intros c Hnd.
  - exists []. simpl. rewrite app_nil_r. repeat split; try done.
    intros i Hi. by apply elem_of_nil in Hi.
  - rewrite processQueue_S. cbv zeta.
    set (c0 := mkClient (queue c) (cache c) (auth_token c) (sent c) (waits c) (S (calls c))).
    assert (Hidle : exists tail,
              sent c0 = sent c ++ tail /\ neverRetried tail (queue c0) /\
              (forall i, i ∈ sentIds tail -> i ∈ ids (queue c)) /\
              (forall i, i ∈ ids (queue c0) -> i ∈ ids (queue c))).
    { exists []. simpl. rewrite app_nil_r. repeat split; try done.
      intros i Hi. by apply elem_of_nil in Hi. }
    destruct (onLine net (calls c)); [|exact Hidle]. cbn [negb].
    destruct (queue c) as [|x q] eqn:Hq; [exact Hidle|]. clear Hidle.
    rewrite <-Hq in *. unfold replayAll.
    destruct (replay_from net (queue c) c0 []) as (events & Hs & Hev & Hr & _).
    destruct (fold_left _ (queue c) (c0, [])) as [c1 remaining].
    cbn [fst snd] in *. simpl in Hs, Hr.
    assert (Hids : sentIds events = ids (queue c)).
    { unfold sentIds, ids. rewrite <-Hev. by rewrite map_map. }
    assert (Hnd' : NoDup (sentIds events)) by (by rewrite Hids).
    destruct remaining as [|y remaining'] eqn:Hrem.
    + exists events. simpl. repeat split; try done.
      * apply neverRetried_pass; [done|]. intros e _ _. apply not_elem_of_nil.
      * intros i. by rewrite Hids.
      * intros i Hi. by apply elem_of_nil in Hi.
    + rewrite <-Hrem in *. clear Hrem y remaining'.
      set (c3 := mkClient remaining _ _ _ _ _).
      destruct (IH c3) as (tail & Hs3 & Hnever & Hsent & Hfinal).
      { simpl. rewrite Hr. by apply kept_NoDup. }
      exists (events ++ tail). simpl in Hs3, Hsent, Hfinal.
      rewrite Hs3, Hs, app_assoc. repeat split; try done.
      * apply neverRetried_app; [|done|].
        -- apply neverRetried_pass; [done|]. intros e He Hd Hin.
           apply Hfinal in Hin. rewrite Hr in Hin.
           by apply (kept_drops_discarded events e).
        -- intros e He Hd Hin. apply Hsent in Hin. rewrite Hr in Hin.
           by apply (kept_drops_discarded events e).
      * intros i. unfold sentIds. rewrite map_app, elem_of_app. intros [Hi|Hi].
        -- by rewrite <-Hids.
        -- apply Hsent in Hi. rewrite Hr in Hi. rewrite <-Hids. by apply kept_all_ids.
      * intros i Hi. apply Hfinal in Hi. rewrite Hr in Hi. rewrite <-Hids.
        by apply kept_all_ids.
Qed.

Lemma kept_retryCount e y :
  y ∈ kept e -> retryCount y = retryCount e.1 + 1 /\ retryCount y <= 5.
Proof.
  unfold kept, keepForRetry. destruct e as [x [status|]]; simpl;
    repeat case_match; simpl; rewrite ?elem_of_nil, ?list_elem_of_singleton;
    try done; intros ->; simpl; split; try done; lia.
Qed.

Lemma remaining_retryCount m events :
  Forall (fun x => m <= retryCount x) (map fst events) ->
  Forall (fun y => m + 1 <= retryCount y <= 5) (events ≫= kept).
Proof.
  induction events as [|e events IH]; intros H; [constructor|].
  rewrite bind_cons. cbn [map] in H. apply Forall_cons in H as [He H].
  apply Forall_app. split; [|by apply IH].
  apply Forall_forall. intros y Hy. apply kept_retryCount in Hy as [-> ?]. lia.
Qed.

(** The chain of calls ends by itself: a request is dropped once it has
    failed with [retryCount] at 5, so seven calls are always enough. *)
Lemma processQueue_enough j net c k :
  Forall (fun x => 5 - Z.of_nat j <= retryCount x) (queue c) ->
  processQueue (S j + k) net c = processQueue (S j) net c.
Proof.
  revert c. induction j as [|j IH]; intros c Hq.
  - change (1 + k)%nat with (S k). rewrite !processQueue_S. cbv zeta.
    destruct (negb (onLine net (calls c))); [done|].
    destruct (queue c) as [|x q] eqn:Hqc; [done|]. rewrite <-Hqc in *.
    set (c0 := mkClient _ _ _ _ _ _).
    destruct (replay_from net (queue c) c0 []) as (events & _ & Hev & Hr & _).
    unfold replayAll. rewrite Hr. simpl app.
    rewrite <-Hev in Hq. apply remaining_retryCount in Hq.
    destruct (events ≫= kept) as [|y r]; [done|].
    apply Forall_cons in Hq as [Hy _]. simpl in Hy. lia.
  - change (S (S j) + k)%nat with (S (S j + k)). rewrite !processQueue_S. cbv zeta.
    destruct (negb (onLine net (calls c))); [done|].
    destruct (queue c) as [|x q] eqn:Hqc; [done|]. rewrite <-Hqc in *.
    set (c0 := mkClient _ _ _ _ _ _).
    destruct (replay_from net (queue c) c0 []) as (events & _ & Hev & Hr & _).
    unfold replayAll in *. rewrite Hr. simpl app.
    rewrite <-Hev in Hq. apply remaining_retryCount in Hq.
    destruct (events ≫= kept) as [|y r] eqn:Hrem; [done|].
    apply IH. cbn [queue]. eapply Forall_impl; [exact Hq|]. intros z Hz. simpl in Hz. lia.
Qed.

Lemma processQueue_returns net c k :
  Forall (fun x => 0 <= retryCount x) (queue c) ->
  processQueue (7 + k) net c = processQueue 7 net c.
Proof.
  intros H. apply (processQueue_enough 6). eapply Forall_impl; [exact H|].
  intros x Hx. simpl in *. lia.
Qed.

(** One pass of the loop over the queue: every queued request is sent
    once, in the order of the queue, and gets what the network answers at
    that moment. *)
Lemma replay_pass net q c remaining :
  sent (fold_left (fun st item => replay net item st) q (c, remaining)).1
    = sent c ++ answers net (length (sent c)) q /\
  (fold_left (fun st item => replay net item st) q (c, remaining)).2
    = remaining ++ (answers net (length (sent c)) q ≫= kept).
Proof.
  revert c remaining. induction q as [|item q IH]; intros c remaining; cbn [fold_left].
  - simpl. by rewrite !app_nil_r.
  - destruct (replay_event net item c remaining) as (Hs & Hr & _).
    destruct (replay net item (c, remaining)) as [c1 r1]. cbn [fst snd] in *.
    destruct (IH c1 r1) as (Hs' & Hr').
    rewrite Hs', Hr', Hs, Hr, length_app. simpl length.
    replace (length (sent c) + 1)%nat with (S (length (sent c))) by lia.
    cbn [answers]. rewrite bind_cons, <-!app_assoc. done.
Qed.

Lemma answers_requests net n q : map fst (answers net n q) = q.
Proof. revert n. induction q as [|x q IH]; intros n; simpl; [done|]. by rewrite IH. Qed.

(** What a failure that is no 4xx leaves in [remaining], while the retry
    count is below 5. *)
Lemma kept_failed x o :
  ~ discarded o -> (forall status, o = Response status -> ok status = false) ->
  retryCount x < 5 -> kept (x, o) = [retried x].
Proof.
  intros Hd Hok Hcount. unfold kept, keepForRetry. simpl.
  assert (Hle : (retryCount x + 1 <=? 5) = true) by (apply Z.leb_le; lia).
  destruct o as [status|]; simpl; [|by rewrite Hle].
  rewrite (Hok status eq_refl). simpl.
  destruct (Z.leb_spec 400 status), (Z.ltb_spec status 500); simpl;
    try (by rewrite Hle). exfalso. apply Hd. simpl. lia.
Qed.

(** A call made on line: what it sends and what it saves, and that the
    chain of calls only adds to what was sent. *)
Lemma processQueue_call fuel net c :
  NoDup (ids (queue c)) -> onLine net (calls c) = true ->
  sent (processQueue 1 net c) = sent c ++ answers net (length (sent c)) (queue c) /\
  queue (processQueue 1 net c) = answers net (length (sent c)) (queue c) ≫= kept /\
  exists rest,
    sent (processQueue (S fuel) net c) =
      sent c ++ answers net (length (sent c)) (queue c) ++ rest.
Proof.
  intros Hnd Hon. rewrite !processQueue_S. cbv zeta. rewrite Hon. cbn [negb].
  set (c0 := mkClient (queue c) (cache c) (auth_token c) (sent c) (waits c) (S (calls c))).
  assert (Hids : sentIds (answers net (length (sent c)) (queue c)) = ids (queue c)).
  { unfold sentIds, ids. rewrite <-(answers_requests net (length (sent c)) (queue c)) at 2.
    by rewrite map_map. }
  destruct (queue c) as [|x0 q0] eqn:Hq.
  { simpl. rewrite app_nil_r. repeat split; try done. exists []. by rewrite app_nil_r. }
  rewrite <-Hq in *. unfold replayAll.
  destruct (replay_pass net (queue c) c0 []) as (Hs & Hr). simpl in Hs, Hr.
  destruct (fold_left _ (queue c) (c0, [])) as [c1 remaining]. cbn [fst snd] in *.
  rewrite <-Hr, <-Hs. destruct remaining as [|y r] eqn:Hrem.
  - repeat split; try done. exists []. by rewrite app_nil_r.
  - repeat split; try done.
    set (c3 := mkClient (y :: r) _ _ _ _ _).
    destruct (processQueue_log fuel net c3) as (rest & Hrest & _).
    { change (NoDup (ids (y :: r))). rewrite Hr. apply kept_NoDup. by rewrite Hids. }
    exists rest. rewrite Hrest. simpl. by rewrite Hs, <-app_assoc.
Qed.

(** C7.  A call of [processQueue] made on line replays every queued
    request once, in the order of the queue, each getting what the
    network answers, and saves what the rounds kept.  A replayed request
    that gets a response with a status from 400 to 499 is dropped on the
    spot: the round neither keeps it for a retry nor touches its retry
    count, the cache or anything else but the record of what was sent,
    and the queue that the call saves does not hold it, whereas a request
    that fails otherwise is saved with its retry count raised (while that
    stays within 5).  Through the whole drain (the call with the calls it
    chains to itself) of a queue whose requests have distinct ids, a
    request that got such a response is never replayed again and is not in
    the queue the drain leaves. *)
Theorem processQueue_discards_4xx fuel net c :
  NoDup (ids (queue c)) -> onLine net (calls c) = true ->
  sent (processQueue 1 net c) = sent c ++ answers net (length (sent c)) (queue c) /\
  queue (processQueue 1 net c) = answers net (length (sent c)) (queue c) ≫= kept /\
  (forall item c0 remaining status,
     respond net (length (sent c0)) item = Response status ->
     400 <= status < 500 ->
     replay net item (c0, remaining) =
       (mkClient (queue c0) (cache c0) (auth_token c0)
          (sent c0 ++ [(item, Response status)]) (waits c0) (calls c0),
        remaining)) /\
  (forall x status,
     (x, Response status) ∈ answers net (length (sent c)) (queue c) ->
     400 <= status < 500 ->
     forall y, y ∈ queue (processQueue 1 net c) -> id y <> id x) /\
  (forall x o,
     (x, o) ∈ answers net (length (sent c)) (queue c) -> ~ discarded o ->
     (forall status, o = Response status -> ok status = false) ->
     retryCount x < 5 ->
     retried x ∈ queue (processQueue 1 net c)) /\
  exists rest,
    sent (processQueue (S fuel) net c) =
      sent c ++ answers net (length (sent c)) (queue c) ++ rest /\
    forall pre x status post,
      answers net (length (sent c)) (queue c) ++ rest = pre ++ (x, Response status) :: post ->
      400 <= status < 500 ->
      (forall e, e ∈ post -> id e.1 <> id x) /\
      (forall y, y ∈ queue (processQueue (S fuel) net c) -> id y <> id x).
Proof.
  intros Hnd Hon.
  destruct (processQueue_call fuel net c Hnd Hon) as (Hsent & Hqueue & rest & Hrest).
  set (events := answers net (length (sent c)) (queue c)) in *.
  assert (Hids : sentIds events = ids (queue c)).
  { unfold sentIds, ids, events.
    rewrite <-(answers_requests net (length (sent c)) (queue c)) at 2.
    by rewrite map_map. }
  assert (Hnd' : NoDup (sentIds events)) by (by rewrite Hids).
  split; [exact Hsent|]. split; [exact Hqueue|]. split.
  { intros item c0 remaining status Hresp [H1 H2]. unfold replay. rewrite Hresp.
    assert (Hok : ok status = false).
    { unfold ok. destruct (Z.leb_spec status 299); [lia|]. by rewrite andb_false_r. }
    rewrite Hok. simpl negb. cbv iota.
    destruct (Z.leb_spec 400 status); [|lia].
    destruct (Z.ltb_spec status 500); [done|lia]. }
  split.
  { intros x status Hin Hstatus y Hy Heq. rewrite Hqueue in Hy.
    apply (kept_drops_discarded events (x, Response status) Hnd' Hin Hstatus).
    cbn [fst]. rewrite <-Heq. unfold ids. apply list_elem_of_fmap. by exists y. }
  split.
  { intros x o Hin Hd Hok Hcount. rewrite Hqueue. apply list_elem_of_bind.
    exists (x, o). split; [|done]. rewrite (kept_failed x o Hd Hok Hcount).
    by apply list_elem_of_singleton. }
  destruct (processQueue_log (S fuel) net c Hnd) as (tail & Htail & Hnever & _).
  exists rest. split; [exact Hrest|].
  assert (Heq : tail = events ++ rest).
  { rewrite Hrest in Htail. by apply app_inv_head in Htail. }
  rewrite <-Heq. intros pre x status post Hsplit Hstatus.
  destruct (neverRetried_split tail _ pre x (Response status) post Hnever Hsplit Hstatus)
    as [Hpost Hfinal].
  split.
  - intros e He Heq'. apply Hpost. unfold sentIds. apply list_elem_of_fmap. by exists e.
  - intros y Hy Heq'. apply Hfinal. unfold ids. apply list_elem_of_fmap. by exists y.
Qed.

Lemma processQueue_discards_4xx_witness :
  sent (processQueue 1 sampleNetwork sampleClient) =
    sent sampleClient ++ answers sampleNetwork (length (sent sampleClient)) (queue sampleClient) /\
  queue (processQueue 1 sampleNetwork sampleClient) =
    answers sampleNetwork (length (sent sampleClient)) (queue sampleClient) ≫= kept /\
  (forall item c0 remaining status,
     respond sampleNetwork (length (sent c0)) item = Response status ->
     400 <= status < 500 ->
     replay sampleNetwork item (c0, remaining) =
       (mkClient (queue c0) (cache c0) (auth_token c0)
          (sent c0 ++ [(item, Response status)]) (waits c0) (calls c0),
        remaining)) /\
  (forall x status,
     (x, Response status) ∈ answers sampleNetwork (length (sent sampleClient))
                              (queue sampleClient) ->
     400 <= status < 500 ->
     forall y, y ∈ queue (processQueue 1 sampleNetwork sampleClient) -> id y <> id x) /\
  (forall x o,
     (x, o) ∈ answers sampleNetwork (length (sent sampleClient)) (queue sampleClient) ->
     ~ discarded o ->
     (forall status, o = Response status -> ok status = false) ->
     retryCount x < 5 ->
     retried x ∈ queue (processQueue 1 sampleNetwork sampleClient)) /\
  exists rest,
    sent (processQueue 7 sampleNetwork sampleClient) =
      sent sampleClient ++
      answers sampleNetwork (length (sent sampleClient)) (queue sampleClient) ++ rest /\
    forall pre x status post,
      answers sampleNetwork (length (sent sampleClient)) (queue sampleClient) ++ rest
        = pre ++ (x, Response status) :: post ->
      400 <= status < 500 ->
      (forall e, e ∈ post -> id e.1 <> id x) /\
      (forall y, y ∈ queue (processQueue 7 sampleNetwork sampleClient) -> id y <> id x).
Proof.
  apply (processQueue_discards_4xx 6 sampleNetwork sampleClient).
  - apply (bool_decide_unpack _). vm_compute. exact I.
  - reflexivity.
Defined.
End Drain.

(** * Further properties of the store, the queue and the sessions *)

(** ** The ledger: approving and deleting *)

Lemma with_backend_same w : with_backend w (backend w) = w.
Proof. by destruct w. Qed.

Lemma set_db_transactions_same d : set_db_transactions d (db_transactions d) = d.
Proof. by destruct d. Qed.

Lemma set_transactions_same f : set_transactions f (transactions f) = f.
Proof. by destruct f. Qed.

Lemma alter_present {V} (g : V -> V) (m : gmap string V) k v :
  m !! k = Some v -> alter g k m = <[k := g v]> m.
Proof.
  intros H. apply map_eq. intros j. destruct (decide (j = k)) as [->|Hne].
  - by rewrite lookup_alter_eq, lookup_insert_eq, H.
  - by rewrite lookup_alter_ne, lookup_insert_ne.
Qed.

Lemma alter_absent {V} (g : V -> V) (m : gmap string V) k :
  m !! k = None -> alter g k m = m.
Proof.
  intros H. apply map_eq. intros j. destruct (decide (j = k)) as [->|Hne].
  - by rewrite lookup_alter_eq, H.
  - by rewrite lookup_alter_ne.
Qed.

Lemma approveTransaction_runs id w t :
  ledger w !! id = Some t ->
  approveTransaction id w =
    (with_ledger w (<[id := approvedRow t]> (ledger w)),
     Ok (returnedTransaction w (approvedRow t))).
Proof.
  intros H. destruct w as [[d|] f n t0];
    unfold ledger, with_ledger, returnedTransaction in *; cbn [backend fallbackStore] in *;
    unfold approveTransaction; mstep; simpl.
  - unfold Sql.run, Sql.approve_transaction, Sql.select. simpl.
    rewrite (alter_present _ _ _ _ H). simpl. by rewrite lookup_insert_eq.
  - by rewrite H.
Qed.

(** X1.  [approveTransaction] on a stored entry returns it with
    [approved = true]; the ledger is the one before with that entry's flag
    set, everything else in the state is as it was, and approving the same
    entry again changes nothing more. *)
Theorem approveTransaction_sets_the_flag id w t :
  ledger w !! id = Some t ->
  let w' := with_ledger w (<[id := approvedRow t]> (ledger w)) in
  approveTransaction id w = (w', Ok (returnedTransaction w (approvedRow t))) /\
  approveTransaction id w' = (w', Ok (returnedTransaction w (approvedRow t))).
Proof.
  intros H w'. split; [by apply approveTransaction_runs|].
  assert (H' : ledger w' !! id = Some (approvedRow t)).
  { subst w'. unfold ledger, with_ledger. destruct w as [[d|] f n t0]; simpl;
      apply lookup_insert_eq. }
  rewrite (approveTransaction_runs id w' (approvedRow t) H').
  subst w'. unfold with_ledger, ledger, returnedTransaction.
  destruct w as [[d|] f n t0]; simpl; by rewrite insert_insert_eq.
Qed.

Lemma approveTransaction_sets_the_flag_witness :
  let w := with_ledger blankMemory
             {["T1" := mkTransaction "T1" "2024-01-02" revenue "rent" 100 false None None]} in
  let t := mkTransaction "T1" "2024-01-02" revenue "rent" 100 false None None in
  let w' := with_ledger w (<["T1" := approvedRow t]> (ledger w)) in
  approveTransaction "T1" w = (w', Ok (returnedTransaction w (approvedRow t))) /\
  approveTransaction "T1" w' = (w', Ok (returnedTransaction w (approvedRow t))).
Proof.
  intros w t. apply (approveTransaction_sets_the_flag "T1" w t). reflexivity.
Defined.

(** An id the ledger does not hold. *)
Lemma approveTransaction_missing id w :
  ledger w !! id = None ->
  approveTransaction id w = (w, Err "Transaction not found").
Proof.
  intros H. destruct w as [[d|] f n t0]; unfold ledger in *; cbn [backend fallbackStore] in *;
    unfold approveTransaction; mstep; simpl.
  - unfold Sql.run, Sql.approve_transaction, Sql.select. simpl.
    rewrite (alter_absent _ _ _ H), set_db_transactions_same. simpl. by rewrite H.
  - by rewrite H.
Qed.

Lemma deleteTransaction_runs id w t :
  ledger w !! id = Some t ->
  deleteTransaction id w = (with_ledger w (delete id (ledger w)), Ok tt).
Proof.
  intros H. destruct w as [[d|] f n t0];
    unfold ledger, with_ledger in *; cbn [backend fallbackStore] in *;
    unfold deleteTransaction; mstep; simpl.
  - done.
  - by rewrite H.
Qed.

(** X2.  Creating a ledger entry and deleting it again gives back the
    state before, but for the one identifier drawn. *)
Theorem createTransaction_then_delete input w :
  fresh_ids w -> actor_known w (tci_createdBy input) ->
  exists w1 t,
    createTransaction input w = (w1, Ok t) /\
    ledger w1 !! tx_id t = Some (transactionRow input (uuid (uuids w)) (now w)) /\
    deleteTransaction (tx_id t) w1 = (drawn 1 w, Ok tt).
Proof.
  intros Hfresh Hactor.
  assert (Hled : ledger w !! uuid (uuids w) = None) by (apply fresh_ledger; [done|lia]).
  destruct w as [b f n t0].
  destruct (createTransaction_runs input b f n t0 Hled Hactor) as (w1 & Hrun & Hl & _).
  exists w1, (returnedTransaction (mkWorld b f n t0) (transactionRow input (uuid n) t0)).
  assert (Hid : tx_id (returnedTransaction (mkWorld b f n t0)
                         (transactionRow input (uuid n) t0)) = uuid n).
  { unfold returnedTransaction. by destruct b. }
  rewrite Hid. split; [exact Hrun|]. split.
  { rewrite Hl. apply lookup_insert_eq. }
  (* the state after the creation, in full *)
  unfold createTransaction in Hrun.
  rewrite (bind_ok _ _ _ _ _ (eq_refl : getMysqlPool (mkWorld b f n t0) = (_, Ok _))) in Hrun.
  destruct b as [d|]; simpl in Hrun.
  - rewrite insertTransactionDb_runs in Hrun by done. injection Hrun as <-.
    unfold deleteTransaction. mstep. simpl. unfold drawn.
    unfold Sql.run, Sql.delete_transaction. destruct d. simpl in *.
    rewrite delete_insert_id by done.
    by replace (n + 1)%N with (N.succ n) by lia.
  - rewrite createTransactionFallback_runs in Hrun. injection Hrun as <-.
    unfold deleteTransaction. mstep. destruct f. simpl in *. rewrite lookup_insert_eq.
    unfold drawn. simpl. rewrite delete_insert_id by done.
    by replace (n + 1)%N with (N.succ n) by lia.
Qed.

Lemma createTransaction_then_delete_witness :
  exists w1 t,
    createTransaction (mkTransactionCreateInput "2024-01-02" revenue "rent" 100 true
                         (Some "U1")) warehouseDatabase = (w1, Ok t) /\
    ledger w1 !! tx_id t =
      Some (transactionRow (mkTransactionCreateInput "2024-01-02" revenue "rent" 100 true
                              (Some "U1")) (uuid 0) morning) /\
    deleteTransaction (tx_id t) w1 = (drawn 1 warehouseDatabase, Ok tt).
Proof.
  apply (createTransaction_then_delete
           (mkTransactionCreateInput "2024-01-02" revenue "rent" 100 true (Some "U1"))
           warehouseDatabase).
  - fresh_sample.
  - simpl. set_solver.
Defined.

(** ** Deleting by a loop over the values *)

Lemma values_elem {V} (m : gmap string V) k v : m !! k = Some v -> v ∈ values m.
Proof.
  intros H. unfold values. apply list_elem_of_fmap. exists (k, v). split; [done|].
  by apply elem_of_map_to_list.
Qed.

Lemma delete_loop_lookup {V} (P : V -> bool) (key : V -> string) (l : list V)
    (m : gmap string V) k :
  foldr (fun v acc => if P v then delete (key v) acc else acc) m l !! k =
    if decide (Exists (fun v => P v = true /\ key v = k) l) then None else m !! k.
Proof.
  induction l as [|v l IH]; cbn [foldr].
  - rewrite decide_False; [done|]. by inversion 1.
  - destruct (P v) eqn:HP.
    + destruct (decide (key v = k)) as [Hk|Hk].
      * rewrite Hk, lookup_delete_eq. rewrite decide_True; [done|]. by left.
      * rewrite lookup_delete_ne by done. rewrite IH.
        destruct (decide (Exists (fun v => P v = true /\ key v = k) l)) as [He|He].
        -- rewrite decide_True; [done|]. by right.
        -- rewrite decide_False; [done|]. intros H.
           inversion H as [? ? [_ ?]|]; subst; done.
    + rewrite IH.
      destruct (decide (Exists (fun v => P v = true /\ key v = k) l)) as [He|He].
      * rewrite decide_True; [done|]. by right.
      * rewrite decide_False; [done|]. intros H.
        inversion H as [? ? [? _]|]; subst; [congruence|done].
Qed.

(** On a map whose records sit under their own ids, the loop removes the
    records that satisfy [P] and no others. *)
Lemma delete_where_filter {V} (P : V -> bool) (key : V -> string) (m : gmap string V) :
  keyed key m ->
  delete_where P key m = filter (fun kv : string * V => P kv.2 = false) m.
Proof.
  intros Hkeyed. apply map_eq. intros k. unfold delete_where.
  rewrite delete_loop_lookup. destruct (m !! k) as [v|] eqn:Hk.
  - destruct (P v) eqn:HP.
    + rewrite decide_True.
      * symmetry. apply map_lookup_filter_None. right. intros v' Hv'. simpl.
        rewrite Hk in Hv'. injection Hv' as <-. congruence.
      * apply Exists_exists. exists v. split; [by apply (values_elem m k)|].
        split; [done|]. by apply Hkeyed.
    + rewrite decide_False.
      * symmetry. by apply map_lookup_filter_Some.
      * intros H. apply Exists_exists in H as (v' & Hin & HP' & Hkey).
        apply values_lookup in Hin as [k' Hk'].
        rewrite (Hkeyed _ _ Hk') in Hkey. subst k'. congruence.
  - rewrite (proj2 (map_lookup_filter_None _ m k)) by (by left). by case_decide.
Qed.

(** ** Inventory items *)

(** X3.  [deleteInventoryItem] removes the item together with every
    movement of that item and leaves the other items and movements alone;
    the loop over the in-memory map and the cascade of the tables give the
    same result.  (In memory the movements sit under their own ids; in the
    tables every movement belongs to a stored item.) *)
Theorem deleteInventoryItem_removes_movements id w :
  keyed mv_id (movements (fallbackStore w)) -> movements_refer w ->
  exists w',
    deleteInventoryItem id w = (w', Ok tt) /\
    stock w' = delete id (stock w) /\
    stockMovements w' =
      filter (fun kv : string * Movement => mv_itemId kv.2 <> id) (stockMovements w) /\
    ledger w' = ledger w.
Proof.
  intros Hkeyed Hrefer. destruct w as [[d|] f n t];
    unfold stock, stockMovements, ledger, movements_refer in *;
    cbn [backend fallbackStore] in *; unfold deleteInventoryItem; mstep; simpl.
  - unfold Sql.run, Sql.delete_inventory_item. simpl.
    destruct (db_inventory_items d !! id) as [item|] eqn:Hitem; simpl.
    + eexists. split; [done|]. done.
    + eexists. split; [done|]. simpl. repeat split.
      * symmetry. by apply delete_id.
      * symmetry. apply map_filter_id. intros k m Hm Heq. simpl in Heq.
        destruct (Hrefer k m Hm) as [item Hitem']. congruence.
  - eexists. split; [done|]. simpl. repeat split.
    rewrite (delete_where_filter _ _ _ Hkeyed).
    apply map_filter_ext. intros k m _. simpl.
    rewrite bool_decide_eq_false. done.
Qed.

Lemma depot_keyed : keyed mv_id depotMovements.
Proof.
  intros k v H. unfold depotMovements in H.
  repeat (apply lookup_insert_Some in H as [[<- <-]|[_ H]]; [reflexivity|]).
  by rewrite lookup_empty in H.
Qed.

Lemma depot_refers : movements_refer depotDatabase.
Proof.
  intros k v H. simpl in H. unfold depotMovements in H.
  repeat (apply lookup_insert_Some in H as [[<- <-]|[_ H]]; [by eexists|]).
  by rewrite lookup_empty in H.
Qed.

Lemma deleteInventoryItem_removes_movements_witness :
  (exists w',
     deleteInventoryItem "ITEM-1" depotMemory = (w', Ok tt) /\
     stock w' = {["ITEM-2" := sand]} /\
     stockMovements w' = {["M3" := sandIn]} /\
     ledger w' = ledger depotMemory) /\
  (exists w',
     deleteInventoryItem "ITEM-1" depotDatabase = (w', Ok tt) /\
     stock w' = {["ITEM-2" := sand]} /\
     stockMovements w' = {["M3" := sandIn]} /\
     ledger w' = ledger depotDatabase).
Proof.
  split.
  - destruct (deleteInventoryItem_removes_movements "ITEM-1" depotMemory)
      as (w' & Hrun & Hstock & Hmoves & Hledger).
    + exact depot_keyed.
    + exact I.
    + exists w'. rewrite Hstock, Hmoves. repeat split; try done.
  - destruct (deleteInventoryItem_removes_movements "ITEM-1" depotDatabase)
      as (w' & Hrun & Hstock & Hmoves & Hledger).
    + intros k v H. simpl in H. by rewrite lookup_empty in H.
    + exact depot_refers.
    + exists w'. rewrite Hstock, Hmoves. repeat split; try done.
Defined.

(** A receipt or an issue on an item that is not stored. *)
Lemma recordInventory_missing_item input w :
  stock w !! mi_itemId input = None ->
  recordInventoryReceipt input w = (w, Err "Inventory item not found") /\
  recordInventoryIssue input w = (w, Err "Inventory item not found").
Proof.
  intros H. destruct w as [[d|] f n t]; unfold stock in *; cbn [backend fallbackStore] in *;
    unfold recordInventoryReceipt, recordInventoryIssue; mstep; simpl.
  - unfold inTransaction, getItemRowForUpdate, Sql.select. mstep. simpl.
    rewrite H. done.
  - by rewrite H.
Qed.

(** ** Projects *)

(** An id that is no project. *)
Lemma deleteProject_missing id w :
  projectsOf w !! id = None ->
  deleteProject id w = (w, Err "Project not found").
Proof.
  intros H. destruct w as [[d|] f n t]; unfold projectsOf in *;
    cbn [backend fallbackStore] in *; unfold deleteProject; mstep; simpl.
  - unfold inTransaction, Sql.select. mstep. simpl. by rewrite H.
  - by rewrite H.
Qed.

(** X4.  An operation on an id that is not stored throws its own "not
    found" error and leaves the state as it was, over the in-memory maps
    and over the tables alike: [approveTransaction] on an id the ledger
    does not hold, a receipt or an issue on an item that is not stored,
    [deleteProject] on an id that is no project. *)
Theorem missing_id_changes_nothing w :
  (forall id, ledger w !! id = None ->
     approveTransaction id w = (w, Err "Transaction not found")) /\
  (forall input, stock w !! mi_itemId input = None ->
     recordInventoryReceipt input w = (w, Err "Inventory item not found") /\
     recordInventoryIssue input w = (w, Err "Inventory item not found")) /\
  (forall id, projectsOf w !! id = None ->
     deleteProject id w = (w, Err "Project not found")).
Proof.
  split; [|split].
  - intros id. apply approveTransaction_missing.
  - intros input. apply recordInventory_missing_item.
  - intros id. apply deleteProject_missing.
Qed.

Lemma missing_id_changes_nothing_witness :
  approveTransaction "missing" estateDatabase =
    (estateDatabase, Err "Transaction not found") /\
  recordInventoryIssue
    (mkInventoryMovementInput "ITEM-9" 8 30 "Depot" "2024-01-02" true (Some "U1"))
    estateDatabase = (estateDatabase, Err "Inventory item not found") /\
  deleteProject "P7" estateDatabase = (estateDatabase, Err "Project not found").
Proof.
  destruct (missing_id_changes_nothing estateDatabase) as (Ha & Hr & Hd).
  split; [|split].
  - apply Ha. reflexivity.
  - apply Hr. reflexivity.
  - apply Hd. reflexivity.
Defined.

Lemma filter_twice {V} (P : string * V -> Prop) `{!forall x, Decision (P x)}
    (m : gmap string V) :
  filter P (filter P m) = filter P m.
Proof. apply map_filter_id. intros i x Hx. by apply map_lookup_filter_Some in Hx as [_ ?]. Qed.

Lemma filter_none {V} (P : string * V -> Prop) `{!forall x, Decision (P x)}
    (m : gmap string V) :
  filter P (filter (fun kv => ~ P kv) m) = ∅.
Proof.
  apply map_empty. intros i. apply map_lookup_filter_None. right. intros x Hx HP.
  by apply map_lookup_filter_Some in Hx as [_ ?].
Qed.

(** The tables after [deleteProject] found the project: the three
    statements, with their cascades. *)
Lemma deleteProject_tables_runs id d f n t p :
  db_projects d !! id = Some p ->
  exists d',
    deleteProject id (mkWorld (Some d) f n t) = (mkWorld (Some d') f n t, Ok tt) /\
    db_users d' = db_users d /\
    db_transactions d' = db_transactions d /\
    db_inventory_items d' = db_inventory_items d /\
    db_inventory_movements d' = db_inventory_movements d /\
    db_projects d' = delete id (db_projects d) /\
    db_project_costs d' =
      filter (fun kv : string * ProjectCost => cost_projectId kv.2 <> id)
        (db_project_costs d) /\
    db_project_sales d' =
      filter (fun kv : string * ProjectSale => ~ sale_projectId kv.2 = id)
        (db_project_sales d) /\
    db_project_installments d' =
      filter (fun kv : string * Installment => ~ inst_projectId kv.2 = id)
        (filter (fun kv : string * Installment =>
                   ~ inst_saleId kv.2 ∈
                       dom (filter (fun kv : string * ProjectSale => sale_projectId kv.2 = id)
                              (db_project_sales d)))
           (db_project_installments d)).
Proof.
  intros Hp. unfold deleteProject. mstep. simpl.
  unfold inTransaction, Sql.select, Sql.run. mstep. simpl. rewrite Hp. simpl.
  unfold Sql.delete_project. simpl. rewrite Hp. simpl.
  eexists. split; [reflexivity|]. simpl. repeat split.
  - apply filter_twice.
  - apply filter_twice.
  - rewrite filter_none, dom_empty_L.
    f_equal. apply map_filter_id. intros i x _. simpl. set_solver.
Qed.

(** What [deleteProject] leaves of a stored project: the loops over the
    in-memory maps and the statements over the tables agree. *)
Lemma deleteProject_clears id w p :
  projectsOf w !! id = Some p ->
  keyed cost_id (costs (fallbackStore w)) -> keyed sale_id (sales (fallbackStore w)) ->
  exists w',
    deleteProject id w = (w', Ok tt) /\
    projectsOf w' = delete id (projectsOf w) /\
    costsOf w' =
      filter (fun kv : string * ProjectCost => cost_projectId kv.2 <> id) (costsOf w) /\
    salesOf w' =
      filter (fun kv : string * ProjectSale => sale_projectId kv.2 <> id) (salesOf w) /\
    ledger w' = ledger w.
Proof.
  intros Hp Hcosts Hsales. destruct w as [[d|] f n t];
    unfold projectsOf, costsOf, salesOf, ledger in *; cbn [backend fallbackStore] in *.
  - destruct (deleteProject_tables_runs id d f n t p Hp)
      as (d' & Hrun & _ & Htx & _ & _ & Hproj & Hc & Hs & _).
    exists (mkWorld (Some d') f n t). by repeat split.
  - unfold deleteProject. mstep. simpl. rewrite Hp. eexists. split; [reflexivity|].
    simpl. repeat split.
    + rewrite (delete_where_filter _ _ _ Hcosts). apply map_filter_ext.
      intros k c _. simpl. by rewrite bool_decide_eq_false.
    + rewrite (delete_where_filter _ _ _ Hsales). apply map_filter_ext.
      intros k c _. simpl. by rewrite bool_decide_eq_false.
Qed.

Lemma estate_keyed_costs : keyed cost_id estateCosts.
Proof.
  intros k v H. unfold estateCosts in H.
  repeat (apply lookup_insert_Some in H as [[<- <-]|[_ H]]; [reflexivity|]).
  by rewrite lookup_empty in H.
Qed.

Lemma estate_keyed_sales : keyed sale_id estateSales.
Proof.
  intros k v H. unfold estateSales in H.
  repeat (apply lookup_insert_Some in H as [[<- <-]|[_ H]]; [reflexivity|]).
  by rewrite lookup_empty in H.
Qed.

(** X5.  Over the tables, [deleteProject] on a stored project leaves no
    installment of the project and none that belongs to a sale of the
    project; every other installment stays as it was.  The in-memory maps
    are not touched: an installment the process holds in memory is still
    there after its project is gone from the tables. *)
Theorem deleteProject_tables_cascade id d f n t p :
  db_projects d !! id = Some p ->
  exists d',
    deleteProject id (mkWorld (Some d) f n t) = (mkWorld (Some d') f n t, Ok tt) /\
    forall k i,
      db_project_installments d' !! k = Some i <->
      db_project_installments d !! k = Some i /\ inst_projectId i <> id /\
      forall s, db_project_sales d !! inst_saleId i = Some s -> sale_projectId s <> id.
Proof.
  intros Hp.
  destruct (deleteProject_tables_runs id d f n t p Hp)
    as (d' & Hrun & _ & _ & _ & _ & _ & _ & _ & Hi).
  exists d'. split; [exact Hrun|]. intros k i. rewrite Hi.
  rewrite map_lookup_filter_Some, map_lookup_filter_Some. simpl.
  rewrite elem_of_dom. split.
  - intros [[Hk Hsale] Hproj]. repeat split; try done.
    intros s Hs Heq. apply Hsale. exists s. by apply map_lookup_filter_Some.
  - intros (Hk & Hproj & Hsale). repeat split; try done.
    intros [s Hs]. apply map_lookup_filter_Some in Hs as [Hs Heq]. by apply (Hsale s).
Qed.

Lemma deleteProject_tables_cascade_witness :
  exists d',
    deleteProject "P1" estateDatabase = (mkWorld (Some d') emptyFallback 0 morning, Ok tt) /\
    forall k i,
      db_project_installments d' !! k = Some i <->
      db_project_installments estateTables !! k = Some i /\ inst_projectId i <> "P1" /\
      forall s, db_project_sales estateTables !! inst_saleId i = Some s ->
                sale_projectId s <> "P1".
Proof.
  apply (deleteProject_tables_cascade "P1" estateTables emptyFallback 0 morning projectP1).
  reflexivity.
Defined.

Lemma createProject_runs input w :
  projectsOf w !! uuid (uuids w) = None ->
  let p := mkProject (uuid (uuids w)) (pci_name input) (pci_location input)
             (pci_floors input) (pci_units input) (pci_createdAt input) in
  exists w',
    createProject input w = (w', Ok p) /\
    projectsOf w' = <[uuid (uuids w) := p]> (projectsOf w).
Proof.
  intros Hfresh p. destruct w as [[d|] f n t]; unfold projectsOf in *;
    cbn [backend fallbackStore uuids] in *; unfold createProject; mstep; simpl.
  - unfold Sql.run, Sql.insert_project, Sql.select. simpl.
    rewrite (fresh_key_true _ _ Hfresh). simpl. rewrite lookup_insert_eq. simpl.
    eexists. split; [reflexivity|]. done.
  - eexists. split; [reflexivity|]. done.
Qed.

Lemma getProjectById_reads id w :
  getProjectById id w = (w, Ok (projectsOf w !! id)).
Proof.
  destruct w as [[d|] f n t]; unfold projectsOf, getProjectById; mstep; simpl.
  - unfold Sql.select. simpl. unfold mapProjectRow. by destruct (db_projects d !! id).
  - done.
Qed.

Lemma fresh_projects w n : fresh_ids w -> (uuids w <= n)%N -> projectsOf w !! uuid n = None.
Proof.
  intros Hfresh Hn. destruct (Hfresh n Hn) as [(_ & _ & _ & H & _) Hd].
  unfold projectsOf. destruct (backend w); [|done]. by destruct Hd as (_ & _ & _ & ? & _).
Qed.

(** X6.  A project that [createProject] returned is the one
    [getProjectById] gives for its id from then on, in memory and over the
    tables; the other ids read as before, and an id that is no project
    reads as [null]. *)
Theorem createProject_then_getProjectById input w :
  fresh_ids w ->
  exists w' p,
    createProject input w = (w', Ok p) /\
    getProjectById (proj_id p) w' = (w', Ok (Some p)) /\
    (forall id, id <> proj_id p ->
       (getProjectById id w').2 = (getProjectById id w).2) /\
    (forall id, projectsOf w' !! id = None -> getProjectById id w' = (w', Ok None)).
Proof.
  intros Hfresh.
  destruct (createProject_runs input w) as (w' & Hrun & Hp).
  { apply fresh_projects; [done|lia]. }
  eexists w', _. split; [exact Hrun|]. simpl. repeat split.
  - rewrite getProjectById_reads, Hp, lookup_insert_eq. done.
  - intros id Hne. rewrite !getProjectById_reads, Hp. simpl.
    by rewrite lookup_insert_ne.
  - intros id Hnone. by rewrite getProjectById_reads, Hnone.
Qed.

Lemma createProject_then_getProjectById_witness :
  exists w' p,
    createProject (mkProjectCreateInput "Tower" "Cairo" 10 40 "2023-12-01") estateDatabase
      = (w', Ok p) /\
    getProjectById (proj_id p) w' = (w', Ok (Some p)) /\
    (forall id, id <> proj_id p ->
       (getProjectById id w').2 = (getProjectById id estateDatabase).2) /\
    (forall id, projectsOf w' !! id = None -> getProjectById id w' = (w', Ok None)).
Proof.
  apply (createProject_then_getProjectById
           (mkProjectCreateInput "Tower" "Cairo" 10 40 "2023-12-01") estateDatabase).
  fresh_sample.
Defined.

(** ** Costs and sales of a project *)

(** X7.  [createProjectCost] does not look the project up.  In memory a
    cost is stored for any project id, and its expense entry is booked,
    whether the project exists or not.  Over the tables a cost for an id
    that is no project is refused by the schema: the call throws and
    neither the cost nor the ledger entry is stored (one identifier was
    drawn). *)
Theorem createProjectCost_unknown_project input f d n t :
  pcc_projectId input ∉ dom (projects f) ->
  db_projects d !! pcc_projectId input = None ->
  db_project_costs d !! uuid n = None ->
  (exists w' r,
     createProjectCost input (mkWorld None f n t) = (w', Ok r) /\
     costs (fallbackStore w') = <[uuid n := pcr_cost r]> (costs f) /\
     transactions (fallbackStore w') =
       <[uuid (N.succ n) := pcr_transaction r]> (transactions f) /\
     cost_projectId (pcr_cost r) = pcc_projectId input /\
     cost_amount (pcr_cost r) = pcc_amount input /\
     tx_type (pcr_transaction r) = expense /\
     tx_amount (pcr_transaction r) = pcc_amount input) /\
  exists e,
    createProjectCost input (mkWorld (Some d) f n t) =
      (mkWorld (Some d) f (N.succ n) t, Err e).
Proof.
  intros _ Hproject Hfresh. split.
  - eexists _, _. split; [unfold createProjectCost; mstep; simpl; reflexivity|]. done.
  - unfold createProjectCost. mstep. simpl.
    unfold inTransaction, Sql.run, Sql.insert_project_cost. mstep. simpl.
    rewrite (fresh_key_true _ _ Hfresh). simpl.
    unfold Sql.has_key. rewrite bool_decide_eq_false_2.
    + eexists. reflexivity.
    + rewrite Hproject. by intros [? ?].
Qed.

Lemma createProjectCost_unknown_project_witness :
  let input := mkProjectCostCreateInput "P7" "Gone" cost_operation None 250 "2024-01-02" ""
                 true None in
  (exists w' r,
     createProjectCost input (mkWorld None emptyFallback 0 morning) = (w', Ok r) /\
     costs (fallbackStore w') = <[uuid 0 := pcr_cost r]> (costs emptyFallback) /\
     transactions (fallbackStore w') =
       <[uuid (N.succ 0) := pcr_transaction r]> (transactions emptyFallback) /\
     cost_projectId (pcr_cost r) = pcc_projectId input /\
     cost_amount (pcr_cost r) = pcc_amount input /\
     tx_type (pcr_transaction r) = expense /\
     tx_amount (pcr_transaction r) = pcc_amount input) /\
  exists e,
    createProjectCost input (mkWorld (Some estateTables) emptyFallback 0 morning) =
      (mkWorld (Some estateTables) emptyFallback (N.succ 0) morning, Err e).
Proof.
  intros input.
  apply (createProjectCost_unknown_project input emptyFallback estateTables 0 morning).
  - simpl. set_solver.
  - reflexivity.
  - reflexivity.
Defined.

Lemma fresh_sales w n : fresh_ids w -> (uuids w <= n)%N -> salesOf w !! uuid n = None.
Proof.
  intros Hfresh Hn. destruct (Hfresh n Hn) as [(_ & _ & _ & _ & _ & H & _) Hd].
  unfold salesOf. destruct (backend w); [|done].
  by destruct Hd as (_ & _ & _ & _ & _ & ? & _).
Qed.

(** X8.  A sale without a plan (a monthly amount or a month count that
    is missing or 0, or a first due date that is missing or empty) is
    booked in full: the call stores the sale, adds
    one revenue entry of the price to the ledger, creates no installment
    and returns no list of installments. *)
Theorem createProjectSale_cash input w :
  hasPlan input = false ->
  fresh_ids w -> project_known w (psc_projectId input) ->
  actor_known w (psc_createdBy input) ->
  exists w' r srow trow,
    createProjectSale input w = (w', Ok r) /\
    psr_installments r = None /\
    salesOf w !! sale_id srow = None /\
    salesOf w' = <[sale_id srow := srow]> (salesOf w) /\
    sale_price srow = psc_price input /\ sale_projectId srow = psc_projectId input /\
    ledger w !! tx_id trow = None /\
    ledger w' = <[tx_id trow := trow]> (ledger w) /\
    tx_type trow = revenue /\ tx_amount trow = psc_price input /\
    psr_transaction r = returnedTransaction w trow /\
    installments (fallbackStore w') = installments (fallbackStore w) /\
    (db_project_installments <$> backend w') = (db_project_installments <$> backend w).
Proof.
  intros Hplan Hfresh Hproject Hactor.
  assert (Hs : salesOf w !! uuid (uuids w) = None) by (apply fresh_sales; [done|lia]).
  assert (Hl : ledger w !! uuid (N.succ (uuids w)) = None) by (apply fresh_ledger; [done|lia]).
  assert (Hamount : immediateAmount input = psc_price input).
  { unfold immediateAmount. by rewrite Hplan. }
  destruct w as [[d|] f n t]; unfold salesOf, ledger, returnedTransaction in *;
    cbn [backend fallbackStore uuids] in *; unfold createProjectSale;
    unfold getMysqlPool at 1; unfold mbind at 1, M_bind at 1, bind at 1;
    cbn [backend bool_decide decide_rel negb]; simpl negb; cbv iota.
  - set (sale := mkProjectSale (uuid n) (psc_projectId input) (psc_unitNo input)
                   (psc_buyer input) (psc_price input) (psc_date input)
                   (orNull (psc_terms input)) (orNull (psc_area input))
                   (orNull (psc_paymentMethod input))).
    set (tin := mkTransactionCreateInput (psc_date input) revenue (saleDescription input)
                  (immediateAmount input) (psc_approved input) (psc_createdBy input)).
    eexists _, _, sale, (transactionRow tin (uuid (N.succ n)) t). split.
    { apply inTransaction_ok.
      rewrite (bind_ok _ _ _ _ _ (draw_ok _ _ _ _)).
      erewrite bind_ok; cycle 1.
      { apply run_ok. apply (insert_project_sale_ok sale); [done|exact Hproject]. }
      rewrite (bind_ok _ _ _ _ _ (select_ok _ _ _ _ _)).
      erewrite bind_ok; cycle 1.
      { apply insertTransactionDb_runs; [exact Hl|exact Hactor]. }
      unfold installmentsOfPlan. rewrite Hplan.
      simpl db_project_sales. rewrite lookup_insert_eq. reflexivity. }
    simpl. by repeat split.
  - simpl.
    set (sale := mkProjectSale (uuid n) (psc_projectId input) (psc_unitNo input)
                   (psc_buyer input) (psc_price input) (psc_date input)
                   (psc_terms input) (psc_area input) (psc_paymentMethod input)).
    set (tin := mkTransactionCreateInput (psc_date input) revenue (saleDescription input)
                  (immediateAmount input) (psc_approved input) (psc_createdBy input)).
    eexists _, _, sale, (transactionRow tin (uuid (N.succ n)) t). split.
    { rewrite (bind_ok _ _ _ _ _ (draw_ok _ _ _ _)).
      unfold updateFallback at 1. unfold mbind at 1, M_bind at 1, bind at 1.
      unfold with_fallback; cbn [backend fallbackStore uuids now sale_id].
      rewrite (bind_ok _ _ _ _ _ (createTransactionFallback_runs _ _ _ _ _)).
      unfold installmentsOfPlan. rewrite Hplan. reflexivity. }
    simpl. by repeat split.
Qed.

(** A sale for cash: 20000, no plan. *)
Lemma createProjectSale_cash_witness :
  let input := mkProjectSaleCreateInput "P1" "Tower" "A-2" "Buyer" 20000 "2024-01-15"
                 None None None None (Some 1000) (Some 0) (Some "2024-02-01") true None in
  exists w' r srow trow,
    createProjectSale input estateDatabase = (w', Ok r) /\
    psr_installments r = None /\
    salesOf estateDatabase !! sale_id srow = None /\
    salesOf w' = <[sale_id srow := srow]> (salesOf estateDatabase) /\
    sale_price srow = psc_price input /\ sale_projectId srow = psc_projectId input /\
    ledger estateDatabase !! tx_id trow = None /\
    ledger w' = <[tx_id trow := trow]> (ledger estateDatabase) /\
    tx_type trow = revenue /\ tx_amount trow = psc_price input /\
    psr_transaction r = returnedTransaction estateDatabase trow /\
    installments (fallbackStore w') = installments (fallbackStore estateDatabase) /\
    (db_project_installments <$> backend w') =
      (db_project_installments <$> backend estateDatabase).
Proof.
  intros input. apply (createProjectSale_cash input estateDatabase).
  - reflexivity.
  - fresh_sample.
  - unfold project_known. simpl. exists projectP1. reflexivity.
  - exact I.
Defined.

(** ** Which installments are due *)

Lemma getDueInstallments_reads asOfDate w :
  getDueInstallments asOfDate w =
    (w, Ok (let rows := JS.sort byDueDate
                          (filter (isDue (dueDate asOfDate w)) (values (installmentsRead w))) in
            match backend w with
            | None => rows
            | Some _ => map mapInstallmentRow rows
            end)).
Proof.
  destruct w as [[d|] f n t], asOfDate as [date|]; reflexivity.
Qed.

(** X9.  [getDueInstallments] returns, without changing the state, the
    stored installments that are unpaid and due on or before the date
    (the given one, or the first ten characters of the clock reading) and
    no others, each once per key it is stored under, in ascending order of
    due date.  With a pool it reads the rows of the table, whatever the
    in-memory map holds; without one it reads the in-memory map. *)
Theorem getDueInstallments_exact asOfDate w :
  exists rows,
    getDueInstallments asOfDate w =
      (w, Ok (match backend w with
              | None => rows
              | Some _ => map mapInstallmentRow rows
              end)) /\
    rows ≡ₚ filter (isDue (dueDate asOfDate w)) (values (installmentsRead w)) /\
    (forall i, i ∈ rows <->
       (exists k, installmentsRead w !! k = Some i) /\ inst_paid i = false /\
       String.leb (inst_dueDate i) (dueDate asOfDate w) = true) /\
    Sorted dueOrder rows.
Proof.
  eexists. split; [apply getDueInstallments_reads|]. cbv zeta.
  split; [apply sort_perm|]. split; [|apply sort_Sorted].
  intros i. rewrite sort_perm, list_elem_of_filter. unfold isDue. split.
  - intros [[? ?] Hi]. split; [by apply values_lookup|done].
  - intros ([k Hk] & ? & ?). split; [done|by apply (values_elem _ k)].
Qed.

Lemma due_listed date (m : gmap string Installment) k i :
  m !! k = Some i -> isDue date i ->
  i ∈ JS.sort byDueDate (filter (isDue date) (values m)).
Proof.
  intros Hk Hdue. rewrite sort_perm. apply list_elem_of_filter. split; [done|].
  by apply (values_elem _ k).
Qed.

(** X10.  Without a pool, an installment that [payInstallment] settled is
    not reported by [getDueInstallments] any more, on any date. *)
Theorem payInstallment_clears_due_in_memory params f n t inst asOfDate :
  installments f !! pay_id params = Some inst ->
  keyed inst_id (installments f) ->
  exists w' r l,
    payInstallment params (mkWorld None f n t) = (w', Ok r) /\
    getDueInstallments asOfDate w' = (w', Ok l) /\
    Forall (fun i => inst_id i <> pay_id params) l.
Proof.
  intros Hinst Hkeyed.
  assert (Hid : inst_id inst = pay_id params) by (by apply Hkeyed).
  assert (Hgoal : forall f' updated,
            installments f' = <[pay_id params := updated]> (installments f) ->
            inst_paid updated = true ->
            forall n',
            exists l, getDueInstallments asOfDate (mkWorld None f' n' t) =
                        (mkWorld None f' n' t, Ok l) /\
                      Forall (fun i => inst_id i <> pay_id params) l).
  { intros f' updated Hf' Hpaid n'. eexists. split; [apply getDueInstallments_reads|].
    simpl. apply Forall_forall. intros i Hi Heq.
    rewrite sort_perm in Hi. apply list_elem_of_filter in Hi as [[Hunpaid _] Hi].
    apply values_lookup in Hi as [k Hk]. unfold installmentsRead in Hk. simpl in Hk.
    rewrite Hf' in Hk. apply lookup_insert_Some in Hk as [[_ <-]|[Hne Hk]].
    - congruence.
    - apply Hkeyed in Hk. congruence. }
  unfold payInstallment. mstep. simpl. rewrite Hinst.
  destruct (inst_paid inst) eqn:Hpaid; unfold createTransaction, createTransactionFallback;
    mstep; simpl.
  - destruct (Hgoal (set_transactions f
                       (<[uuid n := mkTransaction (uuid n) (pay_date params) revenue
                            ("سداد قسط وحدة " +:+ inst_unitNo inst +:+ " من " +:+ inst_buyer inst)
                            (inst_amount inst) (pay_approved params)
                            (pay_createdBy params) (Some t)]> (transactions f)))
                inst) with (n' := N.succ n) as (l & Hl & Hall).
    { simpl. symmetry. by apply insert_id. }
    { done. }
    eexists _, _, l. split; [reflexivity|]. by split.
  - match goal with
    | |- context [ (mkWorld None ?f' (N.succ n) t, Ok (?u, _)) ] =>
        destruct (Hgoal f' u) with (n' := N.succ n) as (l & Hl & Hall)
    end.
    { simpl. by rewrite Hid. }
    { done. }
    eexists _, _, l. split; [reflexivity|]. by split.
Qed.

Lemma payInstallment_clears_due_in_memory_witness :
  exists w' r l,
    payInstallment settleI1 dueMemory = (w', Ok r) /\
    getDueInstallments None w' = (w', Ok l) /\
    Forall (fun i => inst_id i <> "I1") l.
Proof.
  apply (payInstallment_clears_due_in_memory settleI1
           (mkFallbackStore ∅ ∅ ∅ {["P1" := projectP1]} ∅ {["S1" := saleS1]}
              {["I1" := installmentI1]}) 0 morning installmentI1 None).
  - reflexivity.
  - intros k v H. simpl in H. apply lookup_singleton_Some in H as [<- <-]. reflexivity.
Defined.

(** X11.  With a pool, settling an installment does not take it off the
    list of due installments: [payInstallment] sets the flag in the
    in-memory map, [getDueInstallments] reads the rows of the table, and
    the row of an installment that was due is returned after the payment
    as it was before. *)
Theorem payInstallment_stays_due_over_tables params d f n t inst row asOfDate :
  installments f !! pay_id params = Some inst ->
  db_project_installments d !! pay_id params = Some row ->
  isDue (dueDate asOfDate (mkWorld (Some d) f n t)) row ->
  installments_keyed (mkWorld (Some d) f n t) ->
  fresh_ids (mkWorld (Some d) f n t) ->
  actor_known (mkWorld (Some d) f n t) (pay_createdBy params) ->
  exists w' paid transaction l,
    payInstallment params (mkWorld (Some d) f n t) = (w', Ok (paid, transaction)) /\
    inst_paid paid = true /\
    getDueInstallments asOfDate w' = (w', Ok l) /\
    mapInstallmentRow row ∈ l.
Proof.
  intros Hinst Hrow Hdue Hkeyed Hfresh Hactor.
  set (settlement := mkTransactionCreateInput (pay_date params) revenue
         ("سداد قسط وحدة " +:+ inst_unitNo inst +:+ " من " +:+ inst_buyer inst)
         (inst_amount inst) (pay_approved params) (pay_createdBy params)).
  assert (Hafter : forall f',
            exists w' tr,
              createTransaction settlement (mkWorld (Some d) f' n t) = (w', Ok tr) /\
              exists l, getDueInstallments asOfDate w' = (w', Ok l) /\
                        mapInstallmentRow row ∈ l).
  { intros f'.
    assert (Hrun : createTransaction settlement (mkWorld (Some d) f' n t) =
                   insertTransactionDb settlement (mkWorld (Some d) f' n t)) by reflexivity.
    rewrite insertTransactionDb_runs in Hrun; cycle 1.
    { destruct (Hfresh n) as [_ (Htx & _)]; [simpl; lia|]. exact Htx. }
    { exact Hactor. }
    eexists _, _. split; [exact Hrun|].
    eexists. split; [apply getDueInstallments_reads|].
    simpl. apply list_elem_of_fmap. exists row. split; [done|].
    by apply (due_listed _ _ (pay_id params)). }
  unfold payInstallment.
  rewrite (bind_ok _ _ _ _ _ (eq_refl : getFallback (mkWorld (Some d) f n t) = (_, Ok _))).
  cbn [fallbackStore]. rewrite Hinst. cbv zeta. fold settlement.
  destruct (inst_paid inst) eqn:Hpaid.
  - destruct (Hafter f) as (w' & tr & Hrun & l & Hl & Hin).
    rewrite (bind_ok _ _ _ _ _ Hrun). by eexists w', inst, tr, l.
  - set (updated := mkInstallment _ _ _ _ _ _ _ true _).
    set (f1 := set_installments f (<[inst_id updated := updated]> (installments f))).
    rewrite (bind_ok _ _ _ (mkWorld (Some d) f1 n t) tt) by reflexivity.
    destruct (Hafter f1) as (w' & tr & Hrun & l & Hl & Hin).
    rewrite (bind_ok _ _ _ _ _ Hrun). by eexists w', updated, tr, l.
Qed.

Lemma payInstallment_stays_due_over_tables_witness :
  exists w' paid transaction l,
    payInstallment settleI1 estateBoth = (w', Ok (paid, transaction)) /\
    inst_paid paid = true /\
    getDueInstallments None w' = (w', Ok l) /\
    mapInstallmentRow installmentI1 ∈ l.
Proof.
  apply (payInstallment_stays_due_over_tables settleI1 estateTables
           (mkFallbackStore ∅ ∅ ∅ ∅ ∅ ∅ estateInstallments) 0 morning
           installmentI1 installmentI1 None).
  - reflexivity.
  - reflexivity.
  - split; reflexivity.
  - intros k i H. unfold estateInstallments in H. simpl in H.
    repeat (apply lookup_insert_Some in H as [[<- <-]|[_ H]]; [reflexivity|]).
    by rewrite lookup_empty in H.
  - fresh_sample.
  - simpl. set_solver.
Defined.

(** X12.  Without a pool, the installments of a project that
    [deleteProject] removed are still reported by [getDueInstallments]
    when they are unpaid and due: the project is gone and its installments
    are not. *)
Theorem deleteProject_memory_leaves_due id f n t p k i asOfDate :
  projects f !! id = Some p ->
  installments f !! k = Some i -> inst_projectId i = id ->
  isDue (dueDate asOfDate (mkWorld None f n t)) i ->
  exists w' l,
    deleteProject id (mkWorld None f n t) = (w', Ok tt) /\
    getProjectById id w' = (w', Ok None) /\
    getDueInstallments asOfDate w' = (w', Ok l) /\
    i ∈ l.
Proof.
  intros Hp Hi _ Hdue. unfold deleteProject. mstep. simpl. rewrite Hp.
  eexists _, _. split; [reflexivity|]. split.
  { rewrite getProjectById_reads. unfold projectsOf. simpl. by rewrite lookup_delete_eq. }
  split; [apply getDueInstallments_reads|].
  simpl. by apply (due_listed _ _ k).
Qed.

Lemma deleteProject_memory_leaves_due_witness :
  exists w' l,
    deleteProject "P1" estateMemory = (w', Ok tt) /\
    getProjectById "P1" w' = (w', Ok None) /\
    getDueInstallments None w' = (w', Ok l) /\
    installmentI1 ∈ l.
Proof.
  apply (deleteProject_memory_leaves_due "P1"
           (mkFallbackStore ∅ ∅ ∅ estateProjects estateCosts estateSales estateInstallments)
           0 morning projectP1 "I1" installmentI1 None).
  - reflexivity.
  - reflexivity.
  - reflexivity.
  - split; reflexivity.
Defined.

(** ** Snapshots *)

Section SortedBy.
Context {A : Type} (cmp : A -> A -> comparison) (R : A -> A -> Prop).
Hypothesis cmp_Lt : forall x y, cmp x y = Lt -> R x y.
Hypothesis cmp_not_Lt : forall x y, cmp x y <> Lt -> R y x.

Lemma sort_insert_HdRel_by y x l :
  R y x -> HdRel R y l -> HdRel R y (JS.sort_insert cmp x l).
Proof.
  intros Hyx Hl. destruct l as [|z l]; simpl; [by constructor|].
  destruct (cmp x z); constructor; try done; by inversion Hl.
Qed.

Lemma sort_insert_Sorted_by x l : Sorted R l -> Sorted R (JS.sort_insert cmp x l).
Proof.
  induction 1 as [|y l Hl IH Hy]; simpl; [by repeat constructor|].
  destruct (cmp x y) eqn:Hxy.
  - constructor; [done|]. apply sort_insert_HdRel_by; [|done].
    apply cmp_not_Lt. congruence.
  - repeat constructor; try done. by apply cmp_Lt.
  - constructor; [done|]. apply sort_insert_HdRel_by; [|done].
    apply cmp_not_Lt. congruence.
Qed.

Lemma sort_Sorted_by l : Sorted R (JS.sort cmp l).
Proof.
  unfold JS.sort. generalize (Sorted_nil R). generalize (@nil A) as acc.
  induction l as [|x l IH]; intros acc Hacc; simpl; [done|].
  apply IH. by apply sort_insert_Sorted_by.
Qed.
End SortedBy.

Lemma compareDesc_Lt a b : compareDesc a b = Lt -> String.leb b a = true.
Proof.
  unfold compareDesc, String.ltb, String.leb.
  destruct (String.eqb a b); [done|]. by destruct (String.compare b a).
Qed.

Lemma compareDesc_not_Lt a b : compareDesc a b <> Lt -> String.leb a b = true.
Proof.
  unfold compareDesc, String.ltb, String.leb. rewrite (String.compare_antisym a b).
  destruct (String.eqb_spec a b) as [->|_].
  - intros _. pose proof (String.compare_antisym b b) as H.
    by destruct (String.compare b b).
  - by destruct (String.compare b a).
Qed.

Lemma sort_newerFirst {T} (date : T -> string) l :
  Sorted (newerFirst date) (JS.sort (byDateDesc date) l).
Proof.
  apply sort_Sorted_by; unfold byDateDesc, newerFirst; intros x y.
  - apply compareDesc_Lt.
  - apply compareDesc_not_Lt.
Qed.

Lemma ltb_total a b : a <> b -> String.ltb b a = false -> String.ltb a b = true.
Proof.
  unfold String.ltb. rewrite (String.compare_antisym a b). intros Hne.
  destruct (String.compare b a) eqn:Hc; simpl; try done.
  apply String.compare_eq_iff in Hc. congruence.
Qed.

Lemma sortTransactions_Sorted l : Sorted ledgerOrder (sortTransactions l).
Proof.
  apply sort_Sorted_by; unfold compareTransactions, ledgerOrder; intros x y.
  - destruct (String.eqb_spec (tx_date x) (tx_date y)) as [Heq|Hne].
    + intros H. right. split; [done|]. by apply compareDesc_Lt.
    + destruct (String.ltb (tx_date y) (tx_date x)) eqn:Hlt; [by left|done].
  - destruct (String.eqb_spec (tx_date x) (tx_date y)) as [Heq|Hne].
    + intros H. right. split; [done|]. by apply compareDesc_not_Lt.
    + destruct (String.ltb (tx_date y) (tx_date x)) eqn:Hlt; [done|].
      intros _. left. by apply ltb_total.
Qed.

(** X13.  Without a pool, the snapshot lists every stored transaction,
    item, movement, project, cost and sale exactly once and changes
    nothing; transactions come later date first and, within a date, later
    [createdAt] first; items come latest update first, projects latest
    creation first, movements, costs and sales later date first. *)
Theorem getAccountingSnapshot_memory f n t :
  exists s,
    getAccountingSnapshot (mkWorld None f n t) = (mkWorld None f n t, Ok s) /\
    as_transactions s ≡ₚ values (transactions f) /\
    Sorted ledgerOrder (as_transactions s) /\
    as_items s ≡ₚ values (items f) /\
    Sorted (newerFirst item_updatedAt) (as_items s) /\
    as_movements s ≡ₚ values (movements f) /\
    Sorted (newerFirst mv_date) (as_movements s) /\
    as_projects s ≡ₚ values (projects f) /\
    Sorted (newerFirst proj_createdAt) (as_projects s) /\
    as_costs s ≡ₚ values (costs f) /\
    Sorted (newerFirst cost_date) (as_costs s) /\
    as_sales s ≡ₚ values (sales f) /\
    Sorted (newerFirst sale_date) (as_sales s).
Proof.
  eexists. split; [reflexivity|]. simpl.
  unfold sortTransactionsFallback, sortTransactionsFallbackMovements, sortByDateDesc.
  repeat split; first [apply sort_perm | apply sortTransactions_Sorted | apply sort_newerFirst].
Qed.

(** X14.  The entry [createTransaction] returned is in the next snapshot,
    which lists one transaction more than the ledger held before; this
    holds in memory and over the tables. *)
Theorem createTransaction_then_snapshot input w :
  fresh_ids w -> actor_known w (tci_createdBy input) ->
  exists w' t s,
    createTransaction input w = (w', Ok t) /\
    getAccountingSnapshot w' = (w', Ok s) /\
    t ∈ as_transactions s /\
    length (as_transactions s) = S (size (ledger w)).
Proof.
  intros Hfresh Hactor.
  assert (Hled : ledger w !! uuid (uuids w) = None) by (apply fresh_ledger; [done|lia]).
  destruct w as [[d|] f n t0]; unfold ledger in *; cbn [backend fallbackStore uuids] in *.
  - assert (Hrun : createTransaction input (mkWorld (Some d) f n t0) =
                   insertTransactionDb input (mkWorld (Some d) f n t0)) by reflexivity.
    rewrite insertTransactionDb_runs in Hrun by done.
    eexists _, _, _. split; [exact Hrun|]. split; [reflexivity|].
    cbn [as_transactions db_transactions set_db_transactions]. split.
    + apply list_elem_of_fmap. eexists. split; [reflexivity|].
      rewrite sort_perm. apply (values_elem _ (uuid n)). apply lookup_insert_eq.
    + rewrite length_map, sort_length, values_insert by done. simpl.
      unfold values. by rewrite length_fmap, length_map_to_list.
  - eexists _, _, _. split; [apply createTransactionFallback_runs|]. split; [reflexivity|].
    cbn [as_transactions transactions set_transactions fallbackStore]. split.
    + unfold sortTransactions. rewrite sort_perm. apply (values_elem _ (uuid n)).
      apply lookup_insert_eq.
    + unfold sortTransactions. rewrite sort_length, values_insert by done. simpl.
      unfold values. by rewrite length_fmap, length_map_to_list.
Qed.

Lemma createTransaction_then_snapshot_witness :
  exists w' t s,
    createTransaction (mkTransactionCreateInput "2024-01-02" revenue "rent" 100 true
                         (Some "U1")) warehouseDatabase = (w', Ok t) /\
    getAccountingSnapshot w' = (w', Ok s) /\
    t ∈ as_transactions s /\
    length (as_transactions s) = S (size (ledger warehouseDatabase)).
Proof.
  apply (createTransaction_then_snapshot
           (mkTransactionCreateInput "2024-01-02" revenue "rent" 100 true (Some "U1"))
           warehouseDatabase).
  - fresh_sample.
  - simpl. set_solver.
Defined.

(** X15.  [getProjectSnapshot] gives [null] for an id that is no project
    and changes nothing.  For a stored project it gives the project, the
    costs and the sales whose [projectId] is the id, each once, later date
    first, and the installments whose [projectId] is the id, each once, in
    ascending order of due date; it reads the tables when there is a pool
    and the in-memory maps otherwise.  [getProjectInstallmentsDb] gives
    the same installments. *)
Theorem getProjectSnapshot_lists id w :
  match projectsOf w !! id with
  | None => getProjectSnapshot id w = (w, Ok None)
  | Some p =>
      exists s costRows saleRows rows,
        getProjectSnapshot id w = (w, Ok (Some s)) /\
        ps_project s = p /\
        ps_costs s = returnedRows w mapProjectCostRow costRows /\
        costRows ≡ₚ filter (fun c => cost_projectId c = id) (values (costsOf w)) /\
        Sorted (newerFirst cost_date) costRows /\
        ps_sales s = returnedRows w mapProjectSaleRow saleRows /\
        saleRows ≡ₚ filter (fun s => sale_projectId s = id) (values (salesOf w)) /\
        Sorted (newerFirst sale_date) saleRows /\
        ps_installments s = returnedRows w mapInstallmentRow rows /\
        rows ≡ₚ filter (fun i => inst_projectId i = id) (values (installmentsRead w)) /\
        Sorted dueOrder rows /\
        getProjectInstallmentsDb id w = (w, Ok (ps_installments s))
  end.
Proof.
  destruct (projectsOf w !! id) as [p|] eqn:Hp.
  - unfold getProjectSnapshot. rewrite (bind_ok _ _ _ _ _ (getProjectById_reads id w)), Hp.
    destruct w as [[d|] f n t]; unfold projectsOf, costsOf, salesOf, installmentsRead,
      returnedRows in *; cbn [backend fallbackStore] in *.
    + eexists _, _, _, _. split; [reflexivity|]. cbn [ps_project ps_costs ps_sales ps_installments].
      repeat split; first [reflexivity | apply sort_perm | apply sort_newerFirst | apply sort_Sorted].
    + eexists _, _, _, _. split; [reflexivity|]. cbn [ps_project ps_costs ps_sales ps_installments].
      repeat split; first [reflexivity | apply sort_perm | apply sort_newerFirst | apply sort_Sorted].
  - unfold getProjectSnapshot. by rewrite (bind_ok _ _ _ _ _ (getProjectById_reads id w)), Hp.
Qed.

(** X16.  [deleteProject] on a stored project removes the project, the
    costs of the project and the sales of the project, and nothing else of
    these; the ledger entries that the costs and sales had created stay.
    The loops over the in-memory maps and the statements over the tables
    agree on this, and from then on [getProjectById] and
    [getProjectSnapshot] give [null] for the id.  (In memory the costs and
    sales sit under their own ids.) *)
Theorem deleteProject_removes_costs_and_sales id w p :
  projectsOf w !! id = Some p ->
  keyed cost_id (costs (fallbackStore w)) -> keyed sale_id (sales (fallbackStore w)) ->
  exists w',
    deleteProject id w = (w', Ok tt) /\
    projectsOf w' = delete id (projectsOf w) /\
    costsOf w' =
      filter (fun kv : string * ProjectCost => cost_projectId kv.2 <> id) (costsOf w) /\
    salesOf w' =
      filter (fun kv : string * ProjectSale => sale_projectId kv.2 <> id) (salesOf w) /\
    ledger w' = ledger w /\
    getProjectById id w' = (w', Ok None) /\
    getProjectSnapshot id w' = (w', Ok None).
Proof.
  intros Hp Hcosts Hsales.
  destruct (deleteProject_clears id w p Hp Hcosts Hsales)
    as (w' & Hrun & Hproj & Hc & Hs & Hl).
  assert (Hgone : projectsOf w' !! id = None) by (rewrite Hproj; apply lookup_delete_eq).
  exists w'. repeat (split; [assumption|]).
  unfold getProjectSnapshot. rewrite getProjectById_reads, Hgone. split; [done|].
  by rewrite (bind_ok _ _ _ _ _ (getProjectById_reads id w')), Hgone.
Qed.

Lemma deleteProject_removes_costs_and_sales_witness :
  exists w',
    deleteProject "P1" estateMemory = (w', Ok tt) /\
    projectsOf w' = delete "P1" (projectsOf estateMemory) /\
    costsOf w' =
      filter (fun kv : string * ProjectCost => cost_projectId kv.2 <> "P1")
        (costsOf estateMemory) /\
    salesOf w' =
      filter (fun kv : string * ProjectSale => sale_projectId kv.2 <> "P1")
        (salesOf estateMemory) /\
    ledger w' = ledger estateMemory /\
    getProjectById "P1" w' = (w', Ok None) /\
    getProjectSnapshot "P1" w' = (w', Ok None).
Proof.
  apply (deleteProject_removes_costs_and_sales "P1" estateMemory projectP1).
  - reflexivity.
  - exact estate_keyed_costs.
  - exact estate_keyed_sales.
Defined.

(** ** Invariants: what every operation keeps *)

Section Keeps.
Context (Imem : N -> FallbackStore -> Prop) (Idb : N -> Database -> Prop).
Hypothesis Imem_mono : forall n n' f, (n <= n')%N -> Imem n f -> Imem n' f.
Hypothesis Idb_mono : forall n n' d, (n <= n')%N -> Idb n d -> Idb n' d.

Lemma keeps_same j {A} (m : M A) : (forall w, (m w).1 = w) -> keeps Imem Idb j m.
Proof. intros H w _ Hw. rewrite H. split; [done|lia]. Qed.

Lemma keeps_ret j {A} (a : A) : keeps Imem Idb j (ret a).
Proof. by apply keeps_same. Qed.

Lemma keeps_throw j {A} e : keeps Imem Idb j (@throw A e).
Proof. by apply keeps_same. Qed.

Lemma keeps_clock j : keeps Imem Idb j clock.
Proof. by apply keeps_same. Qed.

Lemma keeps_getFallback j : keeps Imem Idb j getFallback.
Proof. by apply keeps_same. Qed.

Lemma keeps_getMysqlPool j : keeps Imem Idb j getMysqlPool.
Proof. by apply keeps_same. Qed.

Lemma keeps_first_row j {A} (row : option A) : keeps Imem Idb j (first_row row).
Proof. destruct row; [apply keeps_ret|apply keeps_throw]. Qed.

Lemma keeps_select j {A} (q : Database -> A) : keeps Imem Idb j (Sql.select q).
Proof. apply keeps_same. intros [[d|] f n t]; by unfold Sql.select. Qed.

Lemma keeps_weaken j j' {A} (m : M A) :
  (j <= j')%N -> keeps Imem Idb j m -> keeps Imem Idb j' m.
Proof. intros Hj H w Hw. apply H. lia. Qed.

Lemma holds_drawn b f n n' t :
  (n <= n')%N -> holds Imem Idb (mkWorld b f n t) -> holds Imem Idb (mkWorld b f n' t).
Proof.
  intros Hn [Hm Hd]. split; simpl in *; [by eapply Imem_mono|].
  destruct b; [by eapply Idb_mono|done].
Qed.

Lemma keeps_draw j : keeps Imem Idb j draw.
Proof.
  intros [b f n t] _ Hw. simpl. split; [|lia]. apply (holds_drawn b f n); [lia|done].
Qed.

Lemma keeps_bind j {A B} (m : M A) (k : A -> M B) :
  keeps Imem Idb j m -> (forall a, keeps Imem Idb j (k a)) -> keeps Imem Idb j (m ≫= k).
Proof.
  intros Hm Hk w Hj Hw. destruct (Hm w Hj Hw) as [Hw1 H1].
  unfold mbind, M_bind, bind. destruct (m w) as [w1 [a|e]]; simpl in *; [|done].
  destruct (Hk a w1) as [Hw2 H2]; [lia|done|]. split; [done|lia].
Qed.

Lemma keeps_draw_bind j {B} (k : string -> M B) :
  (forall n, (j <= n)%N -> keeps Imem Idb (N.succ n) (k (uuid n))) ->
  keeps Imem Idb j (draw ≫= k).
Proof.
  intros Hk [b f n t] Hj Hw. unfold mbind, M_bind, bind. simpl in *.
  destruct (Hk n Hj (mkWorld b f (N.succ n) t)) as [Hw2 H2]; simpl in *; [lia| |].
  - apply (holds_drawn b f n); [lia|done].
  - split; [done|lia].
Qed.

Lemma keeps_getFallback_bind j {B} (k : FallbackStore -> M B) :
  (forall n f, (j <= n)%N -> Imem n f -> keeps Imem Idb n (k f)) ->
  keeps Imem Idb j (getFallback ≫= k).
Proof.
  intros Hk w Hj Hw. unfold mbind, M_bind, bind. simpl.
  apply (Hk (uuids w) (fallbackStore w)); [done|by destruct Hw|lia|done].
Qed.

Lemma keeps_inTransaction j {A} (body : M A) :
  keeps Imem Idb j body -> keeps Imem Idb j (inTransaction body).
Proof.
  intros Hbody w Hj Hw. destruct (Hbody w Hj Hw) as [[Hm1 Hd1] H1].
  unfold inTransaction. destruct (body w) as [w1 [a|e]]; simpl in *; [done|].
  split; [|done]. split; simpl; [done|].
  destruct Hw as [_ Hd]. destruct (backend w); [by eapply Idb_mono|done].
Qed.

Lemma keeps_swallow j (body : M unit) :
  keeps Imem Idb j body -> keeps Imem Idb j (swallow body).
Proof.
  intros Hbody w Hj Hw. destruct (Hbody w Hj Hw) as [Hw1 H1].
  unfold swallow. by destruct (body w) as [w1 [a|e]].
Qed.

Lemma keeps_forM j {A B} (f : A -> M B) l :
  (forall x, keeps Imem Idb j (f x)) -> keeps Imem Idb j (forM f l).
Proof.
  intros Hf. induction l as [|x l IH]; simpl.
  - apply keeps_ret.
  - apply keeps_bind; [apply Hf|]. intros y.
    apply keeps_bind; [apply IH|]. intros ys. apply keeps_ret.
Qed.

Lemma keeps_updateFallback j g :
  (forall n f, (j <= n)%N -> Imem n f -> Imem n (g f)) -> keeps Imem Idb j (updateFallback g).
Proof.
  intros Hg [b f n t] Hj [Hm Hd]. simpl in *. split; [|lia]. split; simpl; [|done].
  by apply Hg.
Qed.

Lemma keeps_run j s :
  (forall n d d', (j <= n)%N -> Idb n d -> s d = Ok d' -> Idb n d') ->
  keeps Imem Idb j (Sql.run s).
Proof.
  intros Hs [[d|] f n t] Hj [Hm Hd]; unfold Sql.run; simpl in *; [|by split; [|lia]].
  destruct (s d) as [d'|e] eqn:Hsd; simpl; (split; [|lia]); split; simpl; try done.
  by eapply Hs.
Qed.

Lemma keeps_perform_all (ok : Operation -> Prop) :
  (forall op, ok op -> forall w, holds Imem Idb w -> holds Imem Idb (perform op w)) ->
  forall ops w, Forall ok ops -> holds Imem Idb w -> holds Imem Idb (performAll ops w).
Proof.
  intros Hop ops. unfold performAll. induction ops as [|op ops IH]; intros w Hok Hw; [done|].
  apply Forall_cons in Hok as [Hok1 Hok]. simpl. apply IH; [done|]. by apply Hop.
Qed.
End Keeps.

(** The steps that need nothing of the invariant. *)
Ltac keeps_step Hm Hd :=
  lazymatch goal with
  | |- keeps _ _ _ (getFallback ≫= _) =>
      apply (keeps_getFallback_bind _ _); intros ? ? ? ?
  | |- keeps _ _ _ (draw ≫= _) => apply (keeps_draw_bind _ _ Hm Hd); intros ? ?
  | |- keeps _ _ _ (_ ≫= _) => apply (keeps_bind _ _); [|intros ?]
  | |- keeps _ _ _ (ret _) => apply keeps_ret
  | |- keeps _ _ _ (mret _) => apply keeps_ret
  | |- keeps _ _ _ (throw _) => apply keeps_throw
  | |- keeps _ _ _ draw => apply (keeps_draw _ _ Hm Hd)
  | |- keeps _ _ _ clock => apply keeps_clock
  | |- keeps _ _ _ getFallback => apply keeps_getFallback
  | |- keeps _ _ _ getMysqlPool => apply keeps_getMysqlPool
  | |- keeps _ _ _ (first_row _) => apply keeps_first_row
  | |- keeps _ _ _ (Sql.select _) => apply keeps_select
  | |- keeps _ _ _ (inTransaction _) => apply (keeps_inTransaction _ _ Hd)
  | |- keeps _ _ _ (swallow _) => apply keeps_swallow
  | |- keeps _ _ _ (forM _ _) => apply (keeps_forM _ _); intros ?
  | |- keeps _ _ _ (if ?b then _ else _) => destruct b eqn:?
  | |- keeps _ _ _ (match ?x with _ => _ end) => destruct x eqn:?
  | |- keeps _ _ _ (let _ := _ in _) => cbv zeta
  end.

(** ** The stock never goes negative *)

Lemma stock_mem_mono n n' f : (n <= n')%N -> stock_mem n f -> stock_mem n' f.
Proof. done. Qed.

Lemma stock_db_mono n n' d : (n <= n')%N -> stock_db n d -> stock_db n' d.
Proof. done. Qed.

(** A write to the maps that leaves the items alone. *)
Lemma stock_updateFallback j g :
  (forall f, items (g f) = items f) -> keeps stock_mem stock_db j (updateFallback g).
Proof.
  intros Hg. apply keeps_updateFallback. intros n f _ Hf k i. rewrite Hg. apply Hf.
Qed.

(** A statement that leaves [inventory_items] alone. *)
Lemma stock_run j s :
  (forall d d', s d = Ok d' -> db_inventory_items d' = db_inventory_items d) ->
  keeps stock_mem stock_db j (Sql.run s).
Proof.
  intros Hs. apply keeps_run. intros n d d' _ Hd Hsd k i. rewrite (Hs d d' Hsd). apply Hd.
Qed.

Ltac stock_statement :=
  let d := fresh "d" in let d' := fresh "d'" in let H := fresh "H" in
  intros d d' H;
  unfold Sql.insert_transaction, Sql.insert_inventory_movement, Sql.insert_project,
    Sql.insert_project_cost, Sql.insert_project_sale, Sql.insert_project_installment,
    Sql.insert_installment_reminder, Sql.approve_transaction, Sql.delete_transaction,
    Sql.delete_project_sales, Sql.delete_project_costs, Sql.delete_project in H;
  repeat case_match; simplify_eq; reflexivity.

Ltac stock_step :=
  first
    [ keeps_step stock_mem_mono stock_db_mono
    | lazymatch goal with
      | |- keeps _ _ _ (updateFallback _) =>
          apply stock_updateFallback; intros ?; reflexivity
      | |- keeps _ _ _ (Sql.run _) => apply stock_run; stock_statement
      end ].

Ltac stock_all := repeat stock_step.

Lemma stock_createTransactionFallback j input :
  keeps stock_mem stock_db j (createTransactionFallback input).
Proof. unfold createTransactionFallback. stock_all. Qed.

Lemma stock_insertTransactionDb j input :
  keeps stock_mem stock_db j (insertTransactionDb input).
Proof. unfold insertTransactionDb. stock_all. Qed.

Lemma stock_createTransaction j input : keeps stock_mem stock_db j (createTransaction input).
Proof.
  unfold createTransaction. stock_all;
    [apply stock_createTransactionFallback|apply stock_insertTransactionDb].
Qed.

Lemma stock_approveTransaction j id : keeps stock_mem stock_db j (approveTransaction id).
Proof. unfold approveTransaction. stock_all. Qed.

Lemma stock_deleteTransaction j id : keeps stock_mem stock_db j (deleteTransaction id).
Proof. unfold deleteTransaction. stock_all. Qed.

Lemma stock_createInventoryItem j input :
  0 <= iic_quantity input -> keeps stock_mem stock_db j (createInventoryItem input).
Proof.
  intros Hq. unfold createInventoryItem. stock_all.
  - apply keeps_updateFallback. intros n' f _ Hf k i. simpl.
    intros [[_ <-]|[_ Hi]]%lookup_insert_Some; [done|by apply (Hf k)].
  - apply keeps_run. intros n' d d' _ Hd Hs k i.
    unfold Sql.insert_inventory_item in Hs. case_match; simplify_eq. simpl.
    intros [[_ <-]|[_ Hi]]%lookup_insert_Some; [done|by apply (Hd k)].
Qed.

Lemma stock_deleteInventoryItem j id : keeps stock_mem stock_db j (deleteInventoryItem id).
Proof.
  unfold deleteInventoryItem. stock_all.
  - apply keeps_updateFallback. intros n' f _ Hf k i. simpl.
    intros [_ Hi]%lookup_delete_Some. by apply (Hf k).
  - apply keeps_run. intros n' d d' _ Hd Hs k i.
    unfold Sql.delete_inventory_item in Hs. case_match; simplify_eq; [|apply Hd].
    simpl. intros [_ Hi]%lookup_delete_Some. by apply (Hd k).
Qed.

Lemma stock_getItemRowForUpdate j id : keeps stock_mem stock_db j (getItemRowForUpdate id).
Proof. unfold getItemRowForUpdate. stock_all. Qed.

Lemma stock_alter (g : InventoryItem -> InventoryItem) id (m : gmap string InventoryItem) :
  (forall i, 0 <= item_quantity i -> 0 <= item_quantity (g i)) ->
  (forall k i, m !! k = Some i -> 0 <= item_quantity i) ->
  forall k i, alter g id m !! k = Some i -> 0 <= item_quantity i.
Proof.
  intros Hg Hm k i. destruct (decide (k = id)) as [->|Hne].
  - rewrite lookup_alter_eq. destruct (m !! id) as [i0|] eqn:Hi0; [|done].
    intros [= <-]. apply Hg. by apply (Hm id).
  - rewrite lookup_alter_ne by done. apply Hm.
Qed.

(** Rounding to a double keeps the sign. *)
Lemma double_nonneg x : 0 <= x -> 0 <= JS.double x.
Proof.
  intros Hx. unfold JS.double. cbv zeta. destruct (Z.abs x <=? 2 ^ 53); [done|].
  apply Z.mul_nonneg_nonneg; [by apply Z.sgn_nonneg|].
  apply Z.mul_nonneg_nonneg; [|apply Z.pow_nonneg; lia].
  assert (Hq : 0 <= Z.abs x / 2 ^ (Z.log2 (Z.abs x) - 52)).
  { apply Z_div_nonneg_nonneg; [lia|]. apply Z.pow_nonneg. lia. }
  destruct (_ || _); lia.
Qed.

Lemma stock_recordInventoryReceipt j input :
  0 <= mi_qty input -> keeps stock_mem stock_db j (recordInventoryReceipt input).
Proof.
  intros Hq. unfold recordInventoryReceipt. stock_all;
    try first [apply stock_createTransactionFallback | apply stock_insertTransactionDb
              | apply stock_getItemRowForUpdate].
  - apply keeps_updateFallback. intros n' f' _ Hf' k i0. simpl.
    intros [[_ <-]|[_ Hi]]%lookup_insert_Some; [|by apply (Hf' k)]. simpl.
    match goal with
    | Hf : stock_mem _ ?f, Hi : items ?f !! _ = Some ?i |- _ => specialize (Hf _ _ Hi)
    end. apply double_nonneg. lia.
  - apply keeps_run. intros n' d d' _ Hd Hs. unfold Sql.add_item_quantity in Hs.
    simplify_eq. unfold stock_db. simpl. apply stock_alter; [|exact Hd].
    intros i Hi. simpl. apply double_nonneg. lia.
Qed.

Lemma stock_recordInventoryIssue j input :
  keeps stock_mem stock_db j (recordInventoryIssue input).
Proof.
  unfold recordInventoryIssue. stock_all;
    try first [apply stock_createTransactionFallback | apply stock_insertTransactionDb
              | apply stock_getItemRowForUpdate].
  - apply keeps_updateFallback. intros n' f' _ Hf' k i0. simpl.
    intros [[_ <-]|[_ Hi]]%lookup_insert_Some; [|by apply (Hf' k)]. simpl. lia.
  - apply keeps_run. intros n' d d' _ Hd Hs. unfold Sql.set_item_quantity in Hs.
    simplify_eq. unfold stock_db. simpl. apply stock_alter; [|exact Hd].
    intros i Hi. simpl. lia.
Qed.

Lemma stock_createProject j input : keeps stock_mem stock_db j (createProject input).
Proof. unfold createProject. stock_all. Qed.

Lemma stock_deleteProject j id : keeps stock_mem stock_db j (deleteProject id).
Proof. unfold deleteProject. stock_all. Qed.

Lemma stock_createProjectCost j input : keeps stock_mem stock_db j (createProjectCost input).
Proof.
  unfold createProjectCost. stock_all;
    first [apply stock_createTransactionFallback | apply stock_insertTransactionDb].
Qed.

Lemma stock_createInstallment j params pool i :
  keeps stock_mem stock_db j (createInstallment params pool i).
Proof. unfold createInstallment. stock_all. Qed.

Lemma stock_createInstallmentsForSale j params :
  keeps stock_mem stock_db j (createInstallmentsForSale params).
Proof. unfold createInstallmentsForSale. stock_all. apply stock_createInstallment. Qed.

Lemma stock_installmentsOfPlan j input saleId :
  keeps stock_mem stock_db j (installmentsOfPlan input saleId).
Proof. unfold installmentsOfPlan. stock_all. apply stock_createInstallmentsForSale. Qed.

Lemma stock_createProjectSale j input : keeps stock_mem stock_db j (createProjectSale input).
Proof.
  unfold createProjectSale. stock_all;
    first [apply stock_createTransactionFallback | apply stock_insertTransactionDb
          | apply stock_installmentsOfPlan].
Qed.

Lemma stock_createInstallmentReminder j id note :
  keeps stock_mem stock_db j (createInstallmentReminder id note).
Proof. unfold createInstallmentReminder. stock_all. Qed.

Lemma stock_getDueInstallments j asOfDate :
  keeps stock_mem stock_db j (getDueInstallments asOfDate).
Proof. unfold getDueInstallments, asOf, dueFallback. stock_all. Qed.

Lemma stock_runOnce j : keeps stock_mem stock_db j runOnce.
Proof.
  unfold runOnce. stock_all;
    [apply stock_getDueInstallments | apply stock_createInstallmentReminder].
Qed.

Lemma stock_payInstallment j params : keeps stock_mem stock_db j (payInstallment params).
Proof. unfold payInstallment. stock_all; apply stock_createTransaction. Qed.

Lemma stock_perform op w : admissible op -> stock_nonneg w -> stock_nonneg (perform op w).
Proof.
  intros Hop Hw. unfold stock_nonneg in *.
  destruct op; simpl in *; unfold after;
    try (match goal with
         | |- holds _ _ (?m w).1 =>
             let K := fresh in
             assert (K : keeps stock_mem stock_db 0 m);
             [|exact (proj1 (K w (N.le_0_l _) Hw))]
         end).
  - apply stock_createTransaction.
  - apply stock_approveTransaction.
  - apply stock_deleteTransaction.
  - by apply stock_createInventoryItem.
  - apply stock_deleteInventoryItem.
  - by apply stock_recordInventoryReceipt.
  - apply stock_recordInventoryIssue.
  - apply stock_createProject.
  - apply stock_deleteProject.
  - apply stock_createProjectCost.
  - apply stock_createProjectSale.
  - apply stock_payInstallment.
  - apply stock_createInstallmentReminder.
  - apply stock_runOnce.
  - destruct Hw as [Hm Hd]. by split.
Qed.

(** X17.  From a state in which no stored quantity is negative, no
    sequence of the store's operations, sweeps and clock ticks reaches a
    state with a negative quantity, in memory or in the tables, as long as
    the receipts and the new items carry quantities that are not negative
    (the routes let no others through); issues need no such condition,
    whatever quantity they ask for. *)
Theorem stock_never_negative ops w :
  stock_nonneg w -> Forall admissible ops ->
  forall k i, stock (performAll ops w) !! k = Some i -> 0 <= item_quantity i.
Proof.
  intros Hw Hops.
  assert (H : stock_nonneg (performAll ops w)).
  { apply (keeps_perform_all stock_mem stock_db admissible); [|done|done].
    intros op Hop w0. by apply stock_perform. }
  destruct H as [Hm Hd]. unfold stock. destruct (backend (performAll ops w)); [exact Hd|exact Hm].
Qed.

Lemma stock_never_negative_witness :
  exists i,
    stock (performAll [RecordInventoryIssue eightBags; RecordInventoryReceipt eightBags;
                       RecordInventoryIssue eightBags; DeleteInventoryItem "ITEM-2"]
             warehouseDatabase) !! "ITEM-1" = Some i /\
    0 <= item_quantity i.
Proof.
  eexists. split; [reflexivity|].
  apply (stock_never_negative
           [RecordInventoryIssue eightBags; RecordInventoryReceipt eightBags;
            RecordInventoryIssue eightBags; DeleteInventoryItem "ITEM-2"]
           warehouseDatabase) with (k := "ITEM-1").
  - split; simpl.
    + intros k i H. unfold emptyFallback in H. simpl in H. by apply lookup_empty_Some in H.
    + intros k i H. simpl in H. apply lookup_singleton_Some in H as [_ <-]. simpl. lia.
  - repeat constructor; simpl; lia.
  - reflexivity.
Defined.

(** ** Records stay under their own ids, and fresh identifiers stay fresh *)

Lemma wf_map_mono {V} (key : V -> string) n n' (m : gmap string V) :
  (n <= n')%N -> wf_map key n m -> wf_map key n' m.
Proof. intros Hn [Hk Hf]. split; [done|]. intros j Hj. apply Hf. lia. Qed.

Lemma wf_map_insert {V} (key : V -> string) n (m : gmap string V) k v :
  key v = k -> old n k -> wf_map key n m -> wf_map key n (<[k := v]> m).
Proof.
  intros Hkey Hold [Hk Hf]. split.
  - intros k' v'. intros [[<- <-]|[_ H]]%lookup_insert_Some; [done|by apply Hk].
  - intros j Hj. rewrite lookup_insert_ne; [by apply Hf|]. by apply Hold.
Qed.

Lemma wf_map_delete {V} (key : V -> string) n (m : gmap string V) k :
  wf_map key n m -> wf_map key n (delete k m).
Proof.
  intros [Hk Hf]. split.
  - intros k' v' [_ H]%lookup_delete_Some. by apply Hk.
  - intros j Hj. apply lookup_delete_None. right. by apply Hf.
Qed.

Lemma wf_map_filter {V} (key : V -> string) n (m : gmap string V)
    (P : string * V -> Prop) `{!forall x, Decision (P x)} :
  wf_map key n m -> wf_map key n (filter P m).
Proof.
  intros [Hk Hf]. split.
  - intros k' v' [Hv _]%map_lookup_filter_Some. by apply Hk.
  - intros j Hj. apply map_lookup_filter_None. left. by apply Hf.
Qed.

Lemma wf_map_alter {V} (key : V -> string) n (m : gmap string V) g k :
  (forall v, key (g v) = key v) -> wf_map key n m -> wf_map key n (alter g k m).
Proof.
  intros Hg [Hk Hf]. split.
  - intros k' v'. destruct (decide (k' = k)) as [->|Hne].
    + rewrite lookup_alter_eq. destruct (m !! k) as [v|] eqn:Hv; [|done].
      intros [= <-]. rewrite Hg. by apply Hk.
    + rewrite lookup_alter_ne by done. apply Hk.
  - intros j Hj. destruct (decide (uuid j = k)) as [<-|Hne].
    + by rewrite lookup_alter_eq, Hf.
    + rewrite lookup_alter_ne by done. by apply Hf.
Qed.

Lemma wf_map_delete_where {V} (key : V -> string) n (m : gmap string V) P :
  wf_map key n m -> wf_map key n (delete_where P key m).
Proof.
  intros Hm. unfold delete_where. induction (values m) as [|v l IH]; simpl; [done|].
  destruct (P v); [by apply wf_map_delete|done].
Qed.

Lemma old_uuid n n0 : (n0 < n)%N -> old n (uuid n0).
Proof. intros Hn j Hj Heq. apply uuid_inj in Heq. lia. Qed.

(** A key that is in use is none of the identifiers still to be drawn. *)
Lemma old_present {V} (key : V -> string) n n' (m : gmap string V) k v :
  wf_map key n m -> m !! k = Some v -> (n <= n')%N -> old n' k /\ key v = k.
Proof.
  intros [Hk Hf] Hv Hn. split; [|by apply Hk].
  intros j Hj ->. rewrite Hf in Hv; [done|lia].
Qed.

Lemma wf_mem_mono n n' f : (n <= n')%N -> wf_mem n f -> wf_mem n' f.
Proof.
  intros Hn (?&?&?&?&?&?&?). repeat split; by eapply wf_map_mono.
Qed.

Lemma wf_db_mono n n' d : (n <= n')%N -> wf_db n d -> wf_db n' d.
Proof.
  intros Hn (?&?&?&?&?&?&?&?). repeat split; by eapply wf_map_mono.
Qed.

(** The leaves: a write to the in-memory maps, a statement over the
    tables. *)
Ltac wf_maps :=
  first
    [ assumption
    | apply wf_map_delete; assumption
    | apply wf_map_filter; assumption
    | apply wf_map_delete_where; assumption
    | apply wf_map_alter; [intros ?; reflexivity|assumption]
    | apply wf_map_filter; apply wf_map_filter; assumption
    | apply wf_map_filter; apply wf_map_filter; apply wf_map_filter; assumption
    | apply wf_map_filter; apply wf_map_filter; apply wf_map_filter;
      apply wf_map_filter; assumption ].

Ltac wf_mem_leaf :=
  let n := fresh "n" in let f := fresh "f" in let Hn := fresh "Hn" in
  let Hf := fresh "Hf" in
  apply keeps_updateFallback; intros n f Hn Hf;
  destruct Hf as (?&?&?&?&?&?&?); unfold wf_mem; simpl;
  repeat (match goal with |- _ /\ _ => split end); try wf_maps.

Ltac wf_db_leaf :=
  let n := fresh "n" in let d := fresh "d" in let d' := fresh "d'" in
  let Hn := fresh "Hn" in let Hd := fresh "Hd" in let Hs := fresh "Hs" in
  apply keeps_run; intros n d d' Hn Hd Hs;
  unfold Sql.insert_transaction, Sql.insert_inventory_item, Sql.insert_inventory_movement,
    Sql.insert_project, Sql.insert_project_cost, Sql.insert_project_sale,
    Sql.insert_project_installment, Sql.insert_installment_reminder,
    Sql.approve_transaction, Sql.delete_transaction, Sql.add_item_quantity,
    Sql.set_item_quantity, Sql.delete_project_sales, Sql.delete_project_costs,
    Sql.delete_project, Sql.delete_inventory_item, Sql.delete_sales_where,
    Sql.delete_installments_where, Sql.cascade_installments in Hs;
  repeat case_match; simplify_eq;
  destruct Hd as (?&?&?&?&?&?&?&?); unfold wf_db; simpl;
  repeat (match goal with |- _ /\ _ => split end); try wf_maps.

Ltac wf_insert :=
  apply wf_map_insert; [reflexivity|apply old_uuid; lia|assumption].

Ltac wf_step :=
  first
    [ keeps_step wf_mem_mono wf_db_mono
    | lazymatch goal with
      | |- keeps _ _ _ (updateFallback _) => wf_mem_leaf
      | |- keeps _ _ _ (Sql.run _) => wf_db_leaf
      end ].

Ltac wf_all := repeat wf_step.

Lemma wf_createTransactionFallback j input :
  keeps wf_mem wf_db j (createTransactionFallback input).
Proof. unfold createTransactionFallback. wf_all; wf_insert. Qed.

Lemma wf_insertTransactionDb j input : keeps wf_mem wf_db j (insertTransactionDb input).
Proof. unfold insertTransactionDb. wf_all; wf_insert. Qed.

Lemma wf_createTransaction j input : keeps wf_mem wf_db j (createTransaction input).
Proof.
  unfold createTransaction. wf_all;
    [apply wf_createTransactionFallback|apply wf_insertTransactionDb].
Qed.

(** What a record read from the in-memory maps tells of its key. *)
Ltac wf_read key :=
  match goal with
  | Hf : wf_mem ?n ?f, Hv : ?proj ?f !! ?k = Some ?v, Hn : (?n <= ?n')%N
    |- wf_map key ?n' _ =>
      let Ho := fresh "Ho" in let Hk := fresh "Hk" in
      let W := fresh "W" in
      assert (W : wf_map key n (proj f)) by (unfold wf_mem in Hf; tauto);
      destruct (old_present key n n' (proj f) k v W Hv Hn) as [Ho Hk];
      apply wf_map_insert; [simpl; first [exact Hk|reflexivity]|first [exact Ho|by rewrite Hk]
                           |assumption]
  end.

Lemma wf_approveTransaction j id : keeps wf_mem wf_db j (approveTransaction id).
Proof. unfold approveTransaction. wf_all. wf_read tx_id. Qed.

Lemma wf_deleteTransaction j id : keeps wf_mem wf_db j (deleteTransaction id).
Proof. unfold deleteTransaction. wf_all. Qed.

Lemma wf_createInventoryItem j input : keeps wf_mem wf_db j (createInventoryItem input).
Proof. unfold createInventoryItem. wf_all; wf_insert. Qed.

Lemma wf_deleteInventoryItem j id : keeps wf_mem wf_db j (deleteInventoryItem id).
Proof. unfold deleteInventoryItem. wf_all. Qed.

Lemma wf_getItemRowForUpdate j id : keeps wf_mem wf_db j (getItemRowForUpdate id).
Proof. unfold getItemRowForUpdate. wf_all. Qed.

Lemma wf_recordInventoryReceipt j input : keeps wf_mem wf_db j (recordInventoryReceipt input).
Proof.
  unfold recordInventoryReceipt. wf_all;
    try first [apply wf_createTransactionFallback | apply wf_insertTransactionDb
              | apply wf_getItemRowForUpdate];
    try wf_insert.
  wf_read item_id.
Qed.

Lemma wf_recordInventoryIssue j input : keeps wf_mem wf_db j (recordInventoryIssue input).
Proof.
  unfold recordInventoryIssue. wf_all;
    try first [apply wf_createTransactionFallback | apply wf_insertTransactionDb
              | apply wf_getItemRowForUpdate];
    try wf_insert.
  wf_read item_id.
Qed.

Lemma wf_createProject j input : keeps wf_mem wf_db j (createProject input).
Proof. unfold createProject. wf_all; wf_insert. Qed.

Lemma wf_deleteProject j id : keeps wf_mem wf_db j (deleteProject id).
Proof. unfold deleteProject. wf_all. Qed.

Lemma wf_createProjectCost j input : keeps wf_mem wf_db j (createProjectCost input).
Proof.
  unfold createProjectCost. wf_all;
    try first [apply wf_createTransactionFallback | apply wf_insertTransactionDb];
    wf_insert.
Qed.

Lemma wf_createInstallment j params pool i :
  keeps wf_mem wf_db j (createInstallment params pool i).
Proof. unfold createInstallment. wf_all; wf_insert. Qed.

Lemma wf_createInstallmentsForSale j params :
  keeps wf_mem wf_db j (createInstallmentsForSale params).
Proof. unfold createInstallmentsForSale. wf_all. apply wf_createInstallment. Qed.

Lemma wf_installmentsOfPlan j input saleId :
  keeps wf_mem wf_db j (installmentsOfPlan input saleId).
Proof. unfold installmentsOfPlan. wf_all. apply wf_createInstallmentsForSale. Qed.

Lemma wf_createProjectSale j input : keeps wf_mem wf_db j (createProjectSale input).
Proof.
  unfold createProjectSale. wf_all;
    try first [apply wf_createTransactionFallback | apply wf_insertTransactionDb
              | apply wf_installmentsOfPlan];
    wf_insert.
Qed.

Lemma wf_createInstallmentReminder j id note :
  keeps wf_mem wf_db j (createInstallmentReminder id note).
Proof. unfold createInstallmentReminder. wf_all; wf_insert. Qed.

Lemma wf_getDueInstallments j asOfDate : keeps wf_mem wf_db j (getDueInstallments asOfDate).
Proof. unfold getDueInstallments, asOf, dueFallback. wf_all. Qed.

Lemma wf_runOnce j : keeps wf_mem wf_db j runOnce.
Proof.
  unfold runOnce. wf_all; [apply wf_getDueInstallments | apply wf_createInstallmentReminder].
Qed.

Lemma wf_payInstallment j params : keeps wf_mem wf_db j (payInstallment params).
Proof.
  unfold payInstallment. wf_all; try apply wf_createTransaction. wf_read inst_id.
Qed.

Lemma wf_perform op w : well_formed w -> well_formed (perform op w).
Proof.
  intros Hw. unfold well_formed in *.
  destruct op; simpl in *; unfold after;
    try (match goal with
         | |- holds _ _ (?m w).1 =>
             let K := fresh in
             assert (K : keeps wf_mem wf_db 0 m);
             [|exact (proj1 (K w (N.le_0_l _) Hw))]
         end).
  - apply wf_createTransaction.
  - apply wf_approveTransaction.
  - apply wf_deleteTransaction.
  - apply wf_createInventoryItem.
  - apply wf_deleteInventoryItem.
  - apply wf_recordInventoryReceipt.
  - apply wf_recordInventoryIssue.
  - apply wf_createProject.
  - apply wf_deleteProject.
  - apply wf_createProjectCost.
  - apply wf_createProjectSale.
  - apply wf_payInstallment.
  - apply wf_createInstallmentReminder.
  - apply wf_runOnce.
  - destruct Hw as [Hm Hd]. by split.
Qed.

Lemma well_formed_fresh w : well_formed w -> fresh_ids w.
Proof.
  intros [Hm Hd] n Hn. split.
  - destruct Hm as ((_&?)&(_&?)&(_&?)&(_&?)&(_&?)&(_&?)&(_&?)).
    unfold unused_in_memory. by repeat split; auto.
  - destruct (backend w); [|done].
    destruct Hd as ((_&?)&(_&?)&(_&?)&(_&?)&(_&?)&(_&?)&(_&?)&(_&?)).
    unfold unused_in_tables. by repeat split; auto.
Qed.

(** X18.  From a state in which every record sits under its own id and no
    identifier still to be drawn is in use, in particular from one with
    nothing stored, every sequence of the store's operations, sweeps and
    clock ticks leads to such a state again: the identifiers still to be
    drawn stay unused, and the in-memory installments, the rows of the
    installments and the stored movements stay under their own ids. *)
Theorem operations_keep_well_formed ops w :
  well_formed w ->
  well_formed (performAll ops w) /\
  fresh_ids (performAll ops w) /\
  installments_keyed (performAll ops w) /\
  keyed mv_id (movements (fallbackStore (performAll ops w))) /\
  (forall d, backend (performAll ops w) = Some d -> tables_keyed d).
Proof.
  intros Hw.
  assert (H : well_formed (performAll ops w)).
  { apply (keeps_perform_all wf_mem wf_db (fun _ => True)).
    - intros op _ w0. apply wf_perform.
    - by apply Forall_forall.
    - done. }
  split; [done|]. split; [by apply well_formed_fresh|].
  destruct H as [Hm Hd]. destruct Hm as (_&_&(Hmv&_)&_&_&_&(Hi&_)).
  split; [exact Hi|]. split; [exact Hmv|].
  intros d Hb. rewrite Hb in Hd. by destruct Hd as (_&_&_&_&_&_&(?&_)&_).
Qed.

Lemma wf_map_empty {V} (key : V -> string) n : wf_map key n (∅ : gmap string V).
Proof. split; [intros k v H; by apply lookup_empty_Some in H|intros j _; apply lookup_empty]. Qed.

Lemma operations_keep_well_formed_witness :
  well_formed (performAll [CreateProject (mkProjectCreateInput "Tower" "Cairo" 10 40 "2023-12-01");
                           CreateProjectSale saleOnCredit; RunOnce] blankMemory) /\
  fresh_ids (performAll [CreateProject (mkProjectCreateInput "Tower" "Cairo" 10 40 "2023-12-01");
                         CreateProjectSale saleOnCredit; RunOnce] blankMemory) /\
  installments_keyed
    (performAll [CreateProject (mkProjectCreateInput "Tower" "Cairo" 10 40 "2023-12-01");
                 CreateProjectSale saleOnCredit; RunOnce] blankMemory) /\
  keyed mv_id
    (movements (fallbackStore
       (performAll [CreateProject (mkProjectCreateInput "Tower" "Cairo" 10 40 "2023-12-01");
                    CreateProjectSale saleOnCredit; RunOnce] blankMemory))) /\
  (forall d,
     backend (performAll [CreateProject (mkProjectCreateInput "Tower" "Cairo" 10 40 "2023-12-01");
                          CreateProjectSale saleOnCredit; RunOnce] blankMemory) = Some d ->
     tables_keyed d).
Proof.
  apply (operations_keep_well_formed
           [CreateProject (mkProjectCreateInput "Tower" "Cairo" 10 40 "2023-12-01");
            CreateProjectSale saleOnCredit; RunOnce] blankMemory).
  split; [|exact I]. unfold wf_mem. simpl.
  repeat (match goal with |- _ /\ _ => split end); apply wf_map_empty.
Defined.

(** ** The drain of the offline queue, further *)

Module DrainFacts.
Import OfflineQueue DrainSpec Drain.
Local Open Scope list_scope.

(** *** How long a drain goes on *)

Lemma timesSent_app i log1 log2 :
  timesSent i (log1 ++ log2) = (timesSent i log1 + timesSent i log2)%nat.
Proof. unfold timesSent, sentIds. by rewrite map_app, filter_app, length_app. Qed.

Lemma filter_absent (i : string) (l : list string) :
  i ∉ l -> filter (fun j => j = i) l = [].
Proof.
  induction l as [|x l IH]; [done|]. intros Hi. apply not_elem_of_cons in Hi as [Hx Hl].
  rewrite filter_cons. rewrite decide_False by congruence. by apply IH.
Qed.

Lemma NoDup_once (i : string) (l : list string) :
  NoDup l -> (length (filter (fun j => j = i) l) <= 1)%nat.
Proof.
  induction 1 as [|x l Hx Hnd IH]; simpl; [lia|].
  rewrite filter_cons. case_decide as Hxi; simpl; [|done].
  subst x. rewrite (filter_absent _ _ Hx). simpl. lia.
Qed.

Lemma processQueue_sends_bounded j net : forall fuel c,
  NoDup (ids (queue c)) ->
  Forall (fun x => 5 - Z.of_nat j <= retryCount x) (queue c) ->
  exists tail,
    sent (processQueue fuel net c) = sent c ++ tail /\
    forall i, (timesSent i tail <= S j)%nat.
Proof.
  induction j as [|j IH]; intros fuel c Hnd Hq.
  - destruct fuel as [|fuel].
    { exists []. simpl. rewrite app_nil_r. split; [done|]. intros i. unfold timesSent.
      simpl. lia. }
    rewrite processQueue_S. cbv zeta.
    set (c0 := mkClient (queue c) (cache c) (auth_token c) (sent c) (waits c) (S (calls c))).
    assert (Hidle : exists tail, sent c0 = sent c ++ tail /\
                                 forall i, (timesSent i tail <= 1)%nat).
    { exists []. simpl. rewrite app_nil_r. split; [done|]. intros i. unfold timesSent.
      simpl. lia. }
    destruct (negb (onLine net (calls c))); [exact Hidle|].
    destruct (queue c) as [|x q] eqn:Hqc; [exact Hidle|]. rewrite <-Hqc in *. clear Hidle.
    destruct (replay_from net (queue c) c0 []) as (events & Hs & Hev & Hr & _).
    unfold replayAll. rewrite Hr. simpl app.
    assert (Hrem : events ≫= kept = []).
    { rewrite <-Hev in Hq. apply remaining_retryCount in Hq.
      destruct (events ≫= kept) as [|y r]; [done|].
      apply Forall_cons in Hq as [Hy _]. simpl in Hy. lia. }
    rewrite Hrem. exists events. cbn [sent]. split; [exact Hs|].
    intros i. unfold timesSent.
    assert (Hids : sentIds events = ids (queue c)).
    { unfold sentIds, ids. rewrite <-Hev. by rewrite map_map. }
    rewrite Hids. by apply NoDup_once.
  - destruct fuel as [|fuel].
    { exists []. simpl. rewrite app_nil_r. split; [done|]. intros i. unfold timesSent.
      simpl. lia. }
    rewrite processQueue_S. cbv zeta.
    set (c0 := mkClient (queue c) (cache c) (auth_token c) (sent c) (waits c) (S (calls c))).
    assert (Hidle : exists tail, sent c0 = sent c ++ tail /\
                                 forall i, (timesSent i tail <= S (S j))%nat).
    { exists []. simpl. rewrite app_nil_r. split; [done|]. intros i. unfold timesSent.
      simpl. lia. }
    destruct (negb (onLine net (calls c))); [exact Hidle|].
    destruct (queue c) as [|x q] eqn:Hqc; [exact Hidle|]. rewrite <-Hqc in *. clear Hidle.
    destruct (replay_from net (queue c) c0 []) as (events & Hs & Hev & Hr & _).
    unfold replayAll in *. rewrite Hr. simpl app.
    assert (Hids : sentIds events = ids (queue c)).
    { unfold sentIds, ids. rewrite <-Hev. by rewrite map_map. }
    assert (Honce : forall i, (timesSent i events <= 1)%nat).
    { intros i. unfold timesSent. rewrite Hids. by apply NoDup_once. }
    destruct (events ≫= kept) as [|y r] eqn:Hrem.
    + exists events. cbn [sent]. split; [exact Hs|]. intros i. specialize (Honce i). lia.
    + rewrite <-Hrem.
      set (c3 := mkClient (events ≫= kept) _ _ _ _ _).
      destruct (IH fuel c3) as (tail & Hs3 & Hcount).
      { simpl. apply kept_NoDup. by rewrite Hids. }
      { simpl. rewrite <-Hev in Hq. apply remaining_retryCount in Hq.
        eapply Forall_impl; [exact Hq|]. intros z Hz. simpl in Hz. lia. }
      exists (events ++ tail). simpl in Hs3. rewrite Hs3, Hs, app_assoc. split; [done|].
      intros i. rewrite timesSent_app. specialize (Honce i). specialize (Hcount i). lia.
Qed.

(** X19.  In a drain of a queue whose requests have distinct ids and retry
    counts that are not negative, no request is sent more than six times,
    however the network behaves and however long the chain of calls is let
    run; and the chain ends by itself, so that seven calls give what any
    larger number gives. *)
Theorem processQueue_sends_at_most_six fuel net c :
  NoDup (ids (queue c)) ->
  Forall (fun x => 0 <= retryCount x) (queue c) ->
  (exists tail,
     sent (processQueue fuel net c) = sent c ++ tail /\
     forall i, (timesSent i tail <= 6)%nat) /\
  processQueue (7 + fuel) net c = processQueue 7 net c.
Proof.
  intros Hnd Hq. split.
  - apply (processQueue_sends_bounded 5); [done|].
    eapply Forall_impl; [exact Hq|]. intros x Hx. simpl in *. lia.
  - by apply processQueue_returns.
Qed.

Lemma processQueue_sends_at_most_six_witness :
  (exists tail,
     sent (processQueue 9 sampleNetwork sampleClient) = sent sampleClient ++ tail /\
     forall i, (timesSent i tail <= 6)%nat) /\
  processQueue (7 + 9) sampleNetwork sampleClient = processQueue 7 sampleNetwork sampleClient.
Proof.
  apply (processQueue_sends_at_most_six 9 sampleNetwork sampleClient).
  - apply (bool_decide_unpack _). vm_compute. exact I.
  - repeat constructor; simpl; lia.
Defined.

Lemma answers_elem net n q x : x ∈ q -> exists o, (x, o) ∈ answers net n q.
Proof.
  revert n. induction q as [|y q IH]; intros n Hx; [by apply elem_of_nil in Hx|].
  apply elem_of_cons in Hx as [->|Hx]; simpl.
  - eexists. by left.
  - destruct (IH (S n) Hx) as [o Ho]. exists o. by right.
Qed.

Lemma answers_lookup net n q k e :
  answers net n q !! k = Some e -> e.2 = respond net (n + k) e.1.
Proof.
  revert n k. induction q as [|y q IH]; intros n [|k] H; simpl in H; try done.
  - injection H as <-. simpl. by rewrite Nat.add_0_r.
  - rewrite (IH (S n) k H). f_equal. lia.
Qed.

(** A request that a pass does not keep has had its last word. *)
Lemma kept_nil_finished e : kept e = [] -> finished e.
Proof.
  unfold kept, keepForRetry, finished, retried. destruct e as [x [status|]]; simpl.
  - destruct (ok status); simpl; [by left|].
    destruct (Z.leb_spec 400 status), (Z.ltb_spec status 500); simpl;
      try (right; left; lia);
      (destruct (Z.leb_spec (retryCount x + 1) 5); [done|intros _; right; right; lia]).
  - destruct (Z.leb_spec (retryCount x + 1) 5); [done|intros _; lia].
Qed.

(** On line throughout, the drain goes on until every request has had its
    last word. *)
Lemma processQueue_fates j net : forall c,
  (forall n, onLine net n = true) ->
  Forall (fun x => 5 - Z.of_nat j <= retryCount x) (queue c) ->
  queue (processQueue (S j) net c) = [] /\
  exists tail,
    sent (processQueue (S j) net c) = sent c ++ tail /\
    (forall k e, tail !! k = Some e -> e.2 = respond net (length (sent c) + k) e.1) /\
    forall x, x ∈ queue c -> exists e, e ∈ tail /\ id e.1 = id x /\ finished e.
Proof.
  induction j as [|j IH]; intros c Hon Hq; rewrite processQueue_S; cbv zeta;
    rewrite Hon; cbn [negb];
    (destruct (queue c) as [|x0 q0] eqn:Hqc;
     [split; [done|]; exists []; simpl; rewrite app_nil_r; repeat split; try done;
      intros x Hx; by apply elem_of_nil in Hx|]); rewrite <-Hqc in *;
    set (c0 := mkClient (queue c) (cache c) (auth_token c) (sent c) (waits c) (S (calls c)));
    destruct (replay_pass net (queue c) c0 []) as (Hs & Hr); simpl in Hs, Hr;
    unfold replayAll in *; rewrite Hr;
    set (events := answers net (length (sent c)) (queue c)) in *;
    assert (Hev : map fst events = queue c) by apply answers_requests;
    rewrite <-Hev in Hq; apply remaining_retryCount in Hq.
  - destruct (events ≫= kept) as [|y r] eqn:Hrem.
    2:{ apply Forall_cons in Hq as [Hy _]. simpl in Hy. lia. }
    split; [done|]. exists events. cbn [sent]. split; [exact Hs|]. split.
    { intros k e. apply answers_lookup. }
    intros x Hx. destruct (answers_elem net (length (sent c)) (queue c) x Hx) as [o Ho].
    exists (x, o). split; [exact Ho|]. split; [done|]. apply kept_nil_finished.
    destruct (kept (x, o)) as [|y r] eqn:Hk; [done|].
    assert (Hin : y ∈ events ≫= kept).
    { apply list_elem_of_bind. exists (x, o). split; [|exact Ho]. rewrite Hk. by left. }
    rewrite Hrem in Hin. by apply elem_of_nil in Hin.
  - destruct (events ≫= kept) as [|y r] eqn:Hrem.
    + split; [done|]. exists events. cbn [sent]. split; [exact Hs|]. split.
      { intros k e. apply answers_lookup. }
      intros x Hx. destruct (answers_elem net (length (sent c)) (queue c) x Hx) as [o Ho].
      exists (x, o). split; [exact Ho|]. split; [done|]. apply kept_nil_finished.
      destruct (kept (x, o)) as [|y r] eqn:Hk; [done|].
      assert (Hin : y ∈ events ≫= kept).
      { apply list_elem_of_bind. exists (x, o). split; [|exact Ho]. rewrite Hk. by left. }
      rewrite Hrem in Hin. by apply elem_of_nil in Hin.
    + set (c3 := mkClient (y :: r) _ _ _ _ _).
      destruct (IH c3 Hon) as (Hempty & tail & Htail & Hout & Hfate).
      { cbn [queue c3]. eapply Forall_impl; [exact Hq|]. intros z Hz. simpl in Hz. lia. }
      split; [exact Hempty|]. exists (events ++ tail).
      rewrite Htail. cbn [sent c3]. rewrite Hs, <-app_assoc. split; [done|]. split.
      { intros k e Hk. apply lookup_app_Some in Hk as [Hk|[Hlen Hk]].
        - by apply (answers_lookup net _ (queue c)).
        - rewrite (Hout _ e Hk). cbn [sent c3]. rewrite Hs, length_app. f_equal. lia. }
      intros x Hx. destruct (answers_elem net (length (sent c)) (queue c) x Hx) as [o Ho].
      fold events in Ho.
      destruct (kept_cases (x, o)) as [Hk|(z & Hk & Hz)].
      * exists (x, o). split; [apply elem_of_app; by left|]. split; [done|].
        by apply kept_nil_finished.
      * destruct (Hfate z) as (e & He & Hid & Hfin).
        { cbn [queue c3]. rewrite <-Hrem. apply list_elem_of_bind. exists (x, o).
          split; [|exact Ho]. rewrite Hk. by left. }
        exists e. split; [apply elem_of_app; by right|]. split; [|done].
        by rewrite Hid, Hz.
Qed.

(** X20.  While the browser stays on line, a drain of a queue whose retry
    counts start from 0 or more sends requests, each getting what the
    network answers, until every request of the queue has had its last
    word (it was delivered, refused with a status from 400 to 499, or
    given up after failing with its retry count at 5), and the queue it
    saves at the end is empty. *)
Theorem processQueue_online_empties net c k :
  (forall n, onLine net n = true) ->
  Forall (fun x => 0 <= retryCount x) (queue c) ->
  queue (processQueue (6 + k) net c) = [] /\
  exists tail,
    sent (processQueue (6 + k) net c) = sent c ++ tail /\
    (forall n e, tail !! n = Some e -> e.2 = respond net (length (sent c) + n) e.1) /\
    forall x, x ∈ queue c -> exists e, e ∈ tail /\ id e.1 = id x /\ finished e.
Proof.
  intros Hon Hq.
  assert (H5 : Forall (fun x => 5 - Z.of_nat 5 <= retryCount x) (queue c)).
  { eapply Forall_impl; [exact Hq|]. intros x Hx. simpl in *. lia. }
  change (6 + k)%nat with (S 5 + k)%nat. rewrite (processQueue_enough 5 net c k H5).
  by apply processQueue_fates.
Qed.

Lemma processQueue_online_empties_witness :
  queue (processQueue (6 + 1) sampleNetwork sampleClient) = [] /\
  exists tail,
    sent (processQueue (6 + 1) sampleNetwork sampleClient) = sent sampleClient ++ tail /\
    (forall n e, tail !! n = Some e ->
       e.2 = respond sampleNetwork (length (sent sampleClient) + n) e.1) /\
    forall x, x ∈ queue sampleClient -> exists e, e ∈ tail /\ id e.1 = id x /\ finished e.
Proof.
  apply (processQueue_online_empties sampleNetwork sampleClient 1).
  - reflexivity.
  - repeat constructor; simpl; lia.
Defined.

(** *** A drain that meets no failure *)

Lemma replay_ok net item c remaining status :
  respond net (length (sent c)) item = Response status -> ok status = true ->
  replay net item (c, remaining) =
    (mkClient (queue c)
       (delete (cacheKeyFor (auth_token c) "/api/admin/users") (cache c))
       (auth_token c) (sent c ++ [(item, Response status)]) (waits c) (calls c),
     remaining).
Proof. intros Hr Hok. unfold replay. by rewrite Hr, Hok. Qed.

Lemma replayAll_ok net q : forall c,
  q <> [] ->
  (forall n item, exists status, respond net n item = Response status /\ ok status = true) ->
  exists events,
    fold_left (fun st item => replay net item st) q (c, []) =
      (mkClient (queue c)
         (delete (cacheKeyFor (auth_token c) "/api/admin/users") (cache c))
         (auth_token c) (sent c ++ events) (waits c) (calls c), []) /\
    map fst events = q /\
    Forall (fun e => exists status, e.2 = Response status /\ ok status = true) events.
Proof.
  induction q as [|item q IH]; intros c Hne Hnet; [done|]. cbn [fold_left].
  destruct (Hnet (length (sent c)) item) as (status & Hresp & Hok).
  rewrite (replay_ok _ _ _ _ _ Hresp Hok).
  destruct q as [|item' q'].
  - exists [(item, Response status)]. cbn [fold_left]. repeat split.
    repeat constructor. by exists status.
  - set (c1 := mkClient _ _ _ _ _ _).
    destruct (IH c1) as (events & Hrun & Hev & Hall); [done|done|].
    exists ((item, Response status) :: events). rewrite Hrun. subst c1. cbn.
    rewrite delete_delete_eq, <-app_assoc. repeat split.
    + simpl. by rewrite Hev.
    + constructor; [by exists status|done].
Qed.

(** X21.  When the browser is on line and every request gets a 2xx
    response, one call of [processQueue] sends each queued request once,
    in the order of the queue, saves an empty queue, removes the cached
    list of users of the current token from the cache and nothing else,
    waits for nothing and makes no further call. *)
Theorem processQueue_all_ok fuel net c :
  onLine net (calls c) = true -> queue c <> [] ->
  (forall n item, exists status, respond net n item = Response status /\ ok status = true) ->
  exists events,
    processQueue (S fuel) net c =
      mkClient [] (delete (cacheKeyFor (auth_token c) "/api/admin/users") (cache c))
        (auth_token c) (sent c ++ events) (waits c) (S (calls c)) /\
    map fst events = queue c.
Proof.
  intros Hon Hne Hnet. rewrite processQueue_S. cbv zeta. rewrite Hon. cbn [negb].
  destruct (queue c) as [|x q] eqn:Hq; [done|]. rewrite <-Hq in *.
  set (c0 := mkClient (queue c) (cache c) (auth_token c) (sent c) (waits c) (S (calls c))).
  destruct (replayAll_ok net (queue c) c0 Hne Hnet) as (events & Hrun & Hev & _).
  unfold replayAll. rewrite Hrun. exists events. by split.
Qed.

Lemma processQueue_all_ok_witness :
  exists events,
    processQueue (S 3) (mkNetwork (fun _ => true) (fun _ _ => Response 201)) sampleClient =
      mkClient [] (delete (cacheKeyFor (auth_token sampleClient) "/api/admin/users")
                     (cache sampleClient))
        (auth_token sampleClient) (sent sampleClient ++ events) (waits sampleClient)
        (S (calls sampleClient)) /\
    map fst events = queue sampleClient.
Proof.
  apply (processQueue_all_ok 3 (mkNetwork (fun _ => true) (fun _ _ => Response 201))
           sampleClient).
  - reflexivity.
  - discriminate.
  - intros n item. exists 201. split; reflexivity.
Defined.

(** *** The waits between the calls *)

Lemma backoff_bounds remaining :
  remaining <> [] -> Forall (fun y => 1 <= retryCount y <= 5) remaining ->
  2000 <= backoff remaining <= 30000.
Proof.
  destruct remaining as [|y r]; [done|]. intros _ H. apply Forall_cons in H as [Hy _].
  unfold backoff.
  assert (Hcases : retryCount y = 1 \/ retryCount y = 2 \/ retryCount y = 3 \/
                   retryCount y = 4 \/ retryCount y = 5) by lia.
  destruct Hcases as [->|[->|[->|[->| ->]]]]; simpl; lia.
Qed.

(** X22.  Every wait between two calls of a drain lasts from two to
    thirty seconds, when the retry counts of the queue start from 0 or
    more. *)
Theorem processQueue_waits_bounded fuel net c :
  Forall (fun x => 0 <= retryCount x) (queue c) ->
  exists ws,
    waits (processQueue fuel net c) = waits c ++ ws /\
    Forall (fun ms => 2000 <= ms <= 30000) ws.
Proof.
  revert c. induction fuel as [|fuel IH]; intros c Hq.
  - exists []. simpl. by rewrite app_nil_r.
  - rewrite processQueue_S. cbv zeta.
    set (c0 := mkClient (queue c) (cache c) (auth_token c) (sent c) (waits c) (S (calls c))).
    assert (Hidle : exists ws, waits c0 = waits c ++ ws /\
                               Forall (fun ms => 2000 <= ms <= 30000) ws).
    { exists []. simpl. by rewrite app_nil_r. }
    destruct (negb (onLine net (calls c))); [exact Hidle|].
    destruct (queue c) as [|x q] eqn:Hqc; [exact Hidle|]. rewrite <-Hqc in *. clear Hidle.
    destruct (replay_from net (queue c) c0 []) as (events & _ & Hev & Hr & _ & Hw & _).
    unfold replayAll in *. rewrite Hr, Hw. simpl app.
    rewrite <-Hev in Hq. apply (remaining_retryCount 0) in Hq.
    destruct (events ≫= kept) as [|y r] eqn:Hrem.
    + exists []. simpl. by rewrite app_nil_r.
    + rewrite <-Hrem in *.
      set (c3 := mkClient (events ≫= kept) _ _ _ _ _).
      destruct (IH c3) as (ws & Hws & Hall).
      { simpl. eapply Forall_impl; [exact Hq|]. intros z Hz. simpl in Hz. lia. }
      exists (backoff (events ≫= kept) :: ws). simpl in Hws. rewrite Hws.
      rewrite <-app_assoc. split; [done|]. constructor; [|done].
      apply backoff_bounds; [by rewrite Hrem|].
      eapply Forall_impl; [exact Hq|]. intros z Hz. simpl in Hz. lia.
Qed.

Lemma processQueue_waits_bounded_witness :
  exists ws,
    waits (processQueue 7 sampleNetwork sampleClient) = waits sampleClient ++ ws /\
    Forall (fun ms => 2000 <= ms <= 30000) ws.
Proof.
  apply (processQueue_waits_bounded 7 sampleNetwork sampleClient).
  repeat constructor; simpl; lia.
Defined.
End DrainFacts.

(** ** Users and sessions *)

Module AuthFacts.
Import Auth.

Lemma uuid_not_empty n : uuid n <> "".
Proof. unfold uuid. discriminate. Qed.

Lemma noToken_uuid n : noToken (Some (uuid n)) = false.
Proof. reflexivity. Qed.

Lemma find_Some_elem {A} (p : A -> bool) (l : list A) x :
  List.find p l = Some x -> x ∈ l /\ p x = true.
Proof.
  intros H. apply find_some in H as [Hin Hp]. split; [|done].
  by apply list_elem_of_In.
Qed.

(** On a map with distinct keys, [get] finds the value a pair of the map
    holds. *)
Lemma Map_get_elem {V} (m : list (string * V)) k v :
  NoDup (map fst m) -> (k, v) ∈ m -> Map_get k m = Some v.
Proof.
  unfold Map_get. induction m as [|[k' v'] m IH]; intros Hnd Hin; [by apply elem_of_nil in Hin|].
  simpl in *. apply NoDup_cons in Hnd as [Hk' Hnd].
  destruct (String.eqb_spec k' k) as [->|Hne].
  - apply elem_of_cons in Hin as [[= <-]|Hin]; [done|].
    exfalso. apply Hk'. apply list_elem_of_fmap. by exists (k, v).
  - apply elem_of_cons in Hin as [[= ? ?]|Hin]; [congruence|]. by apply IH.
Qed.

Lemma Map_get_Some {V} (m : list (string * V)) k v :
  Map_get k m = Some v -> (k, v) ∈ m.
Proof.
  unfold Map_get. destruct (List.find _ m) as [[k' v']|] eqn:Hf; [|done].
  intros [= <-]. apply find_Some_elem in Hf as [Hin Heq]. simpl in Heq.
  apply String.eqb_eq in Heq. by subst k'.
Qed.

Lemma Map_values_elem {V} (m : list (string * V)) v :
  v ∈ Map_values m -> exists k, (k, v) ∈ m.
Proof.
  unfold Map_values. intros H. apply list_elem_of_fmap in H as ([k v'] & -> & H). by exists k.
Qed.

Lemma authenticateFallback_sound username password s s' token user :
  authenticateFallback username password s = (s', Some (token, user)) ->
  exists u, u ∈ Map_values (fallbackUsers s) /\ safe u = user /\
            u_username user = username /\ Auth.password u = password /\
            u_active user = true /\
            token = uuid (drawn_ids s) /\
            pool s' = pool s /\ fallbackUsers s' = fallbackUsers s /\
            fallbackSessions s' = <[token := u_id user]> (fallbackSessions s).
Proof.
  unfold authenticateFallback.
  destruct (List.find _ _) as [u|] eqn:Hf; [|done]. intros [= <- <- <-].
  apply find_Some_elem in Hf as [Hin Hp].
  apply andb_prop in Hp as [Hp Hactive]. apply andb_prop in Hp as [Hname Hpw].
  apply String.eqb_eq in Hname, Hpw. exists u. by repeat split.
Qed.

(** X23.  [authenticate] only ever signs in an active user of that
    username whose password is the one given: a row of [users] whose hash
    [bcrypt] accepts, or else an in-memory user with exactly that
    password.  The token it returns is a fresh identifier. *)
Theorem authenticate_sound username password s s' token user :
  authenticate username password s = (s', Some (token, user)) ->
  u_username user = username /\ u_active user = true /\
  (exists n, token = uuid n /\ (drawn_ids s <= n)%N) /\
  ((exists t row, pool s = Some t /\ row ∈ values (users t) /\ mapUser row = user /\
                  bcrypt_compare password (password_hash row) = true) \/
   (exists u, u ∈ Map_values (fallbackUsers s) /\ safe u = user /\
              Auth.password u = password)).
Proof.
  unfold authenticate. intros H.
  assert (Hfb : forall s0, (drawn_ids s <= drawn_ids s0)%N ->
                           fallbackUsers s0 = fallbackUsers s ->
            authenticateFallback username password s0 = (s', Some (token, user)) ->
            u_username user = username /\ u_active user = true /\
            (exists n, token = uuid n /\ (drawn_ids s <= n)%N) /\
            ((exists t row, pool s = Some t /\ row ∈ values (users t) /\ mapUser row = user /\
                  bcrypt_compare password (password_hash row) = true) \/
             (exists u, u ∈ Map_values (fallbackUsers s) /\ safe u = user /\
                        Auth.password u = password))).
  { intros s0 Hn Hf H0. apply authenticateFallback_sound in H0
      as (u & Hin & Hsafe & Hname & Hpw & Hact & Htok & _).
    repeat split; try done.
    - by exists (drawn_ids s0).
    - right. exists u. by rewrite <-Hf. }
  destruct (pool s) as [t|] eqn:Hpool; [|by apply (Hfb s); [lia|done|]].
  destruct (select_by_username username t) as [row|] eqn:Hrow;
    [|by apply (Hfb s); [lia|done|]].
  apply find_Some_elem in Hrow as [Hin Hname]. apply String.eqb_eq in Hname.
  destruct (u_active (row_user row)) eqn:Hact; [|done]. simpl in H.
  destruct (bcrypt_compare password (password_hash row)) eqn:Hpw; [|done]. simpl in H.
  destruct (insert_session _ _ t) as [t'|e].
  - injection H as <- <- <-. repeat split; try done.
    + exists (drawn_ids s). split; [done|lia].
    + left. by exists t, row.
  - apply (Hfb _) in H; [done|simpl; lia|done].
Qed.

Lemma authenticate_sound_witness :
  u_username (mkUser (uuid 0) "root" "Manager" "admin@example.com" manager true) = "root" /\
  u_active (mkUser (uuid 0) "root" "Manager" "admin@example.com" manager true) = true /\
  (exists n, uuid 1 = uuid n /\ (drawn_ids loaded <= n)%N) /\
  ((exists t row, pool loaded = Some t /\ row ∈ values (users t) /\
                  mapUser row = mkUser (uuid 0) "root" "Manager" "admin@example.com"
                                  manager true /\
                  bcrypt_compare "password123" (password_hash row) = true) \/
   (exists u, u ∈ Map_values (fallbackUsers loaded) /\
              safe u = mkUser (uuid 0) "root" "Manager" "admin@example.com" manager true /\
              Auth.password u = "password123")).
Proof.
  apply (authenticate_sound "root" "password123" loaded
           (authenticate "root" "password123" loaded).1 (uuid 1)
           (mkUser (uuid 0) "root" "Manager" "admin@example.com" manager true)).
  reflexivity.
Defined.

(** X24.  A token that [authenticate] returned resolves, through
    [getUserByTokenAsync], to the user that was signed in, when the sign-in
    was served by the store that answers later: without a pool, by the
    in-memory users; with a pool, by the row of [users] of that username
    (the identifier drawn for the token being no token yet). *)
Theorem authenticate_then_getUserByToken username password s s' token user :
  authenticate username password s = (s', Some (token, user)) ->
  users_keyed (fallbackUsers s) -> Forall (fun kv => kv.1 <> "") (fallbackUsers s) ->
  match pool s with
  | None => True
  | Some t => is_Some (select_by_username username t) /\ rows_keyed t /\
              sessions t !! uuid (drawn_ids s) = None
  end ->
  getUserByTokenAsync (Some token) s' = Some user.
Proof.
  intros H [Hnd Hkeyed] Hne Hpool. unfold authenticate in H.
  destruct (pool s) as [t|] eqn:Hp.
  - destruct Hpool as ([row Hrow] & Hrows & Hfresh). rewrite Hrow in H.
    destruct (u_active (row_user row)); [|done]. simpl in H.
    destruct (bcrypt_compare password (password_hash row)); [|done]. simpl in H.
    apply find_Some_elem in Hrow as [Hin _]. apply values_lookup in Hin as [k Hk].
    assert (Hid : u_id (row_user row) = k) by (by apply Hrows).
    unfold insert_session in H. rewrite (fresh_key_true _ _ Hfresh) in H. simpl in H.
    rewrite (has_key_true (u_id (row_user row)) (users t)) in H by (rewrite Hid; eauto).
    injection H as <- <- <-. unfold getUserByTokenAsync. rewrite noToken_uuid. simpl.
    rewrite lookup_insert_eq. simpl. rewrite Hid, Hk. done.
  - apply authenticateFallback_sound in H
      as (u & Hin & Hsafe & _ & _ & _ & -> & Hp' & Hu' & Hs').
    unfold getUserByTokenAsync. rewrite noToken_uuid, Hp', Hp. simpl.
    unfold tokenFallback. rewrite Hs', lookup_insert_eq. simpl.
    apply Map_values_elem in Hin as [k Hk].
    assert (Hid : u_id (safe u) = k).
    { rewrite Forall_forall in Hkeyed. by apply (Hkeyed (k, u)). }
    assert (Hk0 : k <> "").
    { rewrite Forall_forall in Hne. by apply (Hne (k, u)). }
    rewrite <-Hsafe, Hid. destruct (String.eqb_spec k ""); [done|].
    rewrite Hu', (Map_get_elem _ k u Hnd Hk). done.
Qed.

Lemma authenticate_then_getUserByToken_witness :
  getUserByTokenAsync (Some (uuid 1)) (authenticate "root" "password123" loaded).1 =
    Some (mkUser (uuid 0) "root" "Manager" "admin@example.com" manager true).
Proof.
  apply (authenticate_then_getUserByToken "root" "password123" loaded
           (authenticate "root" "password123" loaded).1 (uuid 1)
           (mkUser (uuid 0) "root" "Manager" "admin@example.com" manager true)).
  - reflexivity.
  - split; simpl.
    + apply NoDup_singleton.
    + by repeat constructor.
  - by repeat constructor.
  - exact I.
Defined.

(** X25.  With a pool whose table has no row of the username, the sign-in
    falls through to the in-memory users: [authenticate] returns a token
    for the in-memory user that matches, stores it in the in-memory
    sessions only, and [getUserByTokenAsync], which asks the tables when
    there is a pool, does not know the token. *)
Theorem authenticate_falls_through username password s t :
  pool s = Some t -> select_by_username username t = None ->
  sessions t !! uuid (drawn_ids s) = None ->
  forall s' token user,
    authenticate username password s = (s', Some (token, user)) ->
    pool s' = Some t /\
    fallbackSessions s' !! token = Some (u_id user) /\
    getUserByTokenAsync (Some token) s' = None /\
    requireManager (Some token) s' = None.
Proof.
  intros Hp Hrow Hfresh s' token user H. unfold authenticate in H. rewrite Hp, Hrow in H.
  apply authenticateFallback_sound in H as (u & _ & _ & _ & _ & _ & -> & Hp' & _ & Hs').
  rewrite Hp', Hp, Hs', lookup_insert_eq. repeat split.
  - unfold getUserByTokenAsync. rewrite noToken_uuid, Hp', Hp. simpl. by rewrite Hfresh.
  - unfold requireManager, getUserByTokenAsync. rewrite noToken_uuid, Hp', Hp. simpl.
    by rewrite Hfresh.
Qed.

Lemma authenticate_falls_through_witness :
  exists s' token user,
    authenticate "root" "password123" loadedWithPool = (s', Some (token, user)) /\
    pool s' = Some (mkTables ∅ ∅) /\
    fallbackSessions s' !! token = Some (u_id user) /\
    getUserByTokenAsync (Some token) s' = None /\
    requireManager (Some token) s' = None.
Proof.
  eexists _, _, _. split; [reflexivity|].
  apply (authenticate_falls_through "root" "password123" loadedWithPool (mkTables ∅ ∅));
    reflexivity.
Defined.

(** X26.  After [invalidateToken], the token resolves to no user, and
    every other token resolves as before.  (A pool is only there when the
    store is configured.) *)
Theorem invalidateToken_signs_out token s :
  (is_Some (pool s) -> configured s = true) ->
  getUserByTokenAsync (Some token) (invalidateToken token s) = None /\
  forall other, other <> token ->
    getUserByTokenAsync (Some other) (invalidateToken token s) =
    getUserByTokenAsync (Some other) s.
Proof.
  intros Hconf. destruct s as [[t|] conf fu fs n k c]; simpl in Hconf.
  - rewrite Hconf by eauto.
    unfold invalidateToken, invalidateTokenAsync, getUserByTokenAsync, noToken. simpl.
    destruct (String.eqb_spec token "") as [->|Hne]; simpl.
    + split; [done|]. intros other _. done.
    + rewrite lookup_delete_eq. split; [done|]. intros other Hother.
      destruct (String.eqb other ""); [done|]. by rewrite lookup_delete_ne.
  - unfold invalidateToken, invalidateTokenAsync, getUserByTokenAsync, noToken,
      tokenFallback. simpl.
    destruct (String.eqb_spec token "") as [->|Hne]; simpl.
    + split; [done|]. intros other Hother. destruct (String.eqb other ""); [done|].
      by rewrite lookup_delete_ne.
    + destruct conf; simpl; rewrite ?delete_delete_eq, lookup_delete_eq;
        (split; [done|]); intros other Hother;
        (destruct (String.eqb other ""); [done|]); by rewrite lookup_delete_ne.
Qed.

Lemma invalidateToken_signs_out_witness :
  let s := (authenticate "root" "password123" loaded).1 in
  getUserByTokenAsync (Some (uuid 1)) (invalidateToken (uuid 1) s) = None /\
  forall other, other <> uuid 1 ->
    getUserByTokenAsync (Some other) (invalidateToken (uuid 1) s) =
    getUserByTokenAsync (Some other) s.
Proof.
  intros s. apply (invalidateToken_signs_out (uuid 1) s). intros [t Ht]. discriminate.
Defined.

Lemma Map_delete_get {V} (m : list (string * V)) id k v :
  Map_get k (Map_delete id m) = Some v -> k <> id /\ (k, v) ∈ m.
Proof.
  intros H. apply Map_get_Some in H. unfold Map_delete in H.
  apply list_elem_of_In, filter_In in H as [Hin Hne]. simpl in Hne.
  split; [|by apply list_elem_of_In].
  intros ->. by rewrite String.eqb_refl in Hne.
Qed.

(** X27.  Once [deleteUser] has run, no token resolves to the deleted
    user: over the tables the sessions of the user go with the row, and in
    memory the sessions stay but find no user.  The call answers whether
    the user was there. *)
Theorem deleteUser_signs_out id s :
  users_keyed (fallbackUsers s) ->
  match pool s with Some t => rows_keyed t | None => True end ->
  (deleteUser id s).2 =
    match pool s with
    | Some t => bool_decide (is_Some (users t !! id))
    | None => Map_has id (fallbackUsers s)
    end /\
  forall token user,
    getUserByTokenAsync token (deleteUser id s).1 = Some user -> u_id user <> id.
Proof.
  intros [Hnd Hkeyed] Hrows. unfold deleteUser. destruct (pool s) as [t|] eqn:Hp.
  - split; [done|]. intros token user. unfold getUserByTokenAsync. simpl.
    destruct (noToken token); [done|].
    destruct (filter _ (sessions t) !! default "" token) as [uid|] eqn:Hs; [|done]. simpl.
    apply map_lookup_filter_Some in Hs as [_ Huid]. simpl in Huid.
    rewrite lookup_delete_ne by done.
    destruct (users t !! uid) as [row|] eqn:Hrow; [|done]. simpl. intros [= <-].
    unfold mapUser. by rewrite (Hrows _ _ Hrow).
  - split; [done|]. intros token user. unfold getUserByTokenAsync. simpl. rewrite Hp.
    destruct (noToken token); [done|]. unfold tokenFallback. simpl.
    destruct (fallbackSessions s !! default "" token) as [uid|]; [|done]. simpl.
    destruct (String.eqb uid ""); [done|].
    destruct (Map_get uid (Map_delete id (fallbackUsers s))) as [u|] eqn:Hu; [|done].
    simpl. intros [= <-]. apply Map_delete_get in Hu as [Hne Hin].
    rewrite Forall_forall in Hkeyed. specialize (Hkeyed (uid, u) Hin). simpl in Hkeyed.
    congruence.
Qed.

Lemma deleteUser_signs_out_witness :
  let s := (authenticate "root" "password123" loaded).1 in
  (deleteUser (uuid 0) s).2 =
    match pool s with
    | Some t => bool_decide (is_Some (users t !! uuid 0))
    | None => Map_has (uuid 0) (fallbackUsers s)
    end /\
  forall token user,
    getUserByTokenAsync token (deleteUser (uuid 0) s).1 = Some user -> u_id user <> uuid 0.
Proof.
  intros s. apply (deleteUser_signs_out (uuid 0) s).
  - split; simpl.
    + apply NoDup_singleton.
    + by repeat constructor.
  - exact I.
Defined.

Lemma Map_set_values {V} (m : list (string * V)) k v :
  Map_get k m = None -> Map_set k v m = (m ++ [(k, v)])%list.
Proof.
  unfold Map_get. induction m as [|[k' v'] m IH]; simpl; [done|].
  destruct (String.eqb k' k); [done|]. intros H. by rewrite IH.
Qed.

(** X28.  [createUser] checks the username only through the tables.
    Without a pool it always stores the user, after those already there,
    even when another user has that username; with a pool whose table
    has a row of that username it throws and stores nothing. *)
Theorem createUser_duplicate_username input s :
  Map_get (uuid (drawn_ids s)) (fallbackUsers s) = None ->
  match pool s with
  | None =>
      exists s' user,
        createUser input s = (s', Ok user) /\
        u_username user = in_username input /\
        listUsers s' = (listUsers s ++ [user])%list
  | Some t =>
      is_Some (select_by_username (in_username input) t) ->
      exists s' e, createUser input s = (s', Err e) /\ pool s' = Some t /\
                   listUsers s' = listUsers s
  end.
Proof.
  intros Hfresh. unfold createUser. destruct (pool s) as [t|] eqn:Hp.
  - intros Hrow. simpl. unfold insert_user. simpl.
    destruct (Sql.fresh_key _ _); simpl.
    + rewrite bool_decide_eq_true_2 by done. eexists _, _. split; [done|].
      simpl. unfold listUsers. simpl. by rewrite Hp.
    + eexists _, _. split; [done|]. simpl. unfold listUsers. simpl. by rewrite Hp.
  - simpl. eexists _, _. split; [done|]. simpl. split; [done|].
    unfold listUsers. simpl. rewrite Hp. rewrite (Map_set_values _ _ _ Hfresh).
    unfold Map_values. by rewrite !map_app.
Qed.

Lemma createUser_duplicate_username_witness :
  exists s' user,
    createUser (mkUserCreateInput "root" "Second" "second@example.com" employee "pw" None)
      loaded = (s', Ok user) /\
    u_username user = "root" /\
    listUsers s' = (listUsers loaded ++ [user])%list.
Proof.
  apply (createUser_duplicate_username
           (mkUserCreateInput "root" "Second" "second@example.com" employee "pw" None) loaded).
  reflexivity.
Defined.

Lemma Map_get_set_eq {V} (m : list (string * V)) k v : Map_get k (Map_set k v m) = Some v.
Proof.
  unfold Map_get. induction m as [|[k' v'] m IH]; simpl.
  - by rewrite String.eqb_refl.
  - destruct (String.eqb k' k) eqn:Hk; simpl; [by rewrite String.eqb_refl|].
    by rewrite Hk.
Qed.

Lemma Map_get_set_ne {V} (m : list (string * V)) k k' v :
  k' <> k -> Map_get k' (Map_set k v m) = Map_get k' m.
Proof.
  intros Hne. unfold Map_get. induction m as [|[k0 v0] m IH]; simpl.
  - by destruct (String.eqb_spec k k').
  - destruct (String.eqb_spec k0 k) as [->|Hk0]; simpl.
    + destruct (String.eqb_spec k k'); [congruence|done].
    + destruct (String.eqb k0 k'); [done|]. exact IH.
Qed.

(** X29.  Once [updateUser] was called with [active: false], every token
    that resolves to the user of that id resolves to an inactive user:
    [requireAuth] and [requireManager] turn the user away, in memory and
    over the tables, although the sessions of the user are still there. *)
Theorem updateUser_deactivates id patch s :
  patch_active patch = Some false ->
  users_keyed (fallbackUsers s) ->
  match pool s with Some t => rows_keyed t | None => True end ->
  forall token user,
    getUserByTokenAsync token (updateUser id patch s).1 = Some user ->
    u_id user = id ->
    u_active user = false /\
    requireManager token (updateUser id patch s).1 = None /\
    forall auth queryToken,
      extractToken auth queryToken = token ->
      requireAuth auth queryToken (updateUser id patch s).1 = None.
Proof.
  intros Hpatch [Hnd Hkeyed] Hrows token user Hget Hid.
  assert (Hinactive : u_active user = false).
  { unfold updateUser, getUserByTokenAsync in *. destruct (noToken token); [done|].
    destruct (pool s) as [t|] eqn:Hp.
    - assert (Hup : hasUpdates patch = true).
      { unfold hasUpdates. rewrite Hpatch. simpl. by rewrite !orb_true_r. }
      rewrite Hup in Hget.
      destruct (newPassword patch) as [p|]; simpl in Hget;
        (destruct (users t !! id) as [row|] eqn:Hrow; simpl in Hget;
         [|rewrite Hp in Hget;
           destruct (sessions t !! default "" token) as [uid|]; simpl in Hget; [|done];
           destruct (users t !! uid) as [row|] eqn:Hu; simpl in Hget; [|done];
           injection Hget as <-; unfold mapUser in Hid; rewrite (Hrows _ _ Hu) in Hid;
           congruence]);
        (destruct (sessions t !! default "" token) as [uid|]; simpl in Hget; [|done]);
        (destruct (decide (uid = id)) as [->|Hne];
         [rewrite lookup_insert_eq in Hget; simpl in Hget; injection Hget as <-;
          simpl; by rewrite Hpatch
         |rewrite lookup_insert_ne in Hget by done;
          destruct (users t !! uid) as [row'|] eqn:Hu; simpl in Hget; [|done];
          injection Hget as <-; unfold mapUser in Hid; rewrite (Hrows _ _ Hu) in Hid;
          congruence]).
    - unfold tokenFallback in Hget.
      destruct (Map_get id (fallbackUsers s)) as [existing|] eqn:Hex; simpl in Hget;
        rewrite Hp in Hget;
        (destruct (fallbackSessions s !! default "" token) as [uid|]; simpl in Hget; [|done]);
        (destruct (String.eqb uid ""); [done|]).
      + destruct (decide (uid = id)) as [->|Hne].
        * rewrite Map_get_set_eq in Hget. simpl in Hget. injection Hget as <-. simpl.
          by rewrite Hpatch.
        * rewrite Map_get_set_ne in Hget by done.
          destruct (Map_get uid (fallbackUsers s)) as [u|] eqn:Hu; simpl in Hget; [|done].
          injection Hget as <-. apply Map_get_Some in Hu.
          rewrite Forall_forall in Hkeyed. specialize (Hkeyed (uid, u) Hu). simpl in Hkeyed.
          congruence.
      + destruct (Map_get uid (fallbackUsers s)) as [u|] eqn:Hu; simpl in Hget; [|done].
        injection Hget as <-. apply Map_get_Some in Hu.
        rewrite Forall_forall in Hkeyed. specialize (Hkeyed (uid, u) Hu). simpl in Hkeyed.
        assert (Huid : uid = id) by congruence. rewrite Huid in Hu.
        pose proof (Map_get_elem _ _ _ Hnd Hu) as Hfound. congruence. }
  split; [done|]. split.
  - unfold requireManager. rewrite Hget, Hinactive. simpl. by rewrite orb_true_r.
  - intros auth queryToken Htok. unfold requireAuth. rewrite Htok.
    destruct (noToken token); [done|]. by rewrite Hget, Hinactive.
Qed.

Lemma updateUser_deactivates_witness :
  exists user,
    getUserByTokenAsync (Some (uuid 1))
      (updateUser (uuid 0) (mkUserPatch None None None (Some false) None)
         (authenticate "root" "password123" loaded).1).1 = Some user /\
    u_active user = false /\
    requireManager (Some (uuid 1))
      (updateUser (uuid 0) (mkUserPatch None None None (Some false) None)
         (authenticate "root" "password123" loaded).1).1 = None /\
    requireAuth (Some ("Bearer " +:+ uuid 1)) None
      (updateUser (uuid 0) (mkUserPatch None None None (Some false) None)
         (authenticate "root" "password123" loaded).1).1 = None.
Proof.
  eexists. split; [reflexivity|].
  destruct (updateUser_deactivates (uuid 0) (mkUserPatch None None None (Some false) None)
              (authenticate "root" "password123" loaded).1) with
    (token := Some (uuid 1))
    (user := mkUser (uuid 0) "root" "Manager" "admin@example.com" manager false)
    as (Ha & Hm & Hr).
  - reflexivity.
  - split; simpl.
    + apply NoDup_singleton.
    + by repeat constructor.
  - exact I.
  - reflexivity.
  - reflexivity.
  - split; [exact Ha|]. split; [exact Hm|]. apply Hr. reflexivity.
Defined.

(** *** The token of a request *)

Lemma append_empty (a : string) : a +:+ "" = a.
Proof. induction a as [|c a IH]; simpl; [done|]. unfold String.app in *. simpl. by rewrite IH. Qed.

Lemma rev_app_append s acc w : String.rev_app s acc +:+ w = String.rev_app s (acc +:+ w).
Proof. revert acc. induction s as [|a s IH]; intros acc; simpl; [done|]. by rewrite IH. Qed.

Lemma rev_snoc cur c w : String.rev (String c cur) +:+ w = String.rev cur +:+ String c w.
Proof. unfold String.rev. simpl. by rewrite !rev_app_append. Qed.

Lemma split_words_word cur word rest :
  no_space word = true ->
  split_words cur (word +:+ String " "%char rest) = (String.rev cur +:+ word) :: split_words "" rest.
Proof.
  revert cur. induction word as [|c word IH]; intros cur Hword.
  - change ("" +:+ String " "%char rest) with (String " "%char rest). cbn [split_words].
    change (Ascii.eqb " " " ") with true. cbv iota. by rewrite append_empty.
  - cbn [no_space] in Hword. apply andb_prop in Hword as [Hc Hword].
    apply negb_true_iff in Hc.
    change (String c word +:+ String " "%char rest)
      with (String c (word +:+ String " "%char rest)).
    cbn [split_words]. rewrite Hc. rewrite (IH (String c cur) Hword). f_equal.
    apply rev_snoc.
Qed.

Lemma split_words_last cur word :
  no_space word = true -> split_words cur word = [String.rev cur +:+ word].
Proof.
  revert cur. induction word as [|c word IH]; intros cur Hword.
  - cbn [split_words]. by rewrite append_empty.
  - cbn [no_space] in Hword. apply andb_prop in Hword as [Hc Hword].
    apply negb_true_iff in Hc. cbn [split_words]. rewrite Hc.
    rewrite (IH (String c cur) Hword). f_equal. apply rev_snoc.
Qed.

(** X30.  [extractToken] gives the token of the query when there is one;
    otherwise it reads the [Authorization] header: for [Bearer] followed
    by one blank and a token without blanks it gives that token (what the
    client sends for a stored token), and for a header that has another
    first word, or no second word, it gives [null]. *)
Theorem extractToken_reads token auth :
  token <> "" ->
  extractToken auth (Some token) = Some token /\
  (no_space token = true ->
   extractToken (Some ("Bearer " +:+ token)) None = Some token /\
   extractToken (Some ("Bearer " +:+ token)) (Some "") = Some token /\
   extractToken (Some ("Basic " +:+ token)) None = None /\
   extractToken (Some token) None = None).
Proof.
  intros Hne. split.
  - unfold extractToken. by destruct (String.eqb_spec token "").
  - intros Hword.
    assert (Hb : split_space ("Bearer " +:+ token) = ["Bearer"; token]).
    { unfold split_space.
      change ("Bearer " +:+ token) with ("Bearer" +:+ String " "%char token).
      rewrite split_words_word by reflexivity. f_equal. by rewrite split_words_last. }
    assert (Hbasic : split_space ("Basic " +:+ token) = ["Basic"; token]).
    { unfold split_space.
      change ("Basic " +:+ token) with ("Basic" +:+ String " "%char token).
      rewrite split_words_word by reflexivity. f_equal. by rewrite split_words_last. }
    assert (Hone : split_space token = [token]).
    { unfold split_space. by rewrite split_words_last. }
    unfold extractToken, getTokenFromHeader.
    change (String.eqb ("Bearer " +:+ token) "") with false.
    change (String.eqb ("Basic " +:+ token) "") with false.
    change (String.eqb "" "") with true. cbv iota.
    rewrite Hb, Hbasic, Hone. repeat split.
    destruct (String.eqb token ""); [done|]. simpl.
    by destruct (String.eqb token "Bearer").
Qed.

Lemma extractToken_reads_witness :
  extractToken (Some "Bearer other") (Some "uuid-7") = Some "uuid-7" /\
  (no_space "uuid-7" = true ->
   extractToken (Some ("Bearer " +:+ "uuid-7")) None = Some "uuid-7" /\
   extractToken (Some ("Bearer " +:+ "uuid-7")) (Some "") = Some "uuid-7" /\
   extractToken (Some ("Basic " +:+ "uuid-7")) None = None /\
   extractToken (Some "uuid-7") None = None).
Proof. apply (extractToken_reads "uuid-7" (Some "Bearer other")). discriminate. Defined.
End AuthFacts.
